(** * Audio visualizer: beat detection, particle pool and ring renderer

    A shallow embedding of [code.c] (an SDL2 audio-reactive visualizer) and
    the proofs of its specification.

    - C [float] and [double] are IEEE-754 binary32 and binary64 values, with
      the operations of the Standard Library's [SpecFloat] (round to nearest,
      ties to even).  Expressions are evaluated in the type the usual
      arithmetic conversions give them (FLT_EVAL_METHOD = 0).
    - The part of the platform that the program only calls ([cos], [sin],
      [rand], [SDL_GetTicks], the SDL renderer) is a parameter: the class
      [Platform], the [ticks] argument, and the list of render commands a
      draw function returns.
    - [state] is passed explicitly; the mutex only brackets each function's
      body, so a function of the model is one critical section. *)

From stdpp Require Import base list.
From Stdlib Require Import ZArith Rbase Rfunctions Lra Lia Psatz.
From Stdlib Require Import Floats.SpecFloat.
Local Open Scope Z_scope.

(** ** Rounding: the integer quotient nearest to [a / b], ties to even *)

Definition rne (a b : Z) : Z :=
  let q := a / b in
  match 2 * (a mod b) ?= b with
  | Lt => q
  | Eq => if Z.even q then q else q + 1
  | Gt => q + 1
  end.

(** The shift record of [SpecFloat] that stands for the rational [a / b]:
    its integer part, the round bit and the sticky bit. *)
Definition locate (a b : Z) : shr_record :=
  {| shr_m := a / b;
     shr_r := b <=? 2 * (a mod b);
     shr_s := negb (a mod b =? 0) && negb (2 * (a mod b) =? b) |}.

(** The second half of [binary_round_aux]: renormalise the rounded mantissa
    and detect overflow. *)
Definition pack (prec emax : Z) (sx : bool) (R E : Z) : spec_float :=
  let '(mrs, e) := shr_fexp prec emax R E loc_Exact in
  match shr_m mrs with
  | Z0 => S754_zero sx
  | Zpos m => if e <=? emax - prec then S754_finite sx m e else S754_infinity sx
  | _ => S754_nan
  end.

(** The float with mantissa [R] and exponent [E], where [R] may have
    carried into [2 ^ prec]. *)
Definition mkfloat (prec emax : Z) (sx : bool) (R E : Z) : spec_float :=
  if R =? 0 then S754_zero sx
  else if R =? 2 ^ prec then
    if E + 1 <=? emax - prec
    then S754_finite sx (Z.to_pos (2 ^ (prec - 1))) (E + 1)
    else S754_infinity sx
  else
    if E <=? emax - prec then S754_finite sx (Z.to_pos R) E else S754_infinity sx.

(** A rounded mantissa at its exponent: at most [prec] bits (or the carry
    [2 ^ prec]), and fewer than [prec] bits only at the least exponent. *)
Definition good (prec emax : Z) (R E : Z) : Prop :=
  emin prec emax <= E /\ 0 <= R <= 2 ^ prec /\ (R < 2 ^ (prec - 1) -> E = emin prec emax).

Definition lex_le (R1 E1 R2 E2 : Z) : Prop := E1 < E2 \/ (E1 = E2 /\ R1 <= R2).

Definition bpow (e : Z) : R := powerRZ 2 e.

(** The real number a float stands for (0 for infinities and NaN). *)
Definition SF2R (f : spec_float) : R :=
  match f with
  | S754_finite s m e => (IZR (cond_Zopp s (Z.pos m)) * bpow e)%R
  | _ => 0%R
  end.

Definition nonneg (f : spec_float) : bool :=
  match f with
  | S754_zero _ => true
  | S754_finite s _ _ => negb s
  | S754_infinity s => negb s
  | S754_nan => false
  end.

Definition is_finite (f : spec_float) : bool :=
  match f with
  | S754_zero _ | S754_finite _ _ _ => true
  | _ => false
  end.

(** The correctly rounded value of the non-negative rational
    [a / b * 2 ^ ex]. *)
Definition round_pos (prec emax : Z) (a b ex : Z) : spec_float :=
  mkfloat prec emax false
    (rne a (b * 2 ^ (fexp prec emax (Zdigits2 (a / b) + ex) - ex)))
    (fexp prec emax (Zdigits2 (a / b) + ex)).

Definition pre (prec emax : Z) (a b ex : Z) : Prop :=
  0 <= a /\ 0 < b /\ ex <= fexp prec emax (Zdigits2 (a / b) + ex).

(** [RN v f]: the float [f] is the rounding to nearest (ties to even) of the
    non-negative real [v]. *)
Definition RN (prec emax : Z) (v : R) (f : spec_float) : Prop :=
  exists a b ex,
    pre prec emax a b ex /\ v = (IZR a / IZR b * bpow ex)%R /\ f = round_pos prec emax a b ex.

(** A valid float that is [+0] or positive and finite. *)
Definition posfin (prec emax : Z) (f : spec_float) : Prop :=
  match f with
  | S754_zero false => True
  | S754_finite false m e => bounded prec emax m e = true
  | _ => False
  end.

(** ** C arithmetic types *)

Definition float : Type := spec_float.
Definition double : Type := spec_float.

Module F32.
Definition prec : Z := 24.
Definition emax : Z := 128.
Definition zero : float := S754_zero false.
Definition add : float -> float -> float := SFadd prec emax.
Definition sub : float -> float -> float := SFsub prec emax.
Definition mul : float -> float -> float := SFmul prec emax.
Definition div : float -> float -> float := SFdiv prec emax.
Definition lt : float -> float -> bool := SFltb.
Definition le : float -> float -> bool := SFleb.
(** Conversion of an integer to [float]. *)
Definition of_Z (z : Z) : float := binary_normalize prec emax z 0 false.
(** The decimal literal [num / den], correctly rounded. *)
Definition lit (num den : positive) : float :=
  SFdiv prec emax (S754_finite false num 0) (S754_finite false den 0).
End F32.

Module F64.
Definition prec : Z := 53.
Definition emax : Z := 1024.
Definition zero : double := S754_zero false.
Definition add : double -> double -> double := SFadd prec emax.
Definition sub : double -> double -> double := SFsub prec emax.
Definition mul : double -> double -> double := SFmul prec emax.
Definition div : double -> double -> double := SFdiv prec emax.
Definition lt : double -> double -> bool := SFltb.
Definition le : double -> double -> bool := SFleb.
Definition of_Z (z : Z) : double := binary_normalize prec emax z 0 false.
Definition lit (num den : positive) : double :=
  SFdiv prec emax (S754_finite false num 0) (S754_finite false den 0).
End F64.

(** Conversion between the two formats: exact from [float] to [double],
    rounding from [double] to [float]. *)
Definition convert (prec emax : Z) (f : spec_float) : spec_float :=
  match f with
  | S754_finite s m e => binary_normalize prec emax (cond_Zopp s (Z.pos m)) e s
  | _ => f
  end.

Definition f64_of_f32 : float -> double := convert F64.prec F64.emax.
Definition f32_of_f64 : double -> float := convert F32.prec F32.emax.

(** Conversion of a floating value to an integer type discards the fraction;
    the behaviour is undefined ([None]) when the result does not fit. *)
Definition trunc (f : spec_float) : option Z :=
  match f with
  | S754_zero _ => Some 0
  | S754_finite s m e =>
      Some (cond_Zopp s (if 0 <=? e then Z.pos m * 2 ^ e else Z.pos m / 2 ^ (- e)))
  | _ => None
  end.

Definition to_Uint8 (f : spec_float) : option Z :=
  match trunc f with
  | Some z => if (0 <=? z) && (z <=? 255) then Some z else None
  | None => None
  end.

Definition to_int (f : spec_float) : option Z :=
  match trunc f with
  | Some z => if (- 2 ^ 31 <=? z) && (z <? 2 ^ 31) then Some z else None
  | None => None
  end.

(** ** The C library *)

Definition fabs : double -> double := SFabs.

(** [fmod a b]: the exact remainder [a - n * b], [n] the quotient truncated
    toward zero; it has the sign of [a] (ISO C 7.12.10.1, IEC 60559). *)
Definition fmod (a b : double) : double :=
  match a, b with
  | S754_nan, _ | _, S754_nan => S754_nan
  | S754_infinity _, _ => S754_nan
  | _, S754_zero _ => S754_nan
  | S754_zero _, _ => a
  | S754_finite _ _ _, S754_infinity _ => a
  | S754_finite sa ma ea, S754_finite _ mb eb =>
      let e := Z.min ea eb in
      binary_normalize F64.prec F64.emax
        (cond_Zopp sa ((Z.pos ma * 2 ^ (ea - e)) mod (Z.pos mb * 2 ^ (eb - e)))) e sa
  end.

(** [M_PI] of <math.h>. *)
Definition M_PI : double := F64.lit 314159265358979323846 100000000000000000000.

(** [RAND_MAX] of <stdlib.h>, with the value of the GNU C library. *)
Definition RAND_MAX : Z := 2147483647.

(** What the program calls and does not define: the math library's [cos]
    and [sin], and [rand] with its hidden generator state. *)
Class Platform : Type := {
  cos : double -> double;
  sin : double -> double;
  rng : Type;
  rand : rng -> Z * rng;
  rand_bound : forall g : rng, 0 <= fst (rand g) <= RAND_MAX
}.

(** ** The program *)

Definition SCREEN_SIZE : Z := 800.
Definition SAMPLE_RATE : Z := 44100.
Definition BUFFER_SIZE : Z := 2048.
Definition MAX_PARTICLES : nat := 300.
Definition BASE_RADIUS : Z := 100.
Definition BEAT_THRESHOLD : double := F64.lit 14 10.

Record Particle : Type := mkParticle {
  x : float;
  y : float;
  dx : float;
  dy : float;
  lifetime : Z;   (* int *)
  alpha : Z       (* Uint8 *)
}.

Record VisualizerState : Type := mkState {
  amplitude : float;
  beat_energy : float;
  last_beat : Z;  (* Uint32 *)
  particles : list Particle;
  hue : float
}.

(** [VisualizerState state = {0}]. *)
Definition particle0 : Particle :=
  mkParticle F32.zero F32.zero F32.zero F32.zero 0 0.

Definition state0 : VisualizerState :=
  mkState F32.zero F32.zero 0 (replicate MAX_PARTICLES particle0) F32.zero.

(** The three channels written through [r], [g] and [b]. *)
Definition HSLtoRGB (h s l : float) : option Z * option Z * option Z :=
  let h := f32_of_f64 (fmod (f64_of_f32 h) (F64.of_Z 360)) in
  let c := f32_of_f64
             (F64.mul (F64.sub (F64.of_Z 1)
                         (fabs (f64_of_f32 (F32.sub (F32.mul (F32.of_Z 2) l) (F32.of_Z 1)))))
                      (f64_of_f32 s)) in
  let x := f32_of_f64
             (F64.mul (f64_of_f32 c)
                (F64.sub (F64.of_Z 1)
                   (fabs (F64.sub (fmod (F64.div (f64_of_f32 h) (F64.of_Z 60)) (F64.of_Z 2))
                                  (F64.of_Z 1))))) in
  let m := F32.sub l (F32.div c (F32.of_Z 2)) in
  let channel (v : float) := to_Uint8 (F32.mul v (F32.of_Z 255)) in
  if F32.lt h (F32.of_Z 60) then (channel (F32.add c m), channel (F32.add x m), channel m)
  else if F32.lt h (F32.of_Z 120) then (channel (F32.add x m), channel (F32.add c m), channel m)
  else if F32.lt h (F32.of_Z 180) then (channel m, channel (F32.add c m), channel (F32.add x m))
  else if F32.lt h (F32.of_Z 240) then (channel m, channel (F32.add x m), channel (F32.add c m))
  else (channel (F32.add x m), channel m, channel (F32.add c m)).

(** The value [rand_range] returns when [rand ()] returns [r]. *)
Definition rand_range_of (min max : float) (r : Z) : float :=
  F32.add min (F32.div (F32.of_Z r) (F32.div (F32.of_Z RAND_MAX) (F32.sub max min))).

(** Mean normalised rectified amplitude of a buffer of [Sint16] samples:
    the loop of [audio_callback], [sum] being a [float]. *)
Definition is_Sint16 (s : Z) : bool := (-32768 <=? s) && (s <=? 32767).

Definition sum_step (sum : float) (s : Z) : float :=
  f32_of_f64 (F64.add (f64_of_f32 sum)
                (F64.div (fabs (F64.of_Z s)) (f64_of_f32 (F32.of_Z 32768)))).

Definition buffer_sum (samples : list Z) : float := foldl sum_step F32.zero samples.

Definition buffer_energy (samples : list Z) : float :=
  F32.div (buffer_sum samples) (F32.of_Z (Z.of_nat (length samples))).

(** The smoothed baseline after the update, and the comparison
    [energy > state.beat_energy * BEAT_THRESHOLD] made on it. *)
Definition ema_update (beat_energy energy : float) : float :=
  F32.add (F32.mul (F32.lit 9 10) beat_energy) (F32.mul (F32.lit 1 10) energy).

Definition exceeds_threshold (energy beat_energy : float) : bool :=
  F64.lt (F64.mul (f64_of_f32 beat_energy) BEAT_THRESHOLD) (f64_of_f32 energy).

(** Whether this invocation of [audio_callback] takes the beat branch. *)
Definition beat_onset (st : VisualizerState) (samples : list Z) : bool :=
  let energy := buffer_energy samples in
  exceeds_threshold energy (ema_update (beat_energy st) energy).

Definition hue_step (h : float) : float :=
  f32_of_f64 (fmod (f64_of_f32 (F32.add h (F32.lit 3 10))) (F64.of_Z 360)).

(** What the renderer is asked to do. *)
Inductive RenderCmd : Type :=
| SetRenderDrawColor (r g b a : option Z)
| RenderClear
| RenderDrawPoint (px py : option Z).

Section Program.
Context {platform : Platform}.

Definition rand_range (min max : float) (g : rng) : float * rng :=
  let '(r, g) := rand g in (rand_range_of min max r, g).

(** The body of the [if] in the particle loop: the new particle. *)
Definition new_particle (g : rng) : Particle * rng :=
  let '(angle, g) := rand_range (F32.of_Z 0) (f32_of_f64 (F64.mul M_PI (F64.of_Z 2))) g in
  let '(speed, g) := rand_range (F32.of_Z 1) (F32.of_Z 3) g in
  let '(r, g) := rand g in
  (mkParticle (F32.of_Z (SCREEN_SIZE / 2)) (F32.of_Z (SCREEN_SIZE / 2))
     (f32_of_f64 (F64.mul (cos (f64_of_f32 angle)) (f64_of_f32 speed)))
     (f32_of_f64 (F64.mul (sin (f64_of_f32 angle)) (f64_of_f32 speed)))
     (Z.rem r 30 + 20) 255, g).

(** [for(int i=0; i<MAX_PARTICLES; i++) if(lifetime <= 0) { ...; break; }],
    [fuel] being the number of iterations left. *)
Fixpoint spawn_loop (fuel i : nat) (ps : list Particle) (g : rng) : list Particle * rng :=
  match fuel with
  | O => (ps, g)
  | S fuel =>
      match ps !! i with
      | Some p =>
          if lifetime p <=? 0
          then let '(p', g) := new_particle g in (<[i := p']> ps, g)
          else spawn_loop fuel (S i) ps g
      | None => (ps, g)
      end
  end.

Definition audio_callback (st : VisualizerState) (samples : list Z) (ticks : Z) (g : rng)
  : VisualizerState * rng :=
  let energy := buffer_energy samples in
  let amplitude' := energy in
  let beat_energy' := ema_update (beat_energy st) energy in
  let '(last_beat', particles', g) :=
    if exceeds_threshold energy beat_energy'
    then let '(ps, g) := spawn_loop MAX_PARTICLES 0 (particles st) g in (ticks, ps, g)
    else (last_beat st, particles st, g) in
  (mkState amplitude' beat_energy' last_beat' particles' (hue_step (hue st)), g).

(** The angle of the ring's point at [i] degrees, and the point. *)
Definition ring_angle (i : Z) : float :=
  f32_of_f64 (F64.div (F64.mul (F64.of_Z i) M_PI) (F64.of_Z 180)).

Definition ring_point (radius : float) (i : Z) : RenderCmd :=
  RenderDrawPoint
    (to_int (F64.add (F64.of_Z (SCREEN_SIZE / 2))
               (F64.mul (cos (f64_of_f32 (ring_angle i))) (f64_of_f32 radius))))
    (to_int (F64.add (F64.of_Z (SCREEN_SIZE / 2))
               (F64.mul (sin (f64_of_f32 (ring_angle i))) (f64_of_f32 radius)))).

Fixpoint draw_circle_loop (fuel : nat) (i : Z) (rgb : option Z * option Z * option Z)
    (radius : float) : list RenderCmd :=
  match fuel with
  | O => []
  | S fuel =>
      if i <? 360
      then let '(r, g, b) := rgb in
           SetRenderDrawColor r g b (Some 255) :: ring_point radius i
             :: draw_circle_loop fuel (i + 2) rgb radius
      else []
  end.

Definition draw_circle (st : VisualizerState) (radius : float) : list RenderCmd :=
  draw_circle_loop 360 0 (HSLtoRGB (hue st) (F32.lit 8 10) (F32.lit 6 10)) radius.

(** The body of the [if] in [draw_particles]. *)
Definition advance (p : Particle) : Particle :=
  mkParticle (F32.add (x p) (dx p)) (F32.add (y p) (dy p)) (dx p) (dy p)
    (lifetime p - 1) ((alpha p - 8) mod 256).

Fixpoint draw_particles_loop (fuel i : nat) (rgb : option Z * option Z * option Z)
    (ps : list Particle) : list Particle * list RenderCmd :=
  match fuel with
  | O => (ps, [])
  | S fuel =>
      match ps !! i with
      | Some p =>
          if 0 <? lifetime p
          then let p' := advance p in
               let '(r, g, b) := rgb in
               let '(ps', cmds) := draw_particles_loop fuel (S i) rgb (<[i := p']> ps) in
               (ps', SetRenderDrawColor r g b (Some (alpha p'))
                       :: RenderDrawPoint (to_int (x p')) (to_int (y p')) :: cmds)
          else draw_particles_loop fuel (S i) rgb ps
      | None => (ps, [])
      end
  end.

Definition draw_particles (st : VisualizerState) : VisualizerState * list RenderCmd :=
  let '(ps, cmds) :=
    draw_particles_loop MAX_PARTICLES 0
      (HSLtoRGB (hue st) (F32.lit 8 10) (F32.lit 7 10)) (particles st) in
  (mkState (amplitude st) (beat_energy st) (last_beat st) ps (hue st), cmds).

(** [beat_strength] and [radius] of [draw_visualization]; the difference of
    the two [Uint32] ticks wraps modulo 2^32. *)
Definition beat_strength (st : VisualizerState) (ticks : Z) : float :=
  F32.div (F32.of_Z ((ticks - last_beat st) mod 2 ^ 32)) (F32.of_Z 1000).

Definition ring_radius (st : VisualizerState) (ticks : Z) : float :=
  F32.sub (F32.add (F32.of_Z BASE_RADIUS) (F32.mul (amplitude st) (F32.of_Z 150)))
          (F32.mul (beat_strength st ticks) (F32.of_Z 50)).

Definition draw_visualization (st : VisualizerState) (ticks : Z)
  : VisualizerState * list RenderCmd :=
  let radius := ring_radius st ticks in
  let ring := draw_circle st radius in
  let '(st', points) := draw_particles st in
  (st', SetRenderDrawColor (Some 20) (Some 20) (Some 30) (Some 255) :: RenderClear
          :: ring ++ points).

(** [n] invocations of [audio_callback] on the same buffer. *)
Fixpoint callbacks (n : nat) (st : VisualizerState) (samples : list Z)
    (ticks : nat -> Z) (g : rng) : VisualizerState * rng :=
  match n with
  | O => (st, g)
  | S n =>
      let '(st, g) := callbacks n st samples ticks g in
      audio_callback st samples (ticks n) g
  end.

(** [n] frames of particle advance. *)
Fixpoint frames (n : nat) (st : VisualizerState) : VisualizerState :=
  match n with
  | O => st
  | S n => fst (draw_particles (frames n st))
  end.

(** The states of a run: [main] starts from [state0]; the audio thread runs
    [audio_callback] and the render loop [draw_visualization], each under
    the mutex, in any order. *)
Inductive reachable : VisualizerState -> Prop :=
| reachable_init : reachable state0
| reachable_callback (st : VisualizerState) (samples : list Z) (ticks : Z) (g : rng) :
    reachable st -> reachable (fst (audio_callback st samples ticks g))
| reachable_frame (st : VisualizerState) (ticks : Z) :
    reachable st -> reachable (fst (draw_visualization st ticks)).

End Program.

(** ** Reference definitions and test data *)

(** The standard six-sector conversion the specification describes: the
    arithmetic of [HSLtoRGB], with one case for each sector of 60 degrees. *)
Definition HSLtoRGB_six_sector (h s l : float) : option Z * option Z * option Z :=
  let h := f32_of_f64 (fmod (f64_of_f32 h) (F64.of_Z 360)) in
  let c := f32_of_f64
             (F64.mul (F64.sub (F64.of_Z 1)
                         (fabs (f64_of_f32 (F32.sub (F32.mul (F32.of_Z 2) l) (F32.of_Z 1)))))
                      (f64_of_f32 s)) in
  let x := f32_of_f64
             (F64.mul (f64_of_f32 c)
                (F64.sub (F64.of_Z 1)
                   (fabs (F64.sub (fmod (F64.div (f64_of_f32 h) (F64.of_Z 60)) (F64.of_Z 2))
                                  (F64.of_Z 1))))) in
  let m := F32.sub l (F32.div c (F32.of_Z 2)) in
  let channel (v : float) := to_Uint8 (F32.mul v (F32.of_Z 255)) in
  if F32.lt h (F32.of_Z 60) then (channel (F32.add c m), channel (F32.add x m), channel m)
  else if F32.lt h (F32.of_Z 120) then (channel (F32.add x m), channel (F32.add c m), channel m)
  else if F32.lt h (F32.of_Z 180) then (channel m, channel (F32.add c m), channel (F32.add x m))
  else if F32.lt h (F32.of_Z 240) then (channel m, channel (F32.add x m), channel (F32.add c m))
  else if F32.lt h (F32.of_Z 300) then (channel (F32.add x m), channel m, channel (F32.add c m))
  else (channel (F32.add c m), channel m, channel (F32.add x m)).

(** The step of the particle advance on one slot. *)
Definition advance_if_active (p : Particle) : Particle :=
  if 0 <? lifetime p then advance p else p.

(** The baseline after [n] updates with the same energy. *)
Definition baseline (energy : float) (n : nat) : float :=
  Nat.iter n (fun b => ema_update b energy) F32.zero.

(** Buffers of [BUFFER_SIZE] samples: all at half scale, all quiet, and all
    zero. *)
Definition half_scale_buffer : list Z := replicate (Z.to_nat BUFFER_SIZE) 16384.
Definition quiet_buffer : list Z := replicate (Z.to_nat BUFFER_SIZE) 2360.
Definition silent_buffer : list Z := replicate (Z.to_nat BUFFER_SIZE) 0.

(** Two platforms to run the program on.  The first has a linear
    congruential generator for [rand]; the second has a [rand] that returns
    [RAND_MAX].  Their [cos] and [sin] are those of the angle 0. *)
Definition lcg (g : Z) : Z * Z :=
  let g' := (g * 1103515245 + 12345) mod 2147483648 in (g', g').

Definition test_platform : Platform :=
  {| cos := fun _ => F64.of_Z 1;
     sin := fun _ => F64.zero;
     rng := Z;
     rand := lcg;
     rand_bound := fun g =>
       ltac:(unfold lcg, RAND_MAX; cbn [fst];
             pose proof (Z.mod_pos_bound (g * 1103515245 + 12345) 2147483648); lia) |}.

Definition max_platform : Platform :=
  {| cos := fun _ => F64.of_Z 1;
     sin := fun _ => F64.zero;
     rng := unit;
     rand := fun g => (RAND_MAX, g);
     rand_bound := fun g => ltac:(unfold RAND_MAX; cbn [fst]; lia) |}.

(** A pool whose slots are all active, and one whose first slot holds a
    fresh particle of the longest lifetime. *)
Definition active_particle : Particle :=
  mkParticle (F32.of_Z 400) (F32.of_Z 400) (F32.of_Z 1) (F32.of_Z 1) 30 255.

Definition full_state : VisualizerState :=
  mkState F32.zero F32.zero 0 (replicate MAX_PARTICLES active_particle) F32.zero.

Definition fresh_state : VisualizerState :=
  mkState F32.zero F32.zero 0
    (<[0%nat := mkParticle (F32.of_Z 400) (F32.of_Z 400) (F32.of_Z 1) (F32.of_Z 1) 49 255]>
       (replicate MAX_PARTICLES particle0))
    F32.zero.

(** ** Predicates of the proofs *)

(** Not a negative number: NaN, a zero, or a float whose sign bit is clear. *)
Definition notneg (f : spec_float) : Prop :=
  match f with
  | S754_infinity s | S754_finite s _ _ => s = false
  | _ => True
  end.

(** The same, and not the negative zero. *)
Definition sign_clear (f : spec_float) : Prop :=
  match f with
  | S754_zero s | S754_infinity s | S754_finite s _ _ => s = false
  | S754_nan => True
  end.

(** The running sum of the callback's loop: finite and at most 2^24. *)
Definition sum_ok (sum : float) : Prop :=
  posfin F32.prec F32.emax sum /\ (SF2R sum <= 16777216)%R.

(** ** Measures and invariants of the pool *)

Definition active (p : Particle) : bool := 0 <? lifetime p.

(** The index of the lowest slot of the array whose lifetime is at most 0,
    if there is one: the slot on which the spawn loop of [audio_callback]
    breaks. *)
Fixpoint first_inactive_from (i : nat) (ps : list Particle) : option nat :=
  match ps with
  | [] => None
  | p :: ps => if lifetime p <=? 0 then Some i else first_inactive_from (S i) ps
  end.

Definition first_inactive (ps : list Particle) : option nat :=
  first_inactive_from 0 (take MAX_PARTICLES ps).

(** The number of active slots. *)
Definition active_count (ps : list Particle) : nat := length (List.filter active ps).

(** A slot as the program leaves it: a lifetime the spawn can have given and
    the frames have counted down, and an alpha that fits its [Uint8]. *)
Definition particle_ok (p : Particle) : Prop :=
  0 <= lifetime p <= 49 /\ 0 <= alpha p <= 255.

Definition pool_ok (ps : list Particle) : Prop :=
  length ps = MAX_PARTICLES /\ Forall particle_ok ps.

(** What [draw_particles] asks of the renderer for one slot. *)
Definition particle_cmds (rgb : option Z * option Z * option Z) (p : Particle)
  : list RenderCmd :=
  if active p
  then let p' := advance p in
       let '(r, g, b) := rgb in
       [SetRenderDrawColor r g b (Some (alpha p'));
        RenderDrawPoint (to_int (x p')) (to_int (y p'))]
  else [].

(** The runs on the buffers an audio device delivers: at least one sample,
    every sample a [Sint16]. *)
Section Runs.
Context {platform : Platform}.

Inductive run : VisualizerState -> Prop :=
| run_init : run state0
| run_callback (st : VisualizerState) (samples : list Z) (ticks : Z) (g : rng) :
    run st -> samples <> [] -> forallb is_Sint16 samples = true ->
    run (fst (audio_callback st samples ticks g))
| run_frame (st : VisualizerState) (ticks : Z) :
    run st -> run (fst (draw_visualization st ticks)).

End Runs.

(** The intermediate values of [HSLtoRGB]: [c], [x] and [m]. *)
Definition chroma (s l : float) : float :=
  f32_of_f64
    (F64.mul (F64.sub (F64.of_Z 1)
                (fabs (f64_of_f32 (F32.sub (F32.mul (F32.of_Z 2) l) (F32.of_Z 1)))))
             (f64_of_f32 s)).

Definition secondary (h c : float) : float :=
  f32_of_f64
    (F64.mul (f64_of_f32 c)
       (F64.sub (F64.of_Z 1)
          (fabs (F64.sub (fmod (F64.div (f64_of_f32 h) (F64.of_Z 60)) (F64.of_Z 2))
                         (F64.of_Z 1))))).

Definition offset (l c : float) : float := F32.sub l (F32.div c (F32.of_Z 2)).

(** The conversion [*r = v * 255] of one channel. *)
Definition channel (v : float) : option Z := to_Uint8 (F32.mul v (F32.of_Z 255)).

(** The state after one callback on the half-scale buffer, on the first
    platform. *)
Definition first_beat_state : VisualizerState :=
  fst (@audio_callback test_platform state0 half_scale_buffer 1000 42).

(** Two buffers on either side of the threshold at that state: energies
    0.0732 and 0.0734 against the baseline 0.05. *)
Definition below_threshold_buffer : list Z := replicate (Z.to_nat BUFFER_SIZE) 2400.
Definition above_threshold_buffer : list Z := replicate (Z.to_nat BUFFER_SIZE) 2405.

(** * Proofs *)

(** ** Rounding in [SpecFloat] *)

Ltac bool_lia :=
  repeat match goal with
  | |- context [?u <=? ?v] => destruct (Z.leb_spec u v)
  | |- context [?u =? ?v] => destruct (Z.eqb_spec u v)
  | |- context [?u <? ?v] => destruct (Z.ltb_spec u v)
  end; simpl; try reflexivity; try lia.

Lemma digits2_pos_spec p :
  2 ^ (Z.pos (digits2_pos p) - 1) <= Z.pos p < 2 ^ Z.pos (digits2_pos p).
Proof.
  induction p as [p IH|p IH|]; cbn [digits2_pos].
  - rewrite Pos2Z.inj_succ, Z.pow_succ_r by lia.
    replace (Z.succ (Z.pos (digits2_pos p)) - 1) with (Z.succ (Z.pos (digits2_pos p) - 1)) by lia.
    rewrite Z.pow_succ_r by lia. lia.
  - rewrite Pos2Z.inj_succ, Z.pow_succ_r by lia.
    replace (Z.succ (Z.pos (digits2_pos p)) - 1) with (Z.succ (Z.pos (digits2_pos p) - 1)) by lia.
    rewrite Z.pow_succ_r by lia. lia.
  - simpl. lia.
Qed.

Lemma Zdigits2_spec z : 0 < z -> 2 ^ (Zdigits2 z - 1) <= z < 2 ^ Zdigits2 z.
Proof. destruct z; try lia. intros _. apply digits2_pos_spec. Qed.

Lemma Zdigits2_nonneg z : 0 <= Zdigits2 z.
Proof. destruct z; simpl; lia. Qed.

Lemma Zdigits2_pos z : 0 < z -> 0 < Zdigits2 z.
Proof. destruct z; simpl; lia. Qed.

Lemma pow2_pos n : 0 <= n -> 0 < 2 ^ n.
Proof. intros. apply Z.pow_pos_nonneg; lia. Qed.

Lemma pow2_lt_inv a b : 0 <= b -> 2 ^ a < 2 ^ b -> a < b.
Proof.
  intros Hb H. destruct (Z_lt_le_dec a b) as [|Hle]; [assumption|].
  pose proof (Z.pow_le_mono_r 2 b a ltac:(lia) Hle). lia.
Qed.

Lemma Zdigits2_unique z d : 0 < z -> 2 ^ (d - 1) <= z < 2 ^ d -> Zdigits2 z = d.
Proof.
  intros Hz [H1 H2]. pose proof (Zdigits2_spec z Hz) as [H3 H4].
  pose proof (Zdigits2_pos z Hz).
  assert (0 < d).
  { destruct d as [|d|d]; [simpl in H2; lia|lia|].
    rewrite Z.pow_neg_r in H2 by lia. lia. }
  assert (d - 1 < Zdigits2 z) by (apply pow2_lt_inv; lia).
  assert (Zdigits2 z - 1 < d) by (apply pow2_lt_inv; lia).
  lia.
Qed.

Lemma Zdigits2_mul_pow2 m k : 0 < m -> 0 <= k -> Zdigits2 (m * 2 ^ k) = Zdigits2 m + k.
Proof.
  intros Hm Hk. pose proof (Zdigits2_spec m Hm) as [Hlo Hhi].
  pose proof (Zdigits2_pos m Hm). pose proof (pow2_pos k Hk).
  apply Zdigits2_unique; [nia|].
  replace (Zdigits2 m + k - 1) with (Zdigits2 m - 1 + k) by lia.
  rewrite !Z.pow_add_r by lia. nia.
Qed.

Lemma Zdigits2_mul_ge p q : 0 < p -> 0 < q -> Zdigits2 p + Zdigits2 q - 1 <= Zdigits2 (p * q).
Proof.
  intros Hp Hq.
  pose proof (Zdigits2_spec p Hp) as [Hlp _]. pose proof (Zdigits2_spec q Hq) as [Hlq _].
  pose proof (Zdigits2_pos p Hp). pose proof (Zdigits2_pos q Hq).
  pose proof (Zdigits2_spec (p * q) ltac:(nia)) as [_ Hh].
  pose proof (pow2_pos (Zdigits2 p - 1) ltac:(lia)).
  pose proof (pow2_pos (Zdigits2 q - 1) ltac:(lia)).
  assert (Zdigits2 p - 1 + (Zdigits2 q - 1) < Zdigits2 (p * q)); [|lia].
  apply pow2_lt_inv; [apply Zdigits2_nonneg|].
  rewrite Z.pow_add_r by lia. nia.
Qed.

(** One right shift of the record of [a / b] is the record of [a / (2 b)]. *)
Lemma shr_1_locate a b : 0 <= a -> 0 < b -> shr_1 (locate a b) = locate a (2 * b).
Proof.
  intros Ha Hb. unfold locate.
  pose proof (Z.div_mod a b ltac:(lia)) as Hdm.
  pose proof (Z.mod_pos_bound a b Hb) as Hr.
  pose proof (Z.div_pos a b Ha Hb) as Hq.
  assert (Hcases: forall q' r', 0 <= r' < 2*b -> a = 2*b*q' + r' ->
            a / (2*b) = q' /\ a mod (2*b) = r').
  { intros q' r' ? ?. split; symmetry; [eapply Zdiv_unique | eapply Zmod_unique]; eauto. }
  set (m := a / b) in *. set (r := a mod b) in *. clearbody m r.
  destruct m as [|[p|p|]|p]; try lia; cbn [shr_1].
  - destruct (Hcases 0 r) as [-> ->]; try lia. f_equal; bool_lia.
  - destruct (Hcases (Z.pos p) (b + r)) as [-> ->]; try lia. f_equal; bool_lia.
  - destruct (Hcases (Z.pos p) r) as [-> ->]; try lia. f_equal; bool_lia.
  - destruct (Hcases 0 (b + r)) as [-> ->]; try lia. f_equal; bool_lia.
Qed.

Lemma iter_pos_shr_1_locate p : forall a b, 0 <= a -> 0 < b ->
  iter_pos shr_1 p (locate a b) = locate a (b * 2 ^ Z.pos p).
Proof.
  induction p as [p IH|p IH|]; intros a b Ha Hb; cbn [iter_pos].
  - rewrite shr_1_locate, !IH by lia. f_equal.
    replace (Z.pos p~1) with (Z.pos p + Z.pos p + 1) by lia.
    rewrite !Z.pow_add_r by lia. change (2 ^ 1) with 2. ring.
  - rewrite !IH by lia. f_equal.
    replace (Z.pos p~0) with (Z.pos p + Z.pos p) by lia.
    rewrite !Z.pow_add_r by lia. ring.
  - rewrite shr_1_locate by lia. f_equal. change (2 ^ 1) with 2. ring.
Qed.

Lemma locate_exact m : shr_record_of_loc m loc_Exact = locate m 1.
Proof. unfold locate. rewrite Z.div_1_r, Z.mod_1_r. reflexivity. Qed.

Lemma locate_1_exact a : loc_of_shr_record (locate a 1) = loc_Exact.
Proof. unfold locate. rewrite Z.mod_1_r. reflexivity. Qed.

Lemma shr_record_of_loc_locate a b :
  shr_record_of_loc (a / b) (loc_of_shr_record (locate a b)) = locate a b.
Proof.
  unfold locate; cbn [loc_of_shr_record].
  destruct (b <=? 2 * (a mod b)), (negb (a mod b =? 0) && negb (2 * (a mod b) =? b)); reflexivity.
Qed.

Lemma round_nearest_even_locate a b : 0 < b ->
  round_nearest_even (shr_m (locate a b)) (loc_of_shr_record (locate a b)) = rne a b.
Proof.
  intros Hb. unfold locate, rne; cbn [shr_m loc_of_shr_record].
  pose proof (Z.mod_pos_bound a b Hb).
  destruct (Z.compare_spec (2 * (a mod b)) b); bool_lia.
Qed.

Lemma shr_locate a b e n : 0 <= a -> 0 < b -> 0 <= n ->
  shr (locate a b) e n = (locate a (b * 2 ^ n), e + n).
Proof.
  intros Ha Hb Hn. destruct n as [|p|p]; try lia; cbn [shr].
  - rewrite Z.mul_1_r, Z.add_0_r. reflexivity.
  - rewrite iter_pos_shr_1_locate by lia. reflexivity.
Qed.

Lemma new_location_locate a b : 0 < b ->
  new_location b (a mod b) = loc_of_shr_record (locate a b).
Proof.
  intros Hb. pose proof (Z.mod_pos_bound a b Hb) as Hr.
  unfold new_location, new_location_even, new_location_odd, locate; cbn [loc_of_shr_record].
  destruct (Z.even b) eqn:Hev.
  - destruct (Z.eqb_spec (a mod b) 0) as [->|Hr0].
    + cbn [negb andb]. bool_lia.
    + destruct (Z.compare_spec (2 * (a mod b)) b); bool_lia.
  - destruct (Z.eqb_spec (a mod b) 0) as [->|Hr0].
    + cbn [negb andb]. bool_lia.
    + assert (Hodd : 2 * (a mod b) <> b).
      { intros Heq. rewrite <- Heq, Z.even_mul in Hev. discriminate. }
      destruct (Z.compare_spec (2 * (a mod b) + 1) b); bool_lia.
Qed.

Lemma pos_iter_xO m d : Z.pos (Pos.iter xO m d) = Z.pos m * 2 ^ Z.pos d.
Proof.
  induction d as [|d IH] using Pos.peano_ind.
  - simpl. lia.
  - rewrite Pos.iter_succ, Pos2Z.inj_succ, Z.pow_succ_r by lia.
    rewrite Pos2Z.inj_xO, IH. ring.
Qed.

Lemma shl_align_spec mx ex ex' :
  snd (shl_align mx ex ex') = Z.min ex ex' /\
  Z.pos (fst (shl_align mx ex ex')) = Z.pos mx * 2 ^ (ex - Z.min ex ex').
Proof.
  unfold shl_align. destruct (ex' - ex) as [|d|d] eqn:Hd; cbn [fst snd].
  - replace (Z.min ex ex') with ex by lia. rewrite Z.sub_diag. simpl. lia.
  - replace (Z.min ex ex') with ex by lia. rewrite Z.sub_diag. simpl. lia.
  - replace (Z.min ex ex') with ex' by lia. split; [reflexivity|].
    rewrite pos_iter_xO. f_equal. f_equal. lia.
Qed.

Lemma shiftl_case m s : 0 <= s ->
  match s with Z.pos _ => Z.shiftl m s | 0 => m | Z.neg _ => 0 end = m * 2 ^ s.
Proof.
  intros Hs. destruct s as [|p|p].
  - simpl. lia.
  - rewrite Z.shiftl_mul_pow2 by lia. reflexivity.
  - lia.
Qed.

(** *** Properties of [rne] *)

Lemma rne_bounds a b : 0 < b -> a / b <= rne a b <= a / b + 1.
Proof.
  intros Hb. unfold rne.
  destruct (2 * (a mod b) ?= b); [destruct (Z.even (a / b))|..]; lia.
Qed.

Lemma rne_exact k b : 0 < b -> rne (k * b) b = k.
Proof.
  intros Hb. unfold rne. rewrite Z.mod_mul, Z.div_mul by lia.
  destruct (Z.compare_spec (2 * 0) b); lia.
Qed.

Lemma rne_1 a : rne a 1 = a.
Proof. rewrite <- (Z.mul_1_r a) at 1. apply rne_exact. lia. Qed.

Lemma rne_mono a1 a2 b : 0 < b -> a1 <= a2 -> rne a1 b <= rne a2 b.
Proof.
  intros Hb Ha.
  pose proof (Z.div_le_mono a1 a2 b Hb Ha) as Hq.
  destruct (Z.eq_dec (a1 / b) (a2 / b)) as [Heq|Hne].
  - pose proof (Z.div_mod a1 b ltac:(lia)) as H1.
    pose proof (Z.div_mod a2 b ltac:(lia)) as H2.
    unfold rne. rewrite Heq in *.
    destruct (Z.compare_spec (2 * (a1 mod b)) b), (Z.compare_spec (2 * (a2 mod b)) b);
      destruct (Z.even (a2 / b)); lia.
  - pose proof (rne_bounds a1 b Hb). pose proof (rne_bounds a2 b Hb). lia.
Qed.

Lemma rne_le a b k : 0 < b -> a <= k * b -> rne a b <= k.
Proof. intros Hb H. rewrite <- (rne_exact k b Hb). apply rne_mono; assumption. Qed.

Lemma rne_ge a b k : 0 < b -> k * b <= a -> k <= rne a b.
Proof. intros Hb H. rewrite <- (rne_exact k b Hb). apply rne_mono; assumption. Qed.

Lemma rne_scale a b c : 0 < b -> 0 < c -> rne (a * c) (b * c) = rne a b.
Proof.
  intros Hb Hc. unfold rne.
  rewrite Z.div_mul_cancel_r, Z.mul_mod_distr_r by lia.
  pose proof (Z.mod_pos_bound a b Hb).
  destruct (Z.compare_spec (2 * (a mod b)) b), (Z.compare_spec (2 * (a mod b * c)) (b * c));
    try reflexivity; nia.
Qed.

Lemma rne_err a b : 0 < b -> 2 * Z.abs (rne a b * b - a) <= b.
Proof.
  intros Hb. unfold rne.
  pose proof (Z.div_mod a b ltac:(lia)). pose proof (Z.mod_pos_bound a b Hb).
  destruct (Z.compare_spec (2 * (a mod b)) b); [destruct (Z.even (a / b))|..]; nia.
Qed.

Lemma rne_nonneg a b : 0 < b -> 0 <= a -> 0 <= rne a b.
Proof. intros Hb Ha. apply rne_ge; lia. Qed.

Lemma rne_mono_frac a1 b1 a2 b2 :
  0 < b1 -> 0 < b2 -> a1 * b2 <= a2 * b1 -> rne a1 b1 <= rne a2 b2.
Proof.
  intros H1 H2 H.
  rewrite <- (rne_scale a1 b1 b2), <- (rne_scale a2 b2 b1) by assumption.
  rewrite (Z.mul_comm b2 b1). apply rne_mono; lia.
Qed.

(** *** Powers of two as reals *)

Lemma bpow_pos e : (0 < bpow e)%R.
Proof. apply powerRZ_lt. lra. Qed.

Lemma bpow_add a b : bpow (a + b) = (bpow a * bpow b)%R.
Proof. apply powerRZ_add. lra. Qed.

Lemma bpow_IZR n : 0 <= n -> bpow n = IZR (2 ^ n).
Proof.
  intros Hn. unfold bpow. rewrite <- (Z2Nat.id n Hn).
  rewrite <- pow_powerRZ, pow_IZR. reflexivity.
Qed.

Lemma bpow_neg n : 0 <= n -> bpow (- n) = (/ IZR (2 ^ n))%R.
Proof. intros Hn. unfold bpow. rewrite powerRZ_neg'. f_equal. apply bpow_IZR, Hn. Qed.

Lemma bpow_le a b : a <= b -> (bpow a <= bpow b)%R.
Proof.
  intros H. replace b with (a + (b - a)) by lia. rewrite bpow_add.
  rewrite (bpow_IZR (b - a)) by lia.
  pose proof (bpow_pos a).
  assert (1 <= IZR (2 ^ (b - a)))%R.
  { apply IZR_le. pose proof (Z.pow_pos_nonneg 2 (b - a)). lia. }
  nra.
Qed.

Lemma bpow_lt a b : a < b -> (bpow a < bpow b)%R.
Proof.
  intros H. replace b with (a + (b - a)) by lia. rewrite bpow_add.
  rewrite (bpow_IZR (b - a)) by lia.
  pose proof (bpow_pos a).
  assert (2 <= IZR (2 ^ (b - a)))%R.
  { apply IZR_le. replace (b - a) with (1 + (b - a - 1)) by lia.
    rewrite Z.pow_add_r by lia. pose proof (Z.pow_pos_nonneg 2 (b - a - 1)). lia. }
  nra.
Qed.

Lemma bpow_lt_inv a b : (bpow a < bpow b)%R -> a < b.
Proof.
  intros H. destruct (Z_lt_le_dec a b) as [|Hle]; [assumption|].
  pose proof (bpow_le b a Hle). lra.
Qed.

Lemma frac_rescale a b ex n : 0 < b -> 0 <= n ->
  (IZR a / IZR b * bpow ex = IZR a / IZR (b * 2 ^ n) * bpow (ex + n))%R.
Proof.
  intros Hb Hn. rewrite mult_IZR, <- bpow_IZR, bpow_add by lia.
  pose proof (bpow_pos n). assert (0 < IZR b)%R by (apply IZR_lt; lia).
  field. split; lra.
Qed.

Lemma div_IZR_lt a b hi : 0 < b -> a < hi * b -> (IZR a / IZR b < IZR hi)%R.
Proof.
  intros Hb H. assert (0 < IZR b)%R by (apply IZR_lt; lia).
  apply IZR_lt in H. rewrite mult_IZR in H.
  apply Rmult_lt_reg_r with (IZR b); [assumption|].
  unfold Rdiv. rewrite Rmult_assoc, Rinv_l by lra. lra.
Qed.

Lemma div_IZR_ge a b lo : 0 < b -> lo * b <= a -> (IZR lo <= IZR a / IZR b)%R.
Proof.
  intros Hb H. assert (0 < IZR b)%R by (apply IZR_lt; lia).
  apply IZR_le in H. rewrite mult_IZR in H.
  apply Rmult_le_reg_r with (IZR b); [assumption|].
  unfold Rdiv. rewrite Rmult_assoc, Rinv_l by lra. lra.
Qed.

Lemma div_IZR_le_inv a1 b1 a2 b2 : 0 < b1 -> 0 < b2 ->
  (IZR a1 / IZR b1 <= IZR a2 / IZR b2)%R -> a1 * b2 <= a2 * b1.
Proof.
  intros H1 H2 H. apply le_IZR. rewrite !mult_IZR.
  assert (0 < IZR b1)%R by (apply IZR_lt; lia).
  assert (0 < IZR b2)%R by (apply IZR_lt; lia).
  apply (Rmult_le_compat_r (IZR b1 * IZR b2)) in H; [|nra].
  unfold Rdiv in H.
  replace (IZR a1 * / IZR b1 * (IZR b1 * IZR b2))%R with (IZR a1 * IZR b2)%R in H by (field; lra).
  replace (IZR a2 * / IZR b2 * (IZR b1 * IZR b2))%R with (IZR a2 * IZR b1)%R in H by (field; lra).
  exact H.
Qed.

(** *** The rounding core of [SpecFloat] *)

Section Format.
Variables prec emax : Z.
Hypothesis Hprec : 0 < prec.
Hypothesis Hemax : prec < emax.

Local Abbreviation emin := (SpecFloat.emin prec emax).
Local Abbreviation fexp := (SpecFloat.fexp prec emax).
Local Abbreviation rexp a b ex := (SpecFloat.fexp prec emax (Zdigits2 (a / b) + ex)).
Local Abbreviation rden a b ex :=
  (b * 2 ^ (SpecFloat.fexp prec emax (Zdigits2 (a / b) + ex) - ex)).

Lemma binary_round_aux_pack sx mx ex lx :
  binary_round_aux prec emax sx mx ex lx =
  let '(mrs, e) := shr_fexp prec emax mx ex lx in
  pack prec emax sx (round_nearest_even (shr_m mrs) (loc_of_shr_record mrs)) e.
Proof. unfold binary_round_aux, pack. destruct (shr_fexp prec emax mx ex lx). reflexivity. Qed.

Lemma fexp_ge_emin e : emin <= fexp e.
Proof. unfold SpecFloat.fexp. lia. Qed.

Lemma fexp_mono e1 e2 : e1 <= e2 -> fexp e1 <= fexp e2.
Proof. unfold SpecFloat.fexp. lia. Qed.

Lemma pack_zero sx E : pack prec emax sx 0 E = S754_zero sx.
Proof.
  unfold pack, shr_fexp. rewrite locate_exact.
  destruct (Z_le_gt_dec 0 (fexp (Zdigits2 0 + E) - E)) as [Hn|Hn].
  - rewrite shr_locate by lia. cbn [shr_m locate]. rewrite Z.div_0_l; [reflexivity|].
    pose proof (Z.pow_pos_nonneg 2 (fexp (Zdigits2 0 + E) - E)). lia.
  - destruct (fexp (Zdigits2 0 + E) - E); try lia. reflexivity.
Qed.

Lemma pack_canonical sx R E : 0 < R -> fexp (Zdigits2 R + E) = E ->
  pack prec emax sx R E =
  if E <=? emax - prec then S754_finite sx (Z.to_pos R) E else S754_infinity sx.
Proof.
  intros HR HE. unfold pack, shr_fexp. rewrite HE, Z.sub_diag. cbn [shr shr_record_of_loc shr_m].
  destruct R; try lia. reflexivity.
Qed.

Lemma pack_carry sx E : emin <= E ->
  pack prec emax sx (2 ^ prec) E =
  if E + 1 <=? emax - prec then S754_finite sx (Z.to_pos (2 ^ (prec - 1))) (E + 1)
  else S754_infinity sx.
Proof.
  intros HE. unfold pack, shr_fexp.
  pose proof (pow2_pos prec ltac:(lia)) as Hp.
  assert (Hd: Zdigits2 (2 ^ prec) = prec + 1).
  { apply Zdigits2_unique; [lia|]. replace (prec + 1 - 1) with prec by lia.
    rewrite Z.pow_add_r by lia. change (2 ^ 1) with 2. lia. }
  rewrite Hd. replace (fexp (prec + 1 + E) - E) with 1 by (unfold SpecFloat.fexp; lia).
  rewrite locate_exact, shr_locate by lia. cbn [shr_m locate].
  rewrite Z.mul_1_l. change (2 ^ 1) with 2.
  replace (2 ^ prec / 2) with (2 ^ (prec - 1)).
  2:{ replace prec with (prec - 1 + 1) at 2 by lia. rewrite Z.pow_add_r by lia.
      change (2 ^ 1) with 2. rewrite Z.div_mul by lia. reflexivity. }
  pose proof (pow2_pos (prec - 1) ltac:(lia)).
  destruct (2 ^ (prec - 1)); try lia. reflexivity.
Qed.

Lemma good_canonical R E : good prec emax R E -> 0 < R < 2 ^ prec ->
  fexp (Zdigits2 R + E) = E.
Proof.
  intros (HE & HR & Hsub) HR'.
  pose proof (Zdigits2_spec R ltac:(lia)) as [Hd1 Hd2].
  pose proof (Zdigits2_pos R ltac:(lia)) as Hd0.
  assert (Zdigits2 R <= prec).
  { assert (Zdigits2 R - 1 < prec) by (apply pow2_lt_inv; lia). lia. }
  destruct (Z_lt_le_dec R (2 ^ (prec - 1))) as [Hlt|Hge].
  - rewrite (Hsub Hlt). unfold SpecFloat.fexp.
    assert (Zdigits2 R - 1 < prec - 1) by (apply pow2_lt_inv; lia). lia.
  - assert (prec - 1 < Zdigits2 R) by (apply pow2_lt_inv; lia).
    unfold SpecFloat.fexp. lia.
Qed.

Lemma pack_good sx R E : good prec emax R E -> pack prec emax sx R E = mkfloat prec emax sx R E.
Proof.
  intros Hg. pose proof Hg as (HE & HR & Hsub). unfold mkfloat.
  destruct (Z.eqb_spec R 0) as [->|HR0]; [apply pack_zero|].
  destruct (Z.eqb_spec R (2 ^ prec)) as [->|HRp]; [apply pack_carry; assumption|].
  apply pack_canonical; [lia|]. apply good_canonical; [assumption|lia].
Qed.

Lemma valid_mkfloat sx R E : good prec emax R E ->
  valid_binary prec emax (mkfloat prec emax sx R E) = true.
Proof.
  intros Hg. pose proof Hg as (HE & HR & Hsub). unfold mkfloat.
  destruct (Z.eqb_spec R 0) as [->|HR0]; [reflexivity|].
  destruct (Z.eqb_spec R (2 ^ prec)) as [->|HRp].
  - destruct (Z.leb_spec (E + 1) (emax - prec)); [|reflexivity].
    cbn [valid_binary]. unfold bounded, canonical_mantissa.
    pose proof (pow2_pos (prec - 1) ltac:(lia)) as Hp.
    change (Z.pos (digits2_pos (Z.to_pos (2 ^ (prec - 1)))))
      with (Zdigits2 (Z.pos (Z.to_pos (2 ^ (prec - 1))))).
    rewrite Z2Pos.id by lia.
    rewrite (Zdigits2_unique (2 ^ (prec - 1)) prec); [|lia|].
    + apply andb_true_intro; split; [apply Z.eqb_eq; unfold SpecFloat.fexp; lia| apply Z.leb_le; lia].
    + split; [lia|]. apply Z.pow_lt_mono_r; lia.
  - destruct (Z.leb_spec E (emax - prec)); [|reflexivity].
    cbn [valid_binary]. unfold bounded, canonical_mantissa.
    change (Z.pos (digits2_pos (Z.to_pos R))) with (Zdigits2 (Z.pos (Z.to_pos R))).
    rewrite Z2Pos.id by lia.
    rewrite good_canonical by (assumption || lia).
    apply andb_true_intro; split; [apply Z.eqb_eq; reflexivity | apply Z.leb_le; lia].
Qed.

Lemma rne_good a b ex : pre prec emax a b ex ->
  good prec emax (rne a (rden a b ex)) (rexp a b ex).
Proof.
  intros (Ha & Hb & Hn).
  pose proof (Z.div_mod a b ltac:(lia)) as Hdm.
  pose proof (Z.mod_pos_bound a b Hb) as Hr.
  pose proof (Z.div_pos a b Ha Hb) as Hq.
  pose proof (Zdigits2_nonneg (a / b)) as Hd0.
  set (mx := a / b) in *. set (d := Zdigits2 mx) in *.
  set (E := fexp (d + ex)) in *. set (n := E - ex).
  assert (Hn0 : 0 <= n) by (unfold n; lia).
  pose proof (pow2_pos n Hn0) as HpB.
  assert (HB : 0 < b * 2 ^ n) by nia.
  assert (HE : emin <= E) by apply fexp_ge_emin.
  assert (Hdn : d <= prec + n) by (unfold n, E, SpecFloat.fexp; lia).
  assert (Hmx : mx + 1 <= 2 ^ d).
  { destruct (Z.eq_dec mx 0) as [H0|H0].
    - unfold d. rewrite H0. simpl. lia.
    - pose proof (Zdigits2_spec mx ltac:(lia)). unfold d. lia. }
  split; [assumption|]. split; [split|].
  - apply rne_nonneg; assumption.
  - apply rne_le; [assumption|].
    pose proof (Z.pow_le_mono_r 2 d (prec + n) ltac:(lia) Hdn) as Hpow.
    rewrite Z.pow_add_r in Hpow by lia.
    pose proof (pow2_pos prec ltac:(lia)). nia.
  - intros Hlt. destruct (Z.eq_dec E emin) as [|Hne]; [assumption|exfalso].
    assert (HEd : E = d + ex - prec) by (unfold E, SpecFloat.fexp in *; lia).
    assert (Hnd : n = d - prec) by (unfold n; lia).
    assert (Hmx0 : 0 < mx).
    { destruct (Z.eq_dec mx 0) as [H0|H0]; [|lia]. unfold d in Hnd. rewrite H0 in Hnd.
      simpl in Hnd. lia. }
    pose proof (Zdigits2_spec mx Hmx0) as [Hlo _]. fold d in Hlo.
    replace (d - 1) with (prec - 1 + n) in Hlo by lia.
    rewrite Z.pow_add_r in Hlo by lia.
    assert (2 ^ (prec - 1) <= rne a (b * 2 ^ n)); [|lia].
    apply rne_ge; [assumption|].
    pose proof (pow2_pos (prec - 1) ltac:(lia)). nia.
Qed.

(** [binary_round_aux] returns the nearest-even quotient at the exponent of
    the format. *)
Lemma binary_round_aux_locate sx a b ex : pre prec emax a b ex ->
  binary_round_aux prec emax sx (a / b) ex (loc_of_shr_record (locate a b)) =
  mkfloat prec emax sx (rne a (rden a b ex)) (rexp a b ex).
Proof.
  intros Hpre. pose proof Hpre as (Ha & Hb & Hn).
  rewrite binary_round_aux_pack. unfold shr_fexp.
  rewrite shr_record_of_loc_locate, shr_locate by lia.
  assert (HB : 0 < rden a b ex).
  { pose proof (pow2_pos (rexp a b ex - ex) ltac:(lia)). nia. }
  rewrite round_nearest_even_locate by assumption.
  replace (ex + (rexp a b ex - ex)) with (rexp a b ex) by lia.
  apply pack_good. apply rne_good; assumption.
Qed.

Lemma bounded_good m e : bounded prec emax m e = true ->
  good prec emax (Z.pos m) e /\ Z.pos m < 2 ^ prec /\ e <= emax - prec.
Proof.
  unfold bounded, canonical_mantissa. intros H.
  apply andb_prop in H as [H1 H2]. apply Z.eqb_eq in H1. apply Z.leb_le in H2.
  pose proof (digits2_pos_spec m) as [Hlo Hhi].
  set (d := Z.pos (digits2_pos m)) in *.
  assert (Hd : d <= prec) by (unfold SpecFloat.fexp in H1; lia).
  pose proof (Z.pow_le_mono_r 2 d prec ltac:(lia) Hd).
  split; [|lia]. split; [unfold SpecFloat.fexp in H1; lia|]. split; [lia|].
  intros Hlt. assert (d - 1 < prec - 1) by (apply pow2_lt_inv; lia).
  unfold SpecFloat.fexp in H1; lia.
Qed.

Lemma mkfloat_finite m e : bounded prec emax m e = true ->
  mkfloat prec emax false (Z.pos m) e = S754_finite false m e.
Proof.
  intros H. apply bounded_good in H as (Hg & Hlt & He).
  unfold mkfloat. destruct (Z.eqb_spec (Z.pos m) 0); [lia|].
  destruct (Z.eqb_spec (Z.pos m) (2 ^ prec)); [lia|].
  destruct (Z.leb_spec e (emax - prec)); [|lia]. reflexivity.
Qed.

Lemma mkfloat_mono R1 E1 R2 E2 : good prec emax R1 E1 -> good prec emax R2 E2 ->
  lex_le R1 E1 R2 E2 ->
  SFleb (mkfloat prec emax false R1 E1) (mkfloat prec emax false R2 E2) = true.
Proof.
  intros (HE1 & HR1 & Hs1) (HE2 & HR2 & Hs2) Hlex.
  pose proof (pow2_pos (prec - 1) ltac:(lia)) as Hp1.
  assert (Hpp : 2 ^ prec = 2 * 2 ^ (prec - 1)).
  { replace prec with (1 + (prec - 1)) at 1 by lia. rewrite Z.pow_add_r by lia. reflexivity. }
  unfold mkfloat, SFleb, SFcompare.
  destruct (Z.eqb_spec R1 0) as [->|HR10].
  { repeat match goal with |- context [if ?c then _ else _] => destruct c end; reflexivity. }
  destruct (Z.eqb_spec R2 0) as [->|HR20].
  { exfalso. destruct Hlex as [|[]]; lia. }
  assert (Hcmp : forall m1 m2 : positive, (Z.pos m1 <= Z.pos m2) ->
            match Pos.compare_cont Eq m1 m2 with Lt | Eq => true | Gt => false end = true).
  { intros m1 m2 Hm. change (Pos.compare_cont Eq m1 m2) with (Z.pos m1 ?= Z.pos m2).
    destruct (Z.compare_spec (Z.pos m1) (Z.pos m2)); try reflexivity; lia. }
  destruct (Z.eqb_spec R1 (2 ^ prec)) as [->|HR1p];
  destruct (Z.eqb_spec R2 (2 ^ prec)) as [->|HR2p];
  repeat match goal with |- context [?a <=? ?b] => destruct (Z.leb_spec a b) end;
  try reflexivity; try (exfalso; destruct Hlex as [|[]]; lia);
  match goal with |- context [?a ?= ?b] => destruct (Z.compare_spec a b) end;
  try reflexivity; try (exfalso; destruct Hlex as [|[]]; lia);
  apply Hcmp; rewrite ?Z2Pos.id by lia; destruct Hlex as [|[]]; lia.
Qed.

Lemma SF2R_mkfloat R E : good prec emax R E -> is_finite (mkfloat prec emax false R E) = true ->
  SF2R (mkfloat prec emax false R E) = (IZR R * bpow E)%R.
Proof.
  intros (HE & HR & Hs). unfold mkfloat.
  pose proof (pow2_pos (prec - 1) ltac:(lia)) as Hp1.
  destruct (Z.eqb_spec R 0) as [->|HR0]; [intros _; simpl; lra|].
  destruct (Z.eqb_spec R (2 ^ prec)) as [->|HRp].
  - destruct (E + 1 <=? emax - prec); [intros _|discriminate].
    cbn [SF2R cond_Zopp]. rewrite Z2Pos.id by lia.
    rewrite bpow_add. change (bpow 1) with (powerRZ 2 1). simpl powerRZ.
    replace prec with (1 + (prec - 1)) at 2 by lia. rewrite Z.pow_add_r by lia.
    rewrite mult_IZR. change (2 ^ 1) with 2. lra.
  - destruct (E <=? emax - prec); [intros _|discriminate].
    cbn [SF2R cond_Zopp]. rewrite Z2Pos.id by lia. reflexivity.
Qed.

Lemma nonneg_mkfloat R E : nonneg (mkfloat prec emax false R E) = true.
Proof.
  unfold mkfloat.
  repeat match goal with |- context [if ?c then _ else _] => destruct c end; reflexivity.
Qed.

(** *** The rational [a / b * 2 ^ ex] and its rounding *)

Lemma pre_den_pos a b ex : pre prec emax a b ex -> 0 < rden a b ex.
Proof.
  intros (Ha & Hb & Hn). pose proof (pow2_pos (rexp a b ex - ex) ltac:(lia)). nia.
Qed.

Lemma pre_value a b ex : pre prec emax a b ex ->
  (IZR a / IZR b * bpow ex)%R = (IZR a / IZR (rden a b ex) * bpow (rexp a b ex))%R.
Proof.
  intros (Ha & Hb & Hn).
  rewrite (frac_rescale a b ex (rexp a b ex - ex)) by lia.
  f_equal. f_equal. lia.
Qed.

Lemma pre_nonneg a b ex : pre prec emax a b ex -> (0 <= IZR a / IZR b * bpow ex)%R.
Proof.
  intros (Ha & Hb & Hn). pose proof (bpow_pos ex).
  pose proof (div_IZR_ge a b 0 Hb ltac:(lia)). nra.
Qed.

Lemma pre_lt_mag a b ex : pre prec emax a b ex ->
  (IZR a / IZR b * bpow ex < bpow (Zdigits2 (a / b) + ex))%R.
Proof.
  intros (Ha & Hb & Hn).
  pose proof (Z.div_mod a b ltac:(lia)) as Hdm.
  pose proof (Z.mod_pos_bound a b Hb) as Hr.
  pose proof (Z.div_pos a b Ha Hb) as Hq.
  pose proof (Zdigits2_nonneg (a / b)) as Hd0.
  assert (Hmx : a / b + 1 <= 2 ^ Zdigits2 (a / b)).
  { destruct (Z.eq_dec (a / b) 0) as [H0|H0].
    - rewrite H0. simpl. lia.
    - pose proof (Zdigits2_spec (a / b) ltac:(lia)). lia. }
  rewrite Z.add_comm, bpow_add, (bpow_IZR (Zdigits2 (a / b))) by lia.
  rewrite (Rmult_comm (bpow ex)).
  apply Rmult_lt_compat_r; [apply bpow_pos|].
  apply div_IZR_lt; [assumption|nia].
Qed.

Lemma pre_ge_mag a b ex : pre prec emax a b ex -> 0 < a / b ->
  (bpow (Zdigits2 (a / b) + ex - 1) <= IZR a / IZR b * bpow ex)%R.
Proof.
  intros (Ha & Hb & Hn) Hmx.
  pose proof (Z.div_mod a b ltac:(lia)) as Hdm.
  pose proof (Z.mod_pos_bound a b Hb) as Hr.
  pose proof (Zdigits2_spec (a / b) Hmx) as [Hlo _].
  pose proof (Zdigits2_pos (a / b) Hmx) as Hd0.
  replace (Zdigits2 (a / b) + ex - 1) with (ex + (Zdigits2 (a / b) - 1)) by lia.
  rewrite bpow_add, (bpow_IZR (Zdigits2 (a / b) - 1)) by lia.
  rewrite (Rmult_comm (bpow ex)).
  apply Rmult_le_compat_r; [pose proof (bpow_pos ex); lra|].
  apply div_IZR_ge; [assumption|nia].
Qed.

Lemma pre_small a b ex : pre prec emax a b ex -> a / b = 0 -> rexp a b ex = emin.
Proof.
  intros (Ha & Hb & Hn) H0. rewrite H0 in *. simpl in *. unfold SpecFloat.fexp in *. lia.
Qed.

Lemma pre_quot_pos a b ex : pre prec emax a b ex -> a / b <> 0 -> 0 < a / b.
Proof. intros (Ha & Hb & _) H. pose proof (Z.div_pos a b Ha Hb). lia. Qed.

Lemma pre_err a b ex : pre prec emax a b ex ->
  (Rabs (IZR (rne a (rden a b ex)) * bpow (rexp a b ex) - IZR a / IZR b * bpow ex)
   <= bpow (rexp a b ex) / 2)%R.
Proof.
  intros Hpre. rewrite (pre_value a b ex Hpre). pose proof (pre_den_pos a b ex Hpre) as HB.
  set (B := rden a b ex) in *. set (E := rexp a b ex).
  pose proof (rne_err a B HB) as Herr.
  assert (HBR : (0 < IZR B)%R) by (apply IZR_lt; lia).
  pose proof (bpow_pos E) as HpE.
  replace (IZR (rne a B) * bpow E - IZR a / IZR B * bpow E)%R
    with ((IZR (rne a B * B - a) / IZR B) * bpow E)%R.
  2:{ rewrite minus_IZR, mult_IZR. field. lra. }
  rewrite Rabs_mult, (Rabs_pos_eq (bpow E)) by lra.
  unfold Rdiv at 2. rewrite (Rmult_comm (bpow E)).
  apply Rmult_le_compat_r; [lra|].
  unfold Rdiv. rewrite Rabs_mult, (Rabs_pos_eq (/ IZR B)).
  2:{ apply Rlt_le, Rinv_0_lt_compat; assumption. }
  rewrite <- abs_IZR.
  apply Rmult_le_reg_r with (IZR B); [assumption|].
  rewrite Rmult_assoc, Rinv_l by lra.
  apply IZR_le in Herr. rewrite mult_IZR in Herr. lra.
Qed.

Lemma pre_ulp a b ex : pre prec emax a b ex ->
  (bpow (rexp a b ex) / 2 <= IZR a / IZR b * bpow ex * bpow (- prec) + bpow emin / 2)%R.
Proof.
  intros Hpre.
  pose proof (pre_nonneg a b ex Hpre) as Hv.
  pose proof (bpow_pos (- prec)). pose proof (bpow_pos emin).
  destruct (Z.eq_dec (rexp a b ex) emin) as [->|Hne]; [nra|].
  assert (Hmx : 0 < a / b).
  { apply (pre_quot_pos a b ex Hpre). intros Hz. apply Hne, pre_small; assumption. }
  pose proof (pre_ge_mag a b ex Hpre Hmx) as Hge.
  assert (HE : rexp a b ex = Zdigits2 (a / b) + ex - 1 + - prec + 1)
    by (unfold SpecFloat.fexp in *; lia).
  rewrite HE at 1. rewrite !bpow_add. change (bpow 1) with (powerRZ 2 1). simpl powerRZ.
  pose proof (bpow_pos (Zdigits2 (a / b) + ex - 1)). nra.
Qed.

(** *** The relation [RN] *)

Lemma RN_valid v r : RN prec emax v r -> valid_binary prec emax r = true.
Proof. intros (a & b & ex & Hp & _ & ->). apply valid_mkfloat, rne_good, Hp. Qed.

Lemma RN_nonneg v r : RN prec emax v r -> nonneg r = true.
Proof. intros (a & b & ex & Hp & _ & ->). apply nonneg_mkfloat. Qed.

Lemma RN_arg_nonneg v r : RN prec emax v r -> (0 <= v)%R.
Proof. intros (a & b & ex & Hp & -> & _). apply pre_nonneg; assumption. Qed.

(** Rounding is monotone. *)
Lemma RN_mono v1 r1 v2 r2 :
  RN prec emax v1 r1 -> RN prec emax v2 r2 -> (v1 <= v2)%R -> SFleb r1 r2 = true.
Proof.
  intros (a1 & b1 & ex1 & Hp1 & Hv1 & ->) (a2 & b2 & ex2 & Hp2 & Hv2 & ->) Hle.
  unfold round_pos. apply mkfloat_mono; [apply rne_good; assumption..|].
  assert (HE : rexp a1 b1 ex1 <= rexp a2 b2 ex2).
  { destruct (Z.eq_dec (a1 / b1) 0) as [Hz|Hnz].
    - rewrite (pre_small _ _ _ Hp1 Hz). apply fexp_ge_emin.
    - apply fexp_mono.
      pose proof (pre_ge_mag _ _ _ Hp1 (pre_quot_pos _ _ _ Hp1 Hnz)) as Hlo.
      rewrite <- Hv1 in Hlo.
      pose proof (pre_lt_mag _ _ _ Hp2) as Hhi. rewrite <- Hv2 in Hhi.
      assert (Zdigits2 (a1 / b1) + ex1 - 1 < Zdigits2 (a2 / b2) + ex2); [|lia].
      apply bpow_lt_inv. lra. }
  destruct (Z.eq_dec (rexp a1 b1 ex1) (rexp a2 b2 ex2)) as [Heq|Hne]; [right|left; lia].
  split; [assumption|].
  pose proof (pre_den_pos _ _ _ Hp1) as HB1. pose proof (pre_den_pos _ _ _ Hp2) as HB2.
  pose proof (pre_value _ _ _ Hp1) as Hq1. pose proof (pre_value _ _ _ Hp2) as Hq2.
  rewrite <- Hv1 in Hq1. rewrite <- Hv2 in Hq2.
  set (B1 := rden a1 b1 ex1) in *. set (B2 := rden a2 b2 ex2) in *. clearbody B1 B2.
  rewrite <- Heq in Hq2.
  apply rne_mono_frac; [assumption..|].
  apply div_IZR_le_inv; [assumption..|].
  pose proof (bpow_pos (rexp a1 b1 ex1)) as HpE.
  apply Rmult_le_reg_r with (bpow (rexp a1 b1 ex1)); [assumption|]. lra.
Qed.

(** The error of rounding is at most half a unit in the last place. *)
Lemma RN_err v r : RN prec emax v r -> is_finite r = true ->
  (Rabs (SF2R r - v) <= v * bpow (- prec) + bpow emin / 2)%R.
Proof.
  intros (a & b & ex & Hp & -> & ->) Hfin. unfold round_pos in *.
  rewrite SF2R_mkfloat by (assumption || apply rne_good; assumption).
  pose proof (pre_err _ _ _ Hp). pose proof (pre_ulp _ _ _ Hp). lra.
Qed.

(** A representable value rounds to itself. *)
Lemma RN_exact_value v r m e : RN prec emax v r ->
  v = (IZR m * bpow e)%R -> 0 <= m < 2 ^ prec -> emin <= e <= emax - prec ->
  is_finite r = true /\ SF2R r = v.
Proof.
  intros (a & b & ex & Hp & Hv & ->) Hvm Hm He. unfold round_pos.
  pose proof (pre_den_pos _ _ _ Hp) as HB.
  pose proof (pre_value _ _ _ Hp) as Hq. rewrite <- Hv in Hq.
  pose proof (rne_good _ _ _ Hp) as Hg.
  set (B := rden a b ex) in *. set (E := rexp a b ex) in *.
  assert (HEe : E <= e).
  { destruct (Z.eq_dec (a / b) 0) as [Hz|Hnz].
    - unfold E. rewrite (pre_small _ _ _ Hp Hz). lia.
    - pose proof (pre_ge_mag _ _ _ Hp (pre_quot_pos _ _ _ Hp Hnz)) as Hlo. rewrite <- Hv in Hlo.
      assert (Zdigits2 (a / b) + ex - 1 < prec + e); [|unfold E, SpecFloat.fexp; lia].
      apply bpow_lt_inv. eapply Rle_lt_trans; [exact Hlo|].
      rewrite Hvm, bpow_add, (bpow_IZR prec) by lia.
      apply Rmult_lt_compat_r; [apply bpow_pos|]. apply IZR_lt; lia. }
  assert (Ha : a = m * 2 ^ (e - E) * B).
  { apply eq_IZR. rewrite !mult_IZR, <- bpow_IZR by lia.
    assert (HBR : (0 < IZR B)%R) by (apply IZR_lt; lia).
    pose proof (bpow_pos E) as HpE.
    assert (Hfrac : (IZR a / IZR B = IZR m * bpow (e - E))%R).
    { apply Rmult_eq_reg_r with (bpow E); [|lra].
      rewrite <- Hq, Hvm, Rmult_assoc, <- bpow_add. f_equal. f_equal. lia. }
    rewrite <- Hfrac. field. lra. }
  assert (HR : rne a B = m * 2 ^ (e - E)) by (rewrite Ha; apply rne_exact; assumption).
  rewrite HR in *.
  assert (Hval : (IZR (m * 2 ^ (e - E)) * bpow E = v)%R).
  { rewrite mult_IZR, <- bpow_IZR, Rmult_assoc, <- bpow_add, Hvm by lia. f_equal. f_equal. lia. }
  assert (Hfin : is_finite (mkfloat prec emax false (m * 2 ^ (e - E)) E) = true).
  { unfold mkfloat.
    destruct (Z.eqb_spec (m * 2 ^ (e - E)) 0); [reflexivity|].
    destruct (Z.eqb_spec (m * 2 ^ (e - E)) (2 ^ prec)) as [Hc|Hc].
    - assert (E < e).
      { destruct (Z.eq_dec E e) as [Heq|]; [|lia]. rewrite Heq, Z.sub_diag in Hc.
        simpl in Hc. lia. }
      destruct (Z.leb_spec (E + 1) (emax - prec)); [reflexivity|lia].
    - destruct (Z.leb_spec E (emax - prec)); [reflexivity|lia]. }
  split; [assumption|]. rewrite SF2R_mkfloat by assumption. exact Hval.
Qed.

Lemma RN_float m e : bounded prec emax m e = true ->
  RN prec emax (IZR (Z.pos m) * bpow e) (S754_finite false m e).
Proof.
  intros Hv.
  pose proof (mkfloat_finite _ _ Hv) as Hmk.
  exists (Z.pos m), 1, e.
  assert (HE : rexp (Z.pos m) 1 e = e).
  { rewrite Z.div_1_r. unfold bounded, canonical_mantissa in Hv.
    apply andb_prop in Hv as [Hv _]. apply Z.eqb_eq in Hv. exact Hv. }
  split; [|split].
  - split; [lia|]. split; [lia|]. rewrite HE. lia.
  - rewrite Rdiv_1_r. reflexivity.
  - unfold round_pos. rewrite HE, Z.sub_diag. change (2 ^ 0) with 1.
    change (1 * 1) with 1. rewrite rne_1. symmetry. exact Hmk.
Qed.

Lemma RN_zero : RN prec emax 0 (S754_zero false).
Proof.
  exists 0, 1, emin.
  assert (HE : rexp 0 1 emin = emin).
  { change (0 / 1) with 0. cbn [Zdigits2]. unfold SpecFloat.fexp. lia. }
  split; [|split].
  - split; [lia|]. split; [lia|]. rewrite HE. lia.
  - simpl. lra.
  - unfold round_pos. rewrite HE, Z.sub_diag. change (2 ^ 0) with 1.
    change (1 * 1) with 1. rewrite rne_1. reflexivity.
Qed.

(** *** Comparison of non-negative floats *)

Lemma posfin_intro r : valid_binary prec emax r = true -> nonneg r = true ->
  is_finite r = true -> r <> S754_zero true -> posfin prec emax r.
Proof. destruct r as [[]|?| |[] ? ?]; simpl; try discriminate; auto; congruence. Qed.

Lemma posfin_finite r : posfin prec emax r -> is_finite r = true.
Proof. destruct r as [[]|?| |[] ? ?]; simpl; try contradiction; auto. Qed.

Lemma posfin_nonneg r : posfin prec emax r -> (0 <= SF2R r)%R.
Proof.
  destruct r as [[]|?| |[] m e]; simpl; try contradiction; try lra.
  intros _. pose proof (bpow_pos e). assert (0 < IZR (Z.pos m))%R by (apply IZR_lt; lia). nra.
Qed.

Lemma finite_value_lt m1 e1 m2 e2 :
  bounded prec emax m1 e1 = true -> bounded prec emax m2 e2 = true ->
  e1 < e2 \/ (e1 = e2 /\ Z.pos m1 < Z.pos m2) ->
  (IZR (Z.pos m1) * bpow e1 < IZR (Z.pos m2) * bpow e2)%R.
Proof.
  intros H1 H2 Hlex.
  apply bounded_good in H1 as ((HE1 & HR1 & Hs1) & Hlt1 & _).
  apply bounded_good in H2 as ((HE2 & HR2 & Hs2) & Hlt2 & _).
  destruct Hlex as [Hlt|[-> Hlt]].
  - assert (2 ^ (prec - 1) <= Z.pos m2) by lia.
    pose proof (bpow_pos e1). pose proof (bpow_pos e2).
    apply Rlt_le_trans with (bpow (prec + e1)).
    + rewrite bpow_add, (bpow_IZR prec) by lia.
      apply Rmult_lt_compat_r; [lra|]. apply IZR_lt; lia.
    + apply Rle_trans with (bpow (prec - 1 + e2)); [apply bpow_le; lia|].
      rewrite bpow_add, (bpow_IZR (prec - 1)) by lia.
      apply Rmult_le_compat_r; [lra|]. apply IZR_le; lia.
  - apply Rmult_lt_compat_r; [apply bpow_pos|]. apply IZR_lt; lia.
Qed.

Lemma SFcompare_posfin f1 f2 : posfin prec emax f1 -> posfin prec emax f2 ->
  match SFcompare f1 f2 with
  | Some Lt => (SF2R f1 < SF2R f2)%R
  | Some Eq => SF2R f1 = SF2R f2
  | Some Gt => (SF2R f2 < SF2R f1)%R
  | None => False
  end.
Proof.
  destruct f1 as [[]|?| |[] m1 e1], f2 as [[]|?| |[] m2 e2]; simpl; try contradiction;
    intros H1 H2.
  - reflexivity.
  - pose proof (bpow_pos e2). assert (0 < IZR (Z.pos m2))%R by (apply IZR_lt; lia). nra.
  - pose proof (bpow_pos e1). assert (0 < IZR (Z.pos m1))%R by (apply IZR_lt; lia). nra.
  - destruct (Z.compare_spec e1 e2) as [->|Hlt|Hgt].
    + change (Pos.compare_cont Eq m1 m2) with (Z.pos m1 ?= Z.pos m2).
      destruct (Z.compare_spec (Z.pos m1) (Z.pos m2)) as [Heq|Hlt|Hgt].
      * rewrite Heq. reflexivity.
      * apply finite_value_lt; auto.
      * apply finite_value_lt; auto.
    + apply finite_value_lt; auto.
    + apply finite_value_lt; auto.
Qed.

Lemma SFltb_R f1 f2 : posfin prec emax f1 -> posfin prec emax f2 ->
  (SFltb f1 f2 = true <-> (SF2R f1 < SF2R f2)%R).
Proof.
  intros H1 H2. pose proof (SFcompare_posfin f1 f2 H1 H2) as H. unfold SFltb.
  destruct (SFcompare f1 f2) as [[]|]; try contradiction; split;
    try discriminate; try reflexivity; lra.
Qed.

Lemma SFleb_R f1 f2 : posfin prec emax f1 -> posfin prec emax f2 ->
  (SFleb f1 f2 = true <-> (SF2R f1 <= SF2R f2)%R).
Proof.
  intros H1 H2. pose proof (SFcompare_posfin f1 f2 H1 H2) as H. unfold SFleb.
  destruct (SFcompare f1 f2) as [[]|]; try contradiction; split;
    try discriminate; try reflexivity; lra.
Qed.

Lemma SFltb_lt f1 f2 : posfin prec emax f1 -> posfin prec emax f2 ->
  SFltb f1 f2 = true -> (SF2R f1 < SF2R f2)%R.
Proof. intros H1 H2. apply SFltb_R; assumption. Qed.

Lemma lt_SFltb f1 f2 : posfin prec emax f1 -> posfin prec emax f2 ->
  (SF2R f1 < SF2R f2)%R -> SFltb f1 f2 = true.
Proof. intros H1 H2. apply SFltb_R; assumption. Qed.

Lemma SFleb_le f1 f2 : posfin prec emax f1 -> posfin prec emax f2 ->
  SFleb f1 f2 = true -> (SF2R f1 <= SF2R f2)%R.
Proof. intros H1 H2. apply SFleb_R; assumption. Qed.

Lemma le_SFleb f1 f2 : posfin prec emax f1 -> posfin prec emax f2 ->
  (SF2R f1 <= SF2R f2)%R -> SFleb f1 f2 = true.
Proof. intros H1 H2. apply SFleb_R; assumption. Qed.

Lemma SFleb_finite r c : nonneg r = true -> is_finite c = true ->
  SFleb r c = true -> is_finite r = true.
Proof.
  destruct r as [?|[]| |[] ? ?], c as [?|?| |? ? ?]; simpl; try discriminate; auto.
Qed.

Lemma RN_posfin v r : RN prec emax v r -> is_finite r = true -> posfin prec emax r.
Proof.
  intros H Hf. apply posfin_intro; [eapply RN_valid| eapply RN_nonneg| |]; eauto.
  destruct H as (a & b & ex & _ & _ & ->). unfold round_pos, mkfloat.
  repeat match goal with |- context [if ?c then _ else _] => destruct c end; discriminate.
Qed.

Lemma posfin_RN c : posfin prec emax c -> RN prec emax (SF2R c) c.
Proof.
  destruct c as [[]|?| |[] m e]; simpl; try contradiction.
  - intros _. apply RN_zero.
  - intros H. apply RN_float; assumption.
Qed.

(** Rounding never crosses a representable number. *)
Lemma RN_le_float v r c : RN prec emax v r -> posfin prec emax c -> (v <= SF2R c)%R ->
  posfin prec emax r /\ (SF2R r <= SF2R c)%R.
Proof.
  intros Hr Hc Hle.
  assert (Hcmp : SFleb r c = true) by (eapply RN_mono; eauto using posfin_RN).
  assert (Hfin : is_finite r = true).
  { eapply SFleb_finite; [eapply RN_nonneg; eauto|apply posfin_finite; exact Hc|exact Hcmp]. }
  pose proof (RN_posfin _ _ Hr Hfin) as Hpr. split; [assumption|].
  apply SFleb_R; assumption.
Qed.

Lemma RN_ge_float v r c : RN prec emax v r -> posfin prec emax c -> (SF2R c <= v)%R ->
  is_finite r = true -> (SF2R c <= SF2R r)%R.
Proof.
  intros Hr Hc Hle Hfin.
  assert (Hcmp : SFleb c r = true) by (eapply RN_mono; eauto using posfin_RN).
  apply SFleb_R; [assumption|eapply RN_posfin; eauto|assumption].
Qed.

(** *** The operations round their exact result *)

Lemma binary_round_aux_RN a ex : 0 <= a -> ex <= fexp (Zdigits2 a + ex) ->
  RN prec emax (IZR a * bpow ex) (binary_round_aux prec emax false a ex loc_Exact).
Proof.
  intros Ha Hn.
  assert (Hpre : pre prec emax a 1 ex).
  { unfold pre. rewrite Z.div_1_r. split; [assumption|]. split; [lia|assumption]. }
  exists a, 1, ex. split; [exact Hpre|]. split; [rewrite Rdiv_1_r; reflexivity|].
  unfold round_pos. rewrite <- binary_round_aux_locate by assumption.
  rewrite Z.div_1_r, locate_1_exact. reflexivity.
Qed.

Lemma binary_round_RN m e :
  RN prec emax (IZR (Z.pos m) * bpow e) (binary_round prec emax false m e).
Proof.
  unfold binary_round.
  pose proof (shl_align_spec m e (fexp (Z.pos (digits2_pos m) + e))) as [Hs Hf].
  destruct (shl_align m e (fexp (Z.pos (digits2_pos m) + e))) as [mz ez]; cbn [fst snd] in *.
  assert (Hd : Zdigits2 (Z.pos mz) + ez = Z.pos (digits2_pos m) + e).
  { rewrite Hf, Zdigits2_mul_pow2 by lia. simpl. lia. }
  replace (IZR (Z.pos m) * bpow e)%R with (IZR (Z.pos mz) * bpow ez)%R.
  - apply binary_round_aux_RN; [lia|]. rewrite Hd. lia.
  - rewrite Hf, mult_IZR, <- bpow_IZR, Rmult_assoc, <- bpow_add by lia. f_equal. f_equal. lia.
Qed.

Lemma binary_normalize_RN z : 0 <= z ->
  RN prec emax (IZR z) (binary_normalize prec emax z 0 false).
Proof.
  intros Hz. destruct z as [|p|p]; try lia; cbn [binary_normalize].
  - apply RN_zero.
  - replace (IZR (Z.pos p)) with (IZR (Z.pos p) * bpow 0)%R by (unfold bpow; simpl; lra).
    apply binary_round_RN.
Qed.

Lemma SFmul_RN mx ex my ey :
  bounded prec emax mx ex = true -> bounded prec emax my ey = true ->
  RN prec emax (SF2R (S754_finite false mx ex) * SF2R (S754_finite false my ey))
     (SFmul prec emax (S754_finite false mx ex) (S754_finite false my ey)).
Proof.
  intros Hx Hy. cbn [SFmul xorb SF2R cond_Zopp].
  replace (IZR (Z.pos mx) * bpow ex * (IZR (Z.pos my) * bpow ey))%R
    with (IZR (Z.pos (mx * my)) * bpow (ex + ey))%R.
  2:{ rewrite Pos2Z.inj_mul, mult_IZR, bpow_add. ring. }
  apply binary_round_aux_RN; [lia|].
  pose proof (Zdigits2_mul_ge (Z.pos mx) (Z.pos my) ltac:(lia) ltac:(lia)) as Hd.
  rewrite <- Pos2Z.inj_mul in Hd.
  unfold bounded, canonical_mantissa in Hx, Hy.
  apply andb_prop in Hx as [Hx _]. apply Z.eqb_eq in Hx.
  apply andb_prop in Hy as [Hy _]. apply Z.eqb_eq in Hy.
  change (Z.pos (digits2_pos mx)) with (Zdigits2 (Z.pos mx)) in Hx.
  change (Z.pos (digits2_pos my)) with (Zdigits2 (Z.pos my)) in Hy.
  pose proof (Zdigits2_pos (Z.pos mx) ltac:(lia)). pose proof (Zdigits2_pos (Z.pos my) ltac:(lia)).
  unfold SpecFloat.fexp, SpecFloat.emin in *. lia.
Qed.

Lemma SFadd_RN mx ex my ey :
  RN prec emax (SF2R (S754_finite false mx ex) + SF2R (S754_finite false my ey))
     (SFadd prec emax (S754_finite false mx ex) (S754_finite false my ey)).
Proof.
  cbn [SFadd SF2R cond_Zopp].
  pose proof (shl_align_spec mx ex (Z.min ex ey)) as [_ Hfx].
  pose proof (shl_align_spec my ey (Z.min ex ey)) as [_ Hfy].
  replace (Z.min ex (Z.min ex ey)) with (Z.min ex ey) in Hfx by lia.
  replace (Z.min ey (Z.min ex ey)) with (Z.min ex ey) in Hfy by lia.
  set (px := fst (shl_align mx ex (Z.min ex ey))) in *.
  set (py := fst (shl_align my ey (Z.min ex ey))) in *.
  change (Z.pos px + Z.pos py) with (Z.pos (px + py)). cbn [binary_normalize].
  replace (IZR (Z.pos mx) * bpow ex + IZR (Z.pos my) * bpow ey)%R
    with (IZR (Z.pos (px + py)) * bpow (Z.min ex ey))%R; [apply binary_round_RN|].
  rewrite Pos2Z.inj_add, plus_IZR, Hfx, Hfy, !mult_IZR, <- !bpow_IZR by lia.
  rewrite Rmult_plus_distr_r, !Rmult_assoc, <- !bpow_add.
  f_equal; f_equal; f_equal; lia.
Qed.

Lemma SFdiv_RN mx ex my ey :
  RN prec emax (SF2R (S754_finite false mx ex) / SF2R (S754_finite false my ey))
     (SFdiv prec emax (S754_finite false mx ex) (S754_finite false my ey)).
Proof.
  cbn [SFdiv SF2R cond_Zopp xorb]. unfold SFdiv_core_binary.
  set (d1 := Zdigits2 (Z.pos mx)). set (d2 := Zdigits2 (Z.pos my)).
  set (e' := Z.min (fexp (d1 + ex - (d2 + ey))) (ex - ey)).
  set (s := ex - ey - e').
  assert (Hs : 0 <= s) by (unfold s, e'; lia).
  set (m' := match s with Z.pos _ => Z.shiftl (Z.pos mx) s | 0 => Z.pos mx | Z.neg _ => 0 end).
  assert (Hm' : m' = Z.pos mx * 2 ^ s).
  { unfold m'. apply shiftl_case. exact Hs. }
  pose proof (pow2_pos s Hs) as Hps.
  assert (Hde : Z.div_eucl m' (Z.pos my) = (m' / Z.pos my, m' mod Z.pos my)).
  { unfold Z.div, Z.modulo. destruct (Z.div_eucl m' (Z.pos my)); reflexivity. }
  rewrite Hde. cbv zeta. cbn iota.
  rewrite new_location_locate by lia.
  assert (Hpre : pre prec emax m' (Z.pos my) e').
  { split; [lia|]. split; [lia|].
    apply Z.le_trans with (fexp (d1 + ex - (d2 + ey))); [unfold e'; lia|].
    apply fexp_mono.
    assert (d1 + s - d2 <= Zdigits2 (m' / Z.pos my)); [|unfold s; lia].
    pose proof (Zdigits2_nonneg (m' / Z.pos my)).
    destruct (Z_le_gt_dec (d1 + s - d2) 0) as [|Hk]; [lia|].
    pose proof (Zdigits2_spec (Z.pos mx) ltac:(lia)) as [Hlo1 _].
    pose proof (Zdigits2_spec (Z.pos my) ltac:(lia)) as [_ Hhi2].
    pose proof (Zdigits2_pos (Z.pos mx) ltac:(lia)). pose proof (Zdigits2_pos (Z.pos my) ltac:(lia)).
    fold d1 in Hlo1. fold d2 in Hhi2.
    assert (Hq : 2 ^ (d1 + s - d2 - 1) <= m' / Z.pos my).
    { apply Z.div_le_lower_bound; [lia|].
      apply Z.le_trans with (2 ^ d2 * 2 ^ (d1 + s - d2 - 1)).
      - apply Z.mul_le_mono_nonneg_r; [apply Z.pow_nonneg|]; lia.
      - rewrite <- Z.pow_add_r by lia. replace (d2 + (d1 + s - d2 - 1)) with (d1 - 1 + s) by lia.
        rewrite Z.pow_add_r, Hm' by lia. nia. }
    pose proof (pow2_pos (d1 + s - d2 - 1) ltac:(lia)).
    pose proof (Zdigits2_spec (m' / Z.pos my) ltac:(lia)) as [_ Hh].
    assert (d1 + s - d2 - 1 < Zdigits2 (m' / Z.pos my)); [|lia].
    apply pow2_lt_inv; lia. }
  exists m', (Z.pos my), e'. split; [assumption|]. split.
  - rewrite Hm', mult_IZR, <- bpow_IZR by lia.
    replace ex with (s + e' + ey) at 1 by (unfold s; lia). rewrite !bpow_add.
    pose proof (bpow_pos ey). assert (0 < IZR (Z.pos my))%R by (apply IZR_lt; lia).
    field. split; lra.
  - apply binary_round_aux_locate; assumption.
Qed.

(** The same, for operands that may be [+0]. *)
Lemma SFmul_posfin f1 f2 : posfin prec emax f1 -> posfin prec emax f2 ->
  RN prec emax (SF2R f1 * SF2R f2) (SFmul prec emax f1 f2).
Proof.
  destruct f1 as [[]|?| |[] m1 e1], f2 as [[]|?| |[] m2 e2]; try contradiction; intros H1 H2.
  - cbn [SFmul xorb SF2R]. rewrite Rmult_0_l. apply RN_zero.
  - cbn [SFmul xorb]. change (SF2R (S754_zero false)) with 0%R. rewrite Rmult_0_l. apply RN_zero.
  - cbn [SFmul xorb]. change (SF2R (S754_zero false)) with 0%R. rewrite Rmult_0_r. apply RN_zero.
  - apply SFmul_RN; assumption.
Qed.

Lemma SFadd_posfin f1 f2 : posfin prec emax f1 -> posfin prec emax f2 ->
  RN prec emax (SF2R f1 + SF2R f2) (SFadd prec emax f1 f2).
Proof.
  destruct f1 as [[]|?| |[] m1 e1], f2 as [[]|?| |[] m2 e2]; try contradiction; intros H1 H2.
  - cbn [SFadd SF2R]. rewrite Rplus_0_l. apply RN_zero.
  - cbn [SFadd]. change (SF2R (S754_zero false)) with 0%R. rewrite Rplus_0_l.
    apply RN_float; assumption.
  - cbn [SFadd]. change (SF2R (S754_zero false)) with 0%R. rewrite Rplus_0_r.
    apply RN_float; assumption.
  - apply SFadd_RN.
Qed.

Lemma SFdiv_posfin f1 m2 e2 : posfin prec emax f1 ->
  RN prec emax (SF2R f1 / SF2R (S754_finite false m2 e2))
     (SFdiv prec emax f1 (S754_finite false m2 e2)).
Proof.
  destruct f1 as [[]|?| |[] m1 e1]; try contradiction; intros H1.
  - cbn [SFdiv xorb]. change (SF2R (S754_zero false)) with 0%R.
    unfold Rdiv. rewrite Rmult_0_l. apply RN_zero.
  - apply SFdiv_RN.
Qed.

End Format.

(** ** The two formats of the program *)

Local Abbreviation posfin32 := (posfin F32.prec F32.emax).
Local Abbreviation posfin64 := (posfin F64.prec F64.emax).
Local Abbreviation RN32 := (RN F32.prec F32.emax).
Local Abbreviation RN64 := (RN F64.prec F64.emax).

Lemma F32_prec_pos : 0 < F32.prec.
Proof. reflexivity. Qed.

Lemma F32_prec_emax : F32.prec < F32.emax.
Proof. reflexivity. Qed.

Lemma F64_prec_pos : 0 < F64.prec.
Proof. reflexivity. Qed.

Lemma F64_prec_emax : F64.prec < F64.emax.
Proof. reflexivity. Qed.

Create HintDb fmt.

#[local] Hint Resolve F32_prec_pos F32_prec_emax F64_prec_pos F64_prec_emax : fmt.

Ltac fmt := auto with fmt.

Lemma Rabs_le_upper u v d : (Rabs (u - v) <= d)%R -> (u <= v + d)%R.
Proof. unfold Rabs. destruct (Rcase_abs (u - v)); lra. Qed.

Lemma posfin_pos_finite prec emax f : posfin prec emax f -> (0 < SF2R f)%R ->
  exists m e, f = S754_finite false m e /\ bounded prec emax m e = true.
Proof.
  destruct f as [[]|?| |[] m e]; simpl; try contradiction; try lra.
  intros H _. exists m, e. auto.
Qed.

Lemma SFadd_zero_l prec emax f : posfin prec emax f -> SFadd prec emax (S754_zero false) f = f.
Proof. destruct f as [[]|?| |[] m e]; simpl; try contradiction; reflexivity. Qed.

Lemma SFleb_zero_posfin prec emax f : posfin prec emax f -> SFleb (S754_zero false) f = true.
Proof. destruct f as [[]|?| |[] m e]; simpl; try contradiction; reflexivity. Qed.

(** [float] to [double] is exact. *)
Lemma f64_of_f32_posfin f : posfin32 f ->
  posfin64 (f64_of_f32 f) /\ SF2R (f64_of_f32 f) = SF2R f.
Proof.
  destruct f as [[]|?| |[] m e]; try contradiction; intros H.
  - split; reflexivity.
  - unfold f64_of_f32, convert. cbn [cond_Zopp binary_normalize].
    assert (Hrn : RN64 (IZR (Z.pos m) * bpow e) (binary_round F64.prec F64.emax false m e))
      by (apply binary_round_RN; fmt).
    cbn [posfin] in H. apply bounded_good in H as ((He & _ & _) & Hm & He'); fmt.
    assert (Hex : is_finite (binary_round F64.prec F64.emax false m e) = true /\
                  SF2R (binary_round F64.prec F64.emax false m e) = (IZR (Z.pos m) * bpow e)%R).
    { eapply RN_exact_value with (m := Z.pos m) (e := e);
        try exact Hrn; try reflexivity; fmt.
      - split; [lia|]. apply Z.lt_trans with (2 ^ F32.prec); [assumption|reflexivity].
      - unfold SpecFloat.emin, F32.prec, F32.emax, F64.prec, F64.emax in *; lia. }
    destruct Hex as [Hfin Hval].
    split; [|exact Hval]. eapply RN_posfin; eauto; fmt.
Qed.

(** [double] to [float] rounds. *)
Lemma f32_of_f64_RN f : posfin64 f -> RN32 (SF2R f) (f32_of_f64 f).
Proof.
  destruct f as [[]|?| |[] m e]; try contradiction; intros H.
  - apply RN_zero; fmt.
  - unfold f32_of_f64, convert. cbn [cond_Zopp binary_normalize SF2R].
    apply binary_round_RN; fmt.
Qed.

Lemma F32_of_Z_RN z : 0 <= z -> RN32 (IZR z) (F32.of_Z z).
Proof. intros Hz. apply binary_normalize_RN; fmt. Qed.

Lemma F64_of_Z_RN z : 0 <= z -> RN64 (IZR z) (F64.of_Z z).
Proof. intros Hz. apply binary_normalize_RN; fmt. Qed.

Lemma SFabs_binary_round_aux prec emax sx mx ex lx :
  SFabs (binary_round_aux prec emax sx mx ex lx) = binary_round_aux prec emax false mx ex lx.
Proof.
  unfold binary_round_aux.
  destruct (shr_fexp prec emax mx ex lx) as [mrs' e'].
  destruct (shr_fexp prec emax _ e' loc_Exact) as [mrs'' e''].
  destruct (shr_m mrs''); [reflexivity| |reflexivity].
  destruct (e'' <=? emax - prec); reflexivity.
Qed.

Lemma fabs_of_Z z : fabs (F64.of_Z z) = F64.of_Z (Z.abs z).
Proof.
  destruct z as [|p|p]; [reflexivity|..];
    unfold fabs, F64.of_Z, binary_normalize, Z.abs, binary_round;
    destruct (shl_align p 0 _) as [mz ez]; apply SFabs_binary_round_aux.
Qed.

(** *** Values of constants *)

Lemma bpow_neg_pos p : bpow (Z.neg p) = (/ IZR (Z.pow_pos 2 p))%R.
Proof. change (Z.neg p) with (- Z.pos p). rewrite bpow_neg by lia. reflexivity. Qed.

Lemma bpow_pos_pos p : bpow (Z.pos p) = IZR (Z.pow_pos 2 p).
Proof. rewrite bpow_IZR by lia. reflexivity. Qed.

Lemma bpow_0 : bpow 0 = 1%R.
Proof. reflexivity. Qed.

(** Turns [bpow] of a literal exponent into a rational constant. *)
Ltac bpow_const :=
  repeat match goal with
  | |- context [bpow (Z.neg ?p)] =>
      rewrite (bpow_neg_pos p);
      let v := eval vm_compute in (Z.pow_pos 2 p) in change (Z.pow_pos 2 p) with v
  | |- context [bpow (Z.pos ?p)] =>
      rewrite (bpow_pos_pos p);
      let v := eval vm_compute in (Z.pow_pos 2 p) in change (Z.pow_pos 2 p) with v
  | |- context [bpow 0] => rewrite bpow_0
  | H : context [bpow (Z.neg ?p)] |- _ =>
      rewrite (bpow_neg_pos p) in H;
      let v := eval vm_compute in (Z.pow_pos 2 p) in change (Z.pow_pos 2 p) with v in H
  | H : context [bpow (Z.pos ?p)] |- _ =>
      rewrite (bpow_pos_pos p) in H;
      let v := eval vm_compute in (Z.pow_pos 2 p) in change (Z.pow_pos 2 p) with v in H
  | H : context [bpow 0] |- _ => rewrite bpow_0 in H
  end.

(** Evaluates a closed float expression [f] and records its value. *)
Ltac eval_float f H :=
  let v := eval vm_compute in f in
  assert (H : f = v) by (vm_compute; reflexivity).

Lemma c32768_eq : f64_of_f32 (F32.of_Z 32768) = S754_finite false 4503599627370496 (-37).
Proof. vm_compute. reflexivity. Qed.

Lemma lit_9_10_eq : F32.lit 9 10 = S754_finite false 15099494 (-24).
Proof. vm_compute. reflexivity. Qed.

Lemma lit_1_10_eq : F32.lit 1 10 = S754_finite false 13421773 (-27).
Proof. vm_compute. reflexivity. Qed.

Lemma BEAT_THRESHOLD_eq : BEAT_THRESHOLD = S754_finite false 6305039478318694 (-52).
Proof. vm_compute. reflexivity. Qed.

(** *** The energy of a buffer is a finite non-negative [float] *)

Lemma sample_term_bound s : is_Sint16 s = true ->
  posfin64 (F64.div (fabs (F64.of_Z s)) (f64_of_f32 (F32.of_Z 32768))) /\
  (SF2R (F64.div (fabs (F64.of_Z s)) (f64_of_f32 (F32.of_Z 32768))) <= 1)%R.
Proof.
  intros Hs. unfold is_Sint16 in Hs. apply andb_prop in Hs as [H1 H2].
  apply Z.leb_le in H1. apply Z.leb_le in H2.
  rewrite fabs_of_Z, c32768_eq.
  assert (Habs : 0 <= Z.abs s <= 32768) by lia.
  assert (Hrn : RN64 (IZR (Z.abs s)) (F64.of_Z (Z.abs s))) by (apply F64_of_Z_RN; lia).
  assert (Hc : posfin64 (S754_finite false 4503599627370496 (-37))) by reflexivity.
  assert (Hcv : SF2R (S754_finite false 4503599627370496 (-37)) = 32768%R).
  { cbn [SF2R cond_Zopp]. bpow_const. lra. }
  assert (Ha : posfin64 (F64.of_Z (Z.abs s)) /\
               (SF2R (F64.of_Z (Z.abs s)) <= SF2R (S754_finite false 4503599627370496 (-37)))%R).
  { eapply RN_le_float; eauto; fmt. rewrite Hcv. apply IZR_le. lia. }
  destruct Ha as [Hpa Hva]. rewrite Hcv in Hva.
  pose proof (posfin_nonneg _ _ _ Hpa) as Hnn.
  assert (Hq : RN64 (SF2R (F64.of_Z (Z.abs s)) / SF2R (S754_finite false 4503599627370496 (-37)))
                 (F64.div (F64.of_Z (Z.abs s)) (S754_finite false 4503599627370496 (-37))))
    by (apply SFdiv_posfin; fmt).
  assert (H1c : posfin64 (S754_finite false 4503599627370496 (-52))) by reflexivity.
  assert (H1v : SF2R (S754_finite false 4503599627370496 (-52)) = 1%R).
  { cbn [SF2R cond_Zopp]. bpow_const. lra. }
  rewrite <- H1v. eapply RN_le_float; eauto; fmt.
  rewrite Hcv, H1v. lra.
Qed.

Lemma sum_step_ok sum s : sum_ok sum -> is_Sint16 s = true -> sum_ok (sum_step sum s).
Proof.
  intros [Hp Hv] Hs. unfold sum_step.
  destruct (sample_term_bound s Hs) as [Hpt Hvt].
  set (t := F64.div (fabs (F64.of_Z s)) (f64_of_f32 (F32.of_Z 32768))) in *.
  destruct (f64_of_f32_posfin sum Hp) as [Hp64 Hv64].
  assert (Hadd : RN64 (SF2R (f64_of_f32 sum) + SF2R t) (F64.add (f64_of_f32 sum) t))
    by (apply SFadd_posfin; fmt).
  set (c := S754_finite false 4503599895805952 (-28)).
  assert (Hc : posfin64 c) by reflexivity.
  assert (Hcv : SF2R c = 16777217%R).
  { unfold c. cbn [SF2R cond_Zopp]. bpow_const. lra. }
  assert (Ha : posfin64 (F64.add (f64_of_f32 sum) t) /\
               (SF2R (F64.add (f64_of_f32 sum) t) <= SF2R c)%R).
  { eapply RN_le_float; eauto; fmt. rewrite Hcv, Hv64. lra. }
  destruct Ha as [Hpa Hva].
  assert (Hr : RN32 (SF2R (F64.add (f64_of_f32 sum) t)) (f32_of_f64 (F64.add (f64_of_f32 sum) t)))
    by (apply f32_of_f64_RN; assumption).
  assert (Hrc : RN32 (SF2R c) (f32_of_f64 c)) by (apply f32_of_f64_RN; assumption).
  assert (Hcf : f32_of_f64 c = S754_finite false 8388608 1) by (vm_compute; reflexivity).
  assert (Hle : SFleb (f32_of_f64 (F64.add (f64_of_f32 sum) t)) (f32_of_f64 c) = true)
    by (eapply RN_mono; eauto; fmt).
  rewrite Hcf in Hle.
  assert (Hc32 : posfin32 (S754_finite false 8388608 1)) by reflexivity.
  assert (Hfin : is_finite (f32_of_f64 (F64.add (f64_of_f32 sum) t)) = true).
  { eapply SFleb_finite with (c := S754_finite false 8388608 1);
      [eapply RN_nonneg; eauto; fmt|reflexivity|exact Hle]. }
  assert (Hpr : posfin32 (f32_of_f64 (F64.add (f64_of_f32 sum) t)))
    by (eapply RN_posfin; eauto; fmt).
  split; [assumption|].
  apply (SFleb_le F32.prec F32.emax) in Hle; fmt.
  cbn [SF2R cond_Zopp] in Hle. bpow_const. lra.
Qed.

Lemma foldl_sum_step_ok samples : forall sum, sum_ok sum ->
  forallb is_Sint16 samples = true -> sum_ok (foldl sum_step sum samples).
Proof.
  induction samples as [|s rest IH]; intros sum Hsum Hall; [exact Hsum|].
  cbn [forallb] in Hall. apply andb_prop in Hall as [Hs Hrest].
  cbn [foldl]. apply IH; [apply sum_step_ok; assumption|assumption].
Qed.

Lemma buffer_sum_ok samples : forallb is_Sint16 samples = true -> sum_ok (buffer_sum samples).
Proof.
  intros H. apply foldl_sum_step_ok; [|assumption]. split; [reflexivity|]. simpl. lra.
Qed.

(** The sample count, as a [float], is at least one or infinite. *)
Lemma count_float n : 1 <= n ->
  F32.of_Z n = S754_infinity false \/
  exists m e, F32.of_Z n = S754_finite false m e /\ bounded F32.prec F32.emax m e = true /\
              (1 <= SF2R (S754_finite false m e))%R.
Proof.
  intros Hn.
  assert (Hrn : RN32 (IZR n) (F32.of_Z n)) by (apply F32_of_Z_RN; lia).
  pose proof (RN_nonneg _ _ _ _ Hrn) as Hnn.
  destruct (is_finite (F32.of_Z n)) eqn:Hfin.
  - right.
    assert (Hp : posfin32 (F32.of_Z n)) by (eapply RN_posfin; eauto; fmt).
    assert (H1c : posfin32 (S754_finite false 8388608 (-23))) by reflexivity.
    assert (H1v : SF2R (S754_finite false 8388608 (-23)) = 1%R).
    { cbn [SF2R cond_Zopp]. bpow_const. lra. }
    assert (Hge : (SF2R (S754_finite false 8388608 (-23)) <= SF2R (F32.of_Z n))%R).
    { eapply RN_ge_float; eauto; fmt. rewrite H1v. apply IZR_le. lia. }
    rewrite H1v in Hge.
    destruct (posfin_pos_finite _ _ _ Hp ltac:(lra)) as (m & e & Heq & Hb).
    exists m, e. rewrite <- Heq. auto.
  - left. destruct (F32.of_Z n) as [?|[]| |? ? ?]; simpl in *; try discriminate. reflexivity.
Qed.

Lemma buffer_energy_posfin samples : samples <> [] ->
  forallb is_Sint16 samples = true -> posfin32 (buffer_energy samples).
Proof.
  intros Hne Hall. destruct (buffer_sum_ok samples Hall) as [Hp Hv].
  unfold buffer_energy.
  assert (Hn : 1 <= Z.of_nat (length samples)).
  { destruct samples; [congruence|]. cbn [length]. lia. }
  destruct (count_float _ Hn) as [Hinf|(m & e & Heq & Hb & Hge)].
  - rewrite Hinf. destruct (buffer_sum samples) as [[]|?| |[] ? ?]; try contradiction; reflexivity.
  - rewrite Heq.
    assert (Hq : RN32 (SF2R (buffer_sum samples) / SF2R (S754_finite false m e))
                   (F32.div (buffer_sum samples) (S754_finite false m e)))
      by (apply SFdiv_posfin; fmt).
    pose proof (posfin_nonneg _ _ _ Hp) as Hnn.
    eapply RN_le_float with (c := buffer_sum samples); eauto; fmt.
    apply Rle_trans with (SF2R (buffer_sum samples) / 1)%R; [|lra].
    unfold Rdiv. apply Rmult_le_compat_l; [assumption|].
    apply Rinv_le_contravar; lra.
Qed.

(** *** The cold start: a zero baseline lets every positive energy through *)

Lemma cold_start_threshold energy : posfin32 energy -> (0 < SF2R energy)%R ->
  exceeds_threshold energy (ema_update F32.zero energy) = true.
Proof.
  intros Hp Hpos.
  destruct (posfin_pos_finite _ _ _ Hp Hpos) as (m & e & -> & Hb).
  unfold exceeds_threshold, ema_update. rewrite lit_9_10_eq, lit_1_10_eq, BEAT_THRESHOLD_eq.
  change (F32.mul (S754_finite false 15099494 (-24)) F32.zero) with (S754_zero false).
  set (c01 := S754_finite false 13421773 (-27)).
  set (c14 := S754_finite false 6305039478318694 (-52)).
  set (en := S754_finite false m e) in *.
  assert (Hc01 : posfin32 c01) by reflexivity.
  assert (Hc14 : posfin64 c14) by reflexivity.
  assert (Hq : RN32 (SF2R c01 * SF2R en) (F32.mul c01 en)) by (apply SFmul_posfin; fmt).
  assert (Hc01v : SF2R c01 = (13421773 / 134217728)%R).
  { unfold c01. cbn [SF2R cond_Zopp]. bpow_const. lra. }
  assert (Hc14v : SF2R c14 = (6305039478318694 / 4503599627370496)%R).
  { unfold c14. cbn [SF2R cond_Zopp]. bpow_const. lra. }
  assert (Hqle : posfin32 (F32.mul c01 en) /\ (SF2R (F32.mul c01 en) <= SF2R en)%R).
  { eapply RN_le_float; eauto; fmt. rewrite Hc01v. lra. }
  destruct Hqle as [Hpq _].
  assert (Hqerr : (SF2R (F32.mul c01 en)
                   <= SF2R c01 * SF2R en + (SF2R c01 * SF2R en * bpow (-24) + bpow (-149) / 2))%R).
  { apply Rabs_le_upper. apply (RN_err F32.prec F32.emax); fmt. eapply posfin_finite; eauto. }
  unfold F32.add. rewrite SFadd_zero_l by assumption.
  destruct (f64_of_f32_posfin _ Hpq) as [Hpq64 Hvq64].
  destruct (f64_of_f32_posfin _ Hp) as [Hpe64 Hve64].
  set (q := F32.mul c01 en) in *.
  assert (Hd : RN64 (SF2R (f64_of_f32 q) * SF2R c14) (F64.mul (f64_of_f32 q) c14))
    by (apply SFmul_posfin; fmt).
  pose proof (posfin_nonneg _ _ _ Hpq) as Hqnn.
  (* the least positive [float] *)
  assert (Hmin : (bpow (-149) <= SF2R en)%R).
  { unfold en. cbn [SF2R cond_Zopp].
    apply bounded_good in Hb as ((He & _ & _) & _ & _); fmt.
    apply Rle_trans with (1 * bpow e)%R.
    - rewrite Rmult_1_l. apply bpow_le. exact He.
    - apply Rmult_le_compat_r; [pose proof (bpow_pos e); lra|]. apply IZR_le. lia. }
  assert (Hsub : (bpow (-149) = 2 * bpow (-150))%R).
  { change (-149) with (1 + -150). rewrite bpow_add. change (bpow 1) with (powerRZ 2 1).
    simpl powerRZ. lra. }
  assert (Htiny : (bpow (-1074) <= bpow (-150) / 64)%R).
  { replace (bpow (-150) / 64)%R with (bpow (-156)).
    - apply bpow_le. lia.
    - change (-156) with (-150 + -6). rewrite bpow_add. bpow_const. lra. }
  assert (Hdle : posfin64 (F64.mul (f64_of_f32 q) c14) /\
                 (SF2R (F64.mul (f64_of_f32 q) c14) <= SF2R (f64_of_f32 en))%R).
  { eapply RN_le_float; eauto; fmt. rewrite Hvq64, Hve64, Hc14v.
    rewrite Hc01v in Hqerr. generalize dependent (bpow (-149)). generalize dependent (bpow (-150)).
    intros. bpow_const. lra. }
  destruct Hdle as [Hpd _].
  assert (Hderr : (SF2R (F64.mul (f64_of_f32 q) c14)
                   <= SF2R (f64_of_f32 q) * SF2R c14
                      + (SF2R (f64_of_f32 q) * SF2R c14 * bpow (-53) + bpow (-1074) / 2))%R).
  { apply Rabs_le_upper. apply (RN_err F64.prec F64.emax); fmt. eapply posfin_finite; eauto. }
  apply (lt_SFltb F64.prec F64.emax); fmt.
  rewrite Hve64. rewrite Hvq64, Hc14v in Hderr. rewrite Hc01v in Hqerr.
  generalize dependent (bpow (-149)). generalize dependent (bpow (-150)).
  generalize dependent (bpow (-1074)). intros. bpow_const. lra.
Qed.

(** ** The audio callback *)

Section Callback.
Context {platform : Platform}.

Lemma spawn_loop_full fuel : forall i ps g,
  (forall j q, (i <= j < i + fuel)%nat -> ps !! j = Some q -> 0 < lifetime q) ->
  spawn_loop fuel i ps g = (ps, g).
Proof.
  induction fuel as [|fuel IH]; intros i ps g Hact; cbn [spawn_loop]; [reflexivity|].
  destruct (ps !! i) as [p|] eqn:Hp; [|reflexivity].
  pose proof (Hact i p ltac:(lia) Hp) as Hlt.
  destruct (Z.leb_spec (lifetime p) 0); [lia|].
  apply IH. intros j q Hj. apply Hact. lia.
Qed.

Lemma spawn_loop_free fuel : forall i k ps g p,
  (i <= k < i + fuel)%nat -> ps !! k = Some p -> lifetime p <= 0 ->
  (forall j q, (i <= j < k)%nat -> ps !! j = Some q -> 0 < lifetime q) ->
  spawn_loop fuel i ps g = (<[k := fst (new_particle g)]> ps, snd (new_particle g)).
Proof.
  induction fuel as [|fuel IH]; intros i k ps g p Hk Hp Hfree Hact; [lia|].
  cbn [spawn_loop].
  destruct (Nat.eq_dec i k) as [->|Hne].
  - rewrite Hp. destruct (Z.leb_spec (lifetime p) 0); [|lia].
    destruct (new_particle g); reflexivity.
  - assert (Hi : (i < length ps)%nat).
    { apply lookup_lt_Some in Hp. lia. }
    destruct (lookup_lt_is_Some_2 ps i Hi) as [q Hq]. rewrite Hq.
    pose proof (Hact i q ltac:(lia) Hq).
    destruct (Z.leb_spec (lifetime q) 0); [lia|].
    apply IH with (p := p); try assumption; [lia|].
    intros j q' Hj. apply Hact. lia.
Qed.

(** The fields [audio_callback] writes on every invocation. *)
Lemma audio_callback_always st samples ticks g :
  amplitude (fst (audio_callback st samples ticks g)) = buffer_energy samples /\
  beat_energy (fst (audio_callback st samples ticks g))
    = ema_update (beat_energy st) (buffer_energy samples) /\
  hue (fst (audio_callback st samples ticks g)) = hue_step (hue st).
Proof.
  unfold audio_callback.
  destruct (exceeds_threshold _ _); [destruct (spawn_loop _ _ _ _)|]; auto.
Qed.

Lemma audio_callback_no_onset st samples ticks g : beat_onset st samples = false ->
  audio_callback st samples ticks g =
  (mkState (buffer_energy samples) (ema_update (beat_energy st) (buffer_energy samples))
     (last_beat st) (particles st) (hue_step (hue st)), g).
Proof. unfold beat_onset, audio_callback. intros ->. reflexivity. Qed.

Lemma audio_callback_onset st samples ticks g : beat_onset st samples = true ->
  audio_callback st samples ticks g =
  (mkState (buffer_energy samples) (ema_update (beat_energy st) (buffer_energy samples))
     ticks (fst (spawn_loop MAX_PARTICLES 0 (particles st) g)) (hue_step (hue st)),
   snd (spawn_loop MAX_PARTICLES 0 (particles st) g)).
Proof.
  unfold beat_onset, audio_callback. intros ->.
  destruct (spawn_loop _ _ _ _); reflexivity.
Qed.

End Callback.

(** ** Beat detection *)

Section Beat.
Context {platform : Platform}.

(** C1 (as amended): the onset test of [audio_callback] compares the
    buffer's energy with 1.4 times the baseline it has just updated (the
    value [beat_energy' = 0.9 * beat_energy + 0.1 * energy] that the new
    state holds); an onset records [ticks] as [last_beat], and without one
    [last_beat] and the pool are unchanged. *)
Theorem onset_uses_updated_baseline
    (st : VisualizerState) (samples : list Z) (ticks : Z) (g : rng) :
  let st' := fst (audio_callback st samples ticks g) in
  let energy := buffer_energy samples in
  beat_energy st'
    = F32.add (F32.mul (F32.lit 9 10) (beat_energy st)) (F32.mul (F32.lit 1 10) energy) /\
  beat_onset st samples
    = F64.lt (F64.mul (f64_of_f32 (beat_energy st')) BEAT_THRESHOLD) (f64_of_f32 energy) /\
  (if beat_onset st samples
   then last_beat st' = ticks
   else last_beat st' = last_beat st /\ particles st' = particles st).
Proof.
  cbv zeta. destruct (audio_callback_always st samples ticks g) as (_ & Hbe & _).
  split; [exact Hbe|]. split.
  - rewrite Hbe. reflexivity.
  - destruct (beat_onset st samples) eqn:Hon.
    + rewrite audio_callback_onset by assumption. reflexivity.
    + rewrite audio_callback_no_onset by assumption. split; reflexivity.
Qed.

Lemma cold_start_beat (st : VisualizerState) (samples : list Z) :
  beat_energy st = F32.zero ->
  forallb is_Sint16 samples = true ->
  F32.lt F32.zero (buffer_energy samples) = true ->
  beat_onset st samples = true.
Proof.
  intros Hbe Hall Hpos.
  assert (Hne : samples <> []).
  { intros ->. vm_compute in Hpos. discriminate. }
  pose proof (buffer_energy_posfin samples Hne Hall) as Hp.
  assert (Hv : (0 < SF2R (buffer_energy samples))%R).
  { change 0%R with (SF2R F32.zero).
    apply (SFltb_lt F32.prec F32.emax); fmt. reflexivity. }
  unfold beat_onset. cbv zeta. rewrite Hbe. apply cold_start_threshold; assumption.
Qed.

(** C3: from a baseline of zero, the first buffer with positive energy
    signals a beat onset. *)
Theorem cold_start_onset
    (st : VisualizerState) (samples : list Z) (ticks : Z) (g : rng) :
  beat_energy st = F32.zero ->
  forallb is_Sint16 samples = true ->
  F32.lt F32.zero (buffer_energy samples) = true ->
  beat_onset st samples = true /\
  last_beat (fst (audio_callback st samples ticks g)) = ticks.
Proof.
  intros Hbe Hall Hpos.
  assert (Hon : beat_onset st samples = true) by (apply cold_start_beat; assumption).
  split; [exact Hon|]. rewrite audio_callback_onset by assumption. reflexivity.
Qed.

Lemma callbacks_beat_energy (samples : list Z) (ticks : nat -> Z) (n : nat) :
  forall (g : rng),
  beat_energy (fst (callbacks n state0 samples ticks g)) = baseline (buffer_energy samples) n.
Proof.
  induction n as [|n IH]; intros g; [reflexivity|].
  cbn [callbacks]. specialize (IH g).
  destruct (callbacks n state0 samples ticks g) as [st g'] eqn:Hc. cbn [fst] in IH.
  destruct (audio_callback_always st samples (ticks n) g') as (_ & Hbe & _).
  rewrite Hbe, IH. reflexivity.
Qed.


Lemma baseline_S (energy : float) (n : nat) :
  baseline energy (S n) = ema_update (baseline energy n) energy.
Proof. reflexivity. Qed.





End Beat.

(** ** Signs: the baseline is never negative *)

Lemma sign_clear_binary_round_aux prec emax mx ex lx :
  sign_clear (binary_round_aux prec emax false mx ex lx).
Proof.
  unfold binary_round_aux.
  destruct (shr_fexp prec emax mx ex lx) as [mrs' e'].
  destruct (shr_fexp prec emax _ e' loc_Exact) as [mrs'' e''].
  destruct (shr_m mrs''); cbn; auto.
  destruct (e'' <=? emax - prec); cbn; auto.
Qed.

Lemma sign_clear_of_Z prec emax z : 0 <= z -> sign_clear (binary_normalize prec emax z 0 false).
Proof.
  destruct z as [|p|p]; try lia; intros _; cbn [binary_normalize]; [reflexivity|].
  unfold binary_round. destruct (shl_align p 0 _) as [mz ez].
  apply sign_clear_binary_round_aux.
Qed.

Lemma notneg_binary_round_aux prec emax mx ex lx :
  notneg (binary_round_aux prec emax false mx ex lx).
Proof.
  unfold binary_round_aux.
  destruct (shr_fexp prec emax mx ex lx) as [mrs' e'].
  destruct (shr_fexp prec emax _ e' loc_Exact) as [mrs'' e''].
  destruct (shr_m mrs''); cbn; auto.
  destruct (e'' <=? emax - prec); cbn; auto.
Qed.

Lemma notneg_binary_round prec emax m e : notneg (binary_round prec emax false m e).
Proof.
  unfold binary_round. destruct (shl_align m e _) as [mz ez]. apply notneg_binary_round_aux.
Qed.

Lemma notneg_of_Z prec emax z : 0 <= z -> notneg (binary_normalize prec emax z 0 false).
Proof.
  destruct z as [|p|p]; try lia; intros _; cbn [binary_normalize]; [exact I|].
  apply notneg_binary_round.
Qed.

Lemma notneg_SFabs f : notneg (SFabs f).
Proof. destruct f; cbn; auto. Qed.

Lemma notneg_convert prec emax f : notneg f -> notneg (convert prec emax f).
Proof.
  destruct f as [s|s| |s m e]; cbn; auto. intros ->. apply notneg_binary_round.
Qed.

Ltac sign_cases f1 f2 :=
  destruct f1 as [?s|?s| |?s ?m ?e], f2 as [?s|?s| |?s ?m ?e];
  let H1 := fresh in let H2 := fresh in
  intros H1 H2; cbn [notneg sign_clear] in H1, H2; subst;
  try (cbn [SFmul SFdiv SFadd xorb notneg]; first [exact I | reflexivity]);
  try (repeat match goal with s : bool |- _ => destruct s end;
       cbn [SFmul SFdiv SFadd xorb notneg]; first [exact I | reflexivity]).

Lemma notneg_SFmul prec emax f1 f2 : notneg f1 -> notneg f2 -> notneg (SFmul prec emax f1 f2).
Proof.
  sign_cases f1 f2. cbn [SFmul xorb]. apply notneg_binary_round_aux.
Qed.

Lemma notneg_SFdiv prec emax f1 f2 :
  notneg f1 -> sign_clear f2 -> notneg (SFdiv prec emax f1 f2).
Proof.
  sign_cases f1 f2. cbn [SFdiv xorb].
  match goal with
  | |- context [SFdiv_core_binary ?p ?q ?m1 ?e1 ?m2 ?e2] =>
      destruct (SFdiv_core_binary p q m1 e1 m2 e2) as [[mz ez] lz]
  end.
  apply notneg_binary_round_aux.
Qed.

Lemma notneg_SFadd prec emax f1 f2 : notneg f1 -> notneg f2 -> notneg (SFadd prec emax f1 f2).
Proof.
  sign_cases f1 f2. cbn [SFadd cond_Zopp].
  change (Z.pos (fst (shl_align m e (Z.min e e0))) + Z.pos (fst (shl_align m0 e0 (Z.min e e0))))
    with (Z.pos (fst (shl_align m e (Z.min e e0)) + fst (shl_align m0 e0 (Z.min e e0)))).
  cbn [binary_normalize]. apply notneg_binary_round.
Qed.

Lemma notneg_not_lt f : notneg f -> SFltb f (S754_zero false) = false.
Proof. destruct f as [s|s| |s m e]; cbn; auto; intros ->; reflexivity. Qed.

Lemma not_lt_notneg f : SFltb f (S754_zero false) = false -> notneg f.
Proof. destruct f as [s|[]| |[] m e]; cbn; auto; discriminate. Qed.

Lemma notneg_sum_step sum s : notneg sum -> notneg (sum_step sum s).
Proof.
  intros H. unfold sum_step. apply notneg_convert, notneg_SFadd.
  - apply notneg_convert, H.
  - apply notneg_SFdiv; [apply notneg_SFabs|]. rewrite c32768_eq. reflexivity.
Qed.

Lemma notneg_buffer_energy samples : notneg (buffer_energy samples).
Proof.
  unfold buffer_energy. apply notneg_SFdiv; [|apply sign_clear_of_Z; lia].
  unfold buffer_sum. generalize F32.zero, (I : notneg F32.zero).
  induction samples as [|s rest IH]; intros f Hf; cbn [foldl]; [exact Hf|].
  apply IH, notneg_sum_step, Hf.
Qed.

Lemma notneg_ema_update b energy : notneg b -> notneg energy -> notneg (ema_update b energy).
Proof.
  intros Hb He. unfold ema_update. rewrite lit_9_10_eq, lit_1_10_eq.
  apply notneg_SFadd; apply notneg_SFmul; auto; reflexivity.
Qed.

(** Against a baseline that is not negative, an energy of zero is no onset. *)
Lemma zero_energy_threshold b : notneg b ->
  exceeds_threshold F32.zero (ema_update b F32.zero) = false.
Proof.
  intros Hb. unfold exceeds_threshold.
  change (f64_of_f32 F32.zero) with (S754_zero false).
  apply notneg_not_lt. rewrite BEAT_THRESHOLD_eq.
  apply notneg_SFmul; [|reflexivity].
  apply notneg_convert, notneg_ema_update; [assumption|exact I].
Qed.

Lemma foldl_sum_step_zero samples : (forall s, s ∈ samples -> s = 0) ->
  foldl sum_step F32.zero samples = F32.zero.
Proof.
  induction samples as [|s rest IH]; intros Hz; [reflexivity|].
  cbn [foldl]. rewrite (Hz s) by apply list_elem_of_here.
  change (sum_step F32.zero 0) with F32.zero.
  apply IH. intros s' Hs'. apply Hz, list_elem_of_further, Hs'.
Qed.

Lemma buffer_energy_silent samples : samples <> [] -> (forall s, s ∈ samples -> s = 0) ->
  buffer_energy samples = F32.zero.
Proof.
  intros Hne Hz. unfold buffer_energy, buffer_sum. rewrite foldl_sum_step_zero by assumption.
  assert (Hn : 1 <= Z.of_nat (length samples)).
  { destruct samples; [congruence|]. cbn [length]. lia. }
  destruct (count_float _ Hn) as [->|(m & e & -> & _)]; reflexivity.
Qed.

Section Frame.
Context {platform : Platform}.

(** The baseline stays non-negative along every run of the callback. *)
Lemma baseline_not_negative st samples ticks g :
  F32.lt (beat_energy st) F32.zero = false ->
  F32.lt (beat_energy (fst (audio_callback st samples ticks g))) F32.zero = false.
Proof.
  intros H. destruct (audio_callback_always st samples ticks g) as (_ & -> & _).
  apply notneg_not_lt, notneg_ema_update; [apply not_lt_notneg, H|apply notneg_buffer_energy].
Qed.

Lemma draw_visualization_beat_energy st ticks :
  beat_energy (fst (draw_visualization st ticks)) = beat_energy st.
Proof.
  unfold draw_visualization, draw_particles.
  destruct (draw_particles_loop _ _ _ _). reflexivity.
Qed.

(** In every state of a run the baseline is not negative. *)
Lemma reachable_baseline st :
  reachable st -> F32.lt (beat_energy st) F32.zero = false.
Proof.
  induction 1 as [|st samples ticks g _ IH|st ticks _ IH].
  - reflexivity.
  - apply baseline_not_negative, IH.
  - rewrite draw_visualization_beat_energy. exact IH.
Qed.

(** C9: in any state of a run, on a buffer of all-zero samples
    [audio_callback] sets [amplitude] to zero, signals no onset (so
    [last_beat], the pool and the generator are unchanged) and advances
    [hue] by 0.3 degrees modulo 360. *)
Theorem silent_buffer_callback
    (st : VisualizerState) (samples : list Z) (ticks : Z) (g : rng) :
  reachable st ->
  samples <> [] ->
  (forall s, s ∈ samples -> s = 0) ->
  beat_onset st samples = false /\
  amplitude (fst (audio_callback st samples ticks g)) = F32.zero /\
  last_beat (fst (audio_callback st samples ticks g)) = last_beat st /\
  particles (fst (audio_callback st samples ticks g)) = particles st /\
  snd (audio_callback st samples ticks g) = g /\
  hue (fst (audio_callback st samples ticks g))
    = f32_of_f64 (fmod (f64_of_f32 (F32.add (hue st) (F32.lit 3 10))) (F64.of_Z 360)).
Proof.
  intros Hr Hne Hz. pose proof (reachable_baseline st Hr) as Hb.
  pose proof (buffer_energy_silent samples Hne Hz) as He.
  assert (Hon : beat_onset st samples = false).
  { unfold beat_onset. cbv zeta. rewrite He. apply zero_energy_threshold, not_lt_notneg, Hb. }
  split; [exact Hon|]. rewrite audio_callback_no_onset by assumption. cbn [fst snd].
  rewrite He. repeat split; reflexivity.
Qed.

(** Either no slot below [n] is free, or there is a lowest free one. *)
Lemma first_free_cases (ps : list Particle) (n : nat) :
  (forall j q, (j < n)%nat -> ps !! j = Some q -> 0 < lifetime q) \/
  (exists i p, (i < n)%nat /\ ps !! i = Some p /\ lifetime p <= 0 /\
               forall j q, (j < i)%nat -> ps !! j = Some q -> 0 < lifetime q).
Proof.
  induction n as [|n [IH|IH]].
  - left. intros j q Hj. lia.
  - destruct (ps !! n) as [p|] eqn:Hp.
    + destruct (Z_lt_le_dec 0 (lifetime p)) as [Hact|Hfree].
      * left. intros j q Hj Hq. destruct (Nat.eq_dec j n) as [->|]; [congruence|].
        apply (IH j); [lia|assumption].
      * right. exists n, p. repeat split; auto.
    + left. intros j q Hj Hq. destruct (Nat.eq_dec j n) as [->|]; [congruence|].
      apply (IH j); [lia|assumption].
  - right. destruct IH as (i & p & Hi & Hp & Hfree & Hlow).
    exists i, p. repeat split; auto.
Qed.

(** C8: an onset while every slot of the pool is active spawns nothing: the
    pool is left as it is, with all its particles active. *)
Theorem spawn_on_full_pool
    (st : VisualizerState) (samples : list Z) (ticks : Z) (g : rng) :
  length (particles st) = MAX_PARTICLES ->
  (forall p, p ∈ particles st -> 0 < lifetime p) ->
  beat_onset st samples = true ->
  particles (fst (audio_callback st samples ticks g)) = particles st /\
  snd (audio_callback st samples ticks g) = g /\
  length (particles (fst (audio_callback st samples ticks g))) = MAX_PARTICLES /\
  (forall p, p ∈ particles (fst (audio_callback st samples ticks g)) -> 0 < lifetime p).
Proof.
  intros Hlen Hact Hon. rewrite audio_callback_onset by assumption. cbn [fst snd particles].
  rewrite spawn_loop_full.
  - cbn [fst snd]. auto.
  - intros j q _ Hq. apply Hact. eapply list_elem_of_lookup_2, Hq.
Qed.

End Frame.

(** ** Particle spawn *)

Lemma two_pi_eq : f32_of_f64 (F64.mul M_PI (F64.of_Z 2)) = S754_finite false 13176795 (-21).
Proof. vm_compute. reflexivity. Qed.

Lemma RAND_MAX_float : F32.of_Z RAND_MAX = S754_finite false 8388608 8.
Proof. vm_compute. reflexivity. Qed.

(** [(float)rand()] is at most [(float)RAND_MAX]. *)
Lemma rand_float (r : Z) : 0 <= r <= RAND_MAX ->
  posfin32 (F32.of_Z r) /\ (SF2R (F32.of_Z r) <= SF2R (F32.of_Z RAND_MAX))%R.
Proof.
  intros Hr. assert (Hrn : RN32 (IZR r) (F32.of_Z r)) by (apply F32_of_Z_RN; lia).
  rewrite RAND_MAX_float.
  eapply RN_le_float; eauto; fmt; [reflexivity|].
  cbn [SF2R cond_Zopp]. bpow_const. rewrite <- mult_IZR. apply IZR_le.
  unfold RAND_MAX in Hr. lia.
Qed.

(** The quotient [(float)rand() / d] is at most [(float)RAND_MAX / d]. *)
Lemma rand_quotient (r : Z) (m : positive) (e : Z) : 0 <= r <= RAND_MAX ->
  (0 < SF2R (S754_finite false m e))%R ->
  SFleb (F32.div (F32.of_Z r) (S754_finite false m e))
        (F32.div (F32.of_Z RAND_MAX) (S754_finite false m e)) = true.
Proof.
  intros Hr Hd. destruct (rand_float r Hr) as [Hp Hv].
  assert (Hpm : posfin32 (F32.of_Z RAND_MAX)) by (rewrite RAND_MAX_float; reflexivity).
  eapply RN_mono with (prec := F32.prec) (emax := F32.emax); fmt;
    [apply SFdiv_posfin; fmt..|].
  unfold Rdiv. apply Rmult_le_compat_r; [|assumption].
  apply Rlt_le, Rinv_0_lt_compat, Hd.
Qed.

Lemma angle_bounds (r : Z) : 0 <= r <= RAND_MAX ->
  F32.le F32.zero
    (rand_range_of (F32.of_Z 0) (f32_of_f64 (F64.mul M_PI (F64.of_Z 2))) r) = true /\
  F32.le (rand_range_of (F32.of_Z 0) (f32_of_f64 (F64.mul M_PI (F64.of_Z 2))) r)
    (f32_of_f64 (F64.mul M_PI (F64.of_Z 2))) = true.
Proof.
  intros Hr. unfold rand_range_of. rewrite two_pi_eq.
  eval_float (F32.div (F32.of_Z RAND_MAX)
                (F32.sub (S754_finite false 13176795 (-21)) (F32.of_Z 0))) Hd.
  rewrite Hd.
  match type of Hd with _ = S754_finite false ?m ?e =>
    pose proof (rand_quotient r m e Hr) as Hq;
    assert (Hmax : F32.div (F32.of_Z RAND_MAX) (S754_finite false m e)
                   = S754_finite false 13176795 (-21)) by (vm_compute; reflexivity)
  end.
  rewrite Hmax in Hq.
  match type of Hq with _ -> SFleb ?q _ = true =>
    assert (Hle : SFleb q (S754_finite false 13176795 (-21)) = true);
    [apply Hq; cbn [SF2R cond_Zopp]; bpow_const; lra|]; clear Hq;
    assert (Hp : posfin32 q)
  end.
  { destruct (rand_float r Hr) as [Hpr _].
    eapply RN_posfin with (prec := F32.prec) (emax := F32.emax); fmt;
      [apply SFdiv_posfin; fmt|].
    eapply SFleb_finite; [| |exact Hle]; [|reflexivity].
    eapply RN_nonneg with (prec := F32.prec) (emax := F32.emax); fmt.
    apply SFdiv_posfin; fmt. }
  change (F32.of_Z 0) with (S754_zero false). unfold F32.add.
  rewrite SFadd_zero_l by assumption.
  split; [apply (SFleb_zero_posfin F32.prec F32.emax); assumption|exact Hle].
Qed.

Lemma speed_bounds (r : Z) : 0 <= r <= RAND_MAX ->
  F32.le (F32.of_Z 1) (rand_range_of (F32.of_Z 1) (F32.of_Z 3) r) = true /\
  F32.le (rand_range_of (F32.of_Z 1) (F32.of_Z 3) r) (F32.of_Z 3) = true.
Proof.
  intros Hr. unfold rand_range_of.
  eval_float (F32.div (F32.of_Z RAND_MAX) (F32.sub (F32.of_Z 3) (F32.of_Z 1))) Hd.
  rewrite Hd.
  match type of Hd with _ = S754_finite false ?m ?e =>
    pose proof (rand_quotient r m e Hr) as Hq;
    assert (Hmax : F32.div (F32.of_Z RAND_MAX) (S754_finite false m e)
                   = S754_finite false 8388608 (-22)) by (vm_compute; reflexivity)
  end.
  rewrite Hmax in Hq.
  match type of Hq with _ -> SFleb ?q _ = true =>
    assert (Hle : SFleb q (S754_finite false 8388608 (-22)) = true);
    [apply Hq; cbn [SF2R cond_Zopp]; bpow_const; lra|]; clear Hq;
    assert (Hp : posfin32 q); [|set (quot := q) in *]
  end.
  { destruct (rand_float r Hr) as [Hpr _].
    eapply RN_posfin with (prec := F32.prec) (emax := F32.emax); fmt;
      [apply SFdiv_posfin; fmt|].
    eapply SFleb_finite; [| |exact Hle]; [|reflexivity].
    eapply RN_nonneg with (prec := F32.prec) (emax := F32.emax); fmt.
    apply SFdiv_posfin; fmt. }
  apply (SFleb_le F32.prec F32.emax) in Hle; fmt; [|reflexivity].
  cbn [SF2R cond_Zopp] in Hle. bpow_const.
  eval_float (F32.of_Z 1) H1. eval_float (F32.of_Z 3) H3. rewrite H1, H3.
  match type of H1 with _ = ?one => assert (Hp1 : posfin32 one) by reflexivity;
    assert (Hv1 : SF2R one = 1%R) by (cbn [SF2R cond_Zopp]; bpow_const; lra) end.
  match type of H3 with _ = ?three => assert (Hp3 : posfin32 three) by reflexivity;
    assert (Hv3 : SF2R three = 3%R) by (cbn [SF2R cond_Zopp]; bpow_const; lra) end.
  match goal with |- F32.le ?one (F32.add _ _) = true /\ F32.le _ ?three = true =>
    assert (Hs : RN32 (SF2R one + SF2R quot) (F32.add one quot)) by (apply SFadd_posfin; fmt);
    assert (Hup : posfin32 (F32.add one quot) /\ (SF2R (F32.add one quot) <= SF2R three)%R)
  end.
  { eapply RN_le_float; eauto; fmt. rewrite Hv1, Hv3. lra. }
  destruct Hup as [Hps Hup]. pose proof (posfin_nonneg _ _ _ Hp) as Hqnn.
  split.
  - apply (le_SFleb F32.prec F32.emax); fmt.
    eapply RN_ge_float; eauto; fmt; [lra|eapply posfin_finite; eauto].
  - apply (le_SFleb F32.prec F32.emax); fmt.
Qed.

Lemma lifetime_bounds (r : Z) : 0 <= r -> 20 <= Z.rem r 30 + 20 <= 49.
Proof. intros Hr. pose proof (Z.rem_bound_pos r 30 Hr ltac:(lia)). lia. Qed.

Section Spawn.
Context {platform : Platform}.

Lemma new_particle_eq (g : rng) :
  fst (new_particle g) =
  mkParticle (F32.of_Z 400) (F32.of_Z 400)
    (f32_of_f64
       (F64.mul (cos (f64_of_f32 (rand_range_of (F32.of_Z 0)
                                    (f32_of_f64 (F64.mul M_PI (F64.of_Z 2))) (fst (rand g)))))
                (f64_of_f32 (rand_range_of (F32.of_Z 1) (F32.of_Z 3)
                               (fst (rand (snd (rand g))))))))
    (f32_of_f64
       (F64.mul (sin (f64_of_f32 (rand_range_of (F32.of_Z 0)
                                    (f32_of_f64 (F64.mul M_PI (F64.of_Z 2))) (fst (rand g)))))
                (f64_of_f32 (rand_range_of (F32.of_Z 1) (F32.of_Z 3)
                               (fst (rand (snd (rand g))))))))
    (Z.rem (fst (rand (snd (rand (snd (rand g)))))) 30 + 20) 255.
Proof.
  unfold new_particle, rand_range.
  destruct (rand g) as [r1 g1]. cbn [fst snd].
  destruct (rand g1) as [r2 g2]. cbn [fst snd].
  destruct (rand g2) as [r3 g3]. reflexivity.
Qed.

(** C7 (as amended): on a beat onset the lowest slot of the pool whose
    lifetime is at most 0 is the one slot written: position (400, 400),
    velocity [speed * (cos angle, sin angle)], a lifetime in 20..49 and
    alpha 255, where [angle = rand_range (0, 2 pi)] lies between 0 and the
    [float] nearest to [2 pi], both included, and
    [speed = rand_range (1, 3)] between 1 and 3. *)
Theorem spawn_initialises_first_free
    (st : VisualizerState) (samples : list Z) (ticks : Z) (g : rng)
    (i : nat) (p : Particle) :
  beat_onset st samples = true ->
  (i < MAX_PARTICLES)%nat ->
  particles st !! i = Some p ->
  lifetime p <= 0 ->
  (forall j q, (j < i)%nat -> particles st !! j = Some q -> 0 < lifetime q) ->
  let st' := fst (audio_callback st samples ticks g) in
  let two_pi := f32_of_f64 (F64.mul M_PI (F64.of_Z 2)) in
  let angle := rand_range_of (F32.of_Z 0) two_pi (fst (rand g)) in
  let speed := rand_range_of (F32.of_Z 1) (F32.of_Z 3) (fst (rand (snd (rand g)))) in
  let life := Z.rem (fst (rand (snd (rand (snd (rand g)))))) 30 + 20 in
  particles st' =
    <[i := mkParticle (F32.of_Z 400) (F32.of_Z 400)
             (f32_of_f64 (F64.mul (cos (f64_of_f32 angle)) (f64_of_f32 speed)))
             (f32_of_f64 (F64.mul (sin (f64_of_f32 angle)) (f64_of_f32 speed)))
             life 255]> (particles st) /\
  (forall j, j <> i -> particles st' !! j = particles st !! j) /\
  F32.le F32.zero angle = true /\ F32.le angle two_pi = true /\
  F32.le (F32.of_Z 1) speed = true /\ F32.le speed (F32.of_Z 3) = true /\
  20 <= life <= 49.
Proof.
  intros Hon Hi Hp Hfree Hlow. cbv zeta.
  rewrite audio_callback_onset by assumption. cbn [fst particles].
  rewrite (spawn_loop_free MAX_PARTICLES 0 i (particles st) g p);
    [|lia|assumption|assumption|intros j q Hj; apply Hlow; lia].
  cbn [fst]. rewrite new_particle_eq.
  split; [reflexivity|]. split.
  { intros j Hj. apply list_lookup_insert_ne. congruence. }
  pose proof (angle_bounds _ (rand_bound g)) as [Ha1 Ha2].
  pose proof (speed_bounds _ (rand_bound (snd (rand g)))) as [Hs1 Hs2].
  pose proof (rand_bound (snd (rand (snd (rand g))))) as [Hr3 _].
  repeat split; auto; apply lifetime_bounds; assumption.
Qed.

Lemma new_particle_rng (g : rng) :
  snd (new_particle g) = snd (rand (snd (rand (snd (rand g))))).
Proof.
  unfold new_particle, rand_range.
  destruct (rand g) as [r1 g1]. cbn [fst snd].
  destruct (rand g1) as [r2 g2]. cbn [fst snd].
  destruct (rand g2) as [r3 g3]. reflexivity.
Qed.

End Spawn.

(** ** The frame of the callback *)

Lemma first_inactive_from_spec (ps : list Particle) : forall i0 : nat,
  match first_inactive_from i0 ps with
  | Some i =>
      (i0 <= i)%nat /\
      (exists p, ps !! (i - i0)%nat = Some p /\ lifetime p <= 0) /\
      (forall j q, (j < i - i0)%nat -> ps !! j = Some q -> 0 < lifetime q)
  | None => forall j q, ps !! j = Some q -> 0 < lifetime q
  end.
Proof.
  induction ps as [|p ps IH]; intros i0; cbn [first_inactive_from].
  - intros j q Hq. rewrite lookup_nil in Hq. discriminate.
  - destruct (Z.leb_spec (lifetime p) 0) as [Hfree|Hact].
    + split; [lia|]. rewrite Nat.sub_diag. split; [exists p; split; [reflexivity|exact Hfree]|].
      intros j q Hj. lia.
    + specialize (IH (S i0)). destruct (first_inactive_from (S i0) ps) as [i|].
      * destruct IH as (Hi & (q & Hq & Hfree) & Hlow). split; [lia|].
        replace (i - i0)%nat with (S (i - S i0)) by lia. split; [exists q; auto|].
        intros [|j] r Hj Hr; [cbn in Hr; congruence|]. apply (Hlow j); [lia|exact Hr].
      * intros [|j] r Hr; [cbn in Hr; congruence|]. apply (IH j), Hr.
Qed.

Lemma first_inactive_spec (ps : list Particle) :
  match first_inactive ps with
  | Some i =>
      (i < MAX_PARTICLES)%nat /\
      (exists p, ps !! i = Some p /\ lifetime p <= 0) /\
      (forall j q, (j < i)%nat -> ps !! j = Some q -> 0 < lifetime q)
  | None => forall j q, (j < MAX_PARTICLES)%nat -> ps !! j = Some q -> 0 < lifetime q
  end.
Proof.
  unfold first_inactive.
  pose proof (first_inactive_from_spec (take MAX_PARTICLES ps) 0) as H.
  destruct (first_inactive_from 0 (take MAX_PARTICLES ps)) as [i|].
  - destruct H as (_ & (p & Hp & Hfree) & Hlow). rewrite Nat.sub_0_r in *.
    assert (Hi : (i < MAX_PARTICLES)%nat).
    { apply lookup_lt_Some in Hp. rewrite length_take in Hp. lia. }
    rewrite lookup_take_lt in Hp by exact Hi.
    split; [exact Hi|]. split; [exists p; auto|].
    intros j q Hj Hq. apply (Hlow j); [exact Hj|]. rewrite lookup_take_lt by lia. exact Hq.
  - intros j q Hj Hq. apply (H j). rewrite lookup_take_lt by exact Hj. exact Hq.
Qed.

Section Frame_effect.
Context {platform : Platform}.

(** C10: what one invocation of [audio_callback] writes.  [amplitude],
    [beat_energy] and [hue] are written on every invocation: the energy of
    the buffer, [0.9f * beat_energy + 0.1f * energy] and
    [fmod (hue + 0.3f, 360)].  [last_beat] and the pool are written only in
    the branch of the onset, which is taken when [energy] exceeds
    [1.4 * beat_energy].  Without an onset they are left as they are and
    [rand] is not called.  On an onset [last_beat] becomes [ticks]; if some
    slot of the array is inactive, the lowest such slot, and no other, is
    overwritten with the new particle, which takes three calls of [rand];
    if every slot is active, every slot is left as it is and [rand] is not
    called. *)
Theorem audio_callback_frame
    (st : VisualizerState) (samples : list Z) (ticks : Z) (g : rng) :
  let st' := fst (audio_callback st samples ticks g) in
  let g' := snd (audio_callback st samples ticks g) in
  let energy :=
    F32.div
      (foldl (fun (sum : float) (s : Z) =>
                f32_of_f64 (F64.add (f64_of_f32 sum)
                              (F64.div (fabs (F64.of_Z s)) (f64_of_f32 (F32.of_Z 32768)))))
             F32.zero samples)
      (F32.of_Z (Z.of_nat (length samples))) in
  let two_pi := f32_of_f64 (F64.mul M_PI (F64.of_Z 2)) in
  let angle := rand_range_of (F32.of_Z 0) two_pi (fst (rand g)) in
  let speed := rand_range_of (F32.of_Z 1) (F32.of_Z 3) (fst (rand (snd (rand g)))) in
  let life := Z.rem (fst (rand (snd (rand (snd (rand g)))))) 30 + 20 in
  let fresh :=
    mkParticle (F32.of_Z 400) (F32.of_Z 400)
      (f32_of_f64 (F64.mul (cos (f64_of_f32 angle)) (f64_of_f32 speed)))
      (f32_of_f64 (F64.mul (sin (f64_of_f32 angle)) (f64_of_f32 speed)))
      life 255 in
  amplitude st' = energy /\
  beat_energy st'
    = F32.add (F32.mul (F32.lit 9 10) (beat_energy st)) (F32.mul (F32.lit 1 10) energy) /\
  hue st' = f32_of_f64 (fmod (f64_of_f32 (F32.add (hue st) (F32.lit 3 10))) (F64.of_Z 360)) /\
  beat_onset st samples
    = F64.lt (F64.mul (f64_of_f32 (beat_energy st')) BEAT_THRESHOLD) (f64_of_f32 energy) /\
  if beat_onset st samples
  then
    last_beat st' = ticks /\
    match first_inactive (particles st) with
    | Some i =>
        (i < MAX_PARTICLES)%nat /\
        (exists p, particles st !! i = Some p /\ lifetime p <= 0) /\
        (forall j q, (j < i)%nat -> particles st !! j = Some q -> 0 < lifetime q) /\
        particles st' = <[i := fresh]> (particles st) /\
        particles st' !! i = Some fresh /\
        (forall j, j <> i -> particles st' !! j = particles st !! j) /\
        g' = snd (rand (snd (rand (snd (rand g)))))
    | None =>
        (forall j q, (j < MAX_PARTICLES)%nat -> particles st !! j = Some q -> 0 < lifetime q) /\
        particles st' = particles st /\ g' = g
    end
  else last_beat st' = last_beat st /\ particles st' = particles st /\ g' = g.
Proof.
  cbv zeta.
  change (F32.div _ (F32.of_Z (Z.of_nat (length samples)))) with (buffer_energy samples).
  destruct (audio_callback_always st samples ticks g) as (Ha & Hbe & Hh).
  split; [exact Ha|]. split; [exact Hbe|]. split; [exact Hh|].
  split; [rewrite Hbe; reflexivity|].
  destruct (beat_onset st samples) eqn:Hon.
  - rewrite audio_callback_onset by assumption. cbn [fst snd last_beat particles].
    split; [reflexivity|].
    pose proof (first_inactive_spec (particles st)) as Hspec.
    destruct (first_inactive (particles st)) as [i|].
    + destruct Hspec as (Hi & (p & Hp & Hfree) & Hlow).
      rewrite (spawn_loop_free MAX_PARTICLES 0 i (particles st) g p);
        [|lia|assumption|assumption|intros j q Hj; apply Hlow; lia].
      cbn [fst snd]. rewrite new_particle_eq, new_particle_rng.
      split; [exact Hi|]. split; [exists p; auto|]. split; [exact Hlow|].
      split; [reflexivity|]. split.
      * apply list_lookup_insert_eq. eapply lookup_lt_Some, Hp.
      * split; [|reflexivity]. intros j Hj. apply list_lookup_insert_ne. congruence.
    + rewrite spawn_loop_full; [cbn [fst snd]; auto|].
      intros j q Hj. apply Hspec. lia.
  - rewrite audio_callback_no_onset by assumption. cbn [fst snd last_beat particles]. auto.
Qed.

End Frame_effect.

(** ** Rendering *)

Lemma draw_particles_loop_lookup (fuel : nat) : forall i rgb ps j,
  fst (draw_particles_loop fuel i rgb ps) !! j =
  if decide (i <= j < i + fuel)%nat then advance_if_active <$> ps !! j else ps !! j.
Proof.
  induction fuel as [|fuel IH]; intros i rgb ps j; cbn [draw_particles_loop].
  - cbn [fst]. case_decide; [lia|reflexivity].
  - destruct (ps !! i) as [p|] eqn:Hp.
    + destruct (0 <? lifetime p) eqn:Hact.
      * destruct rgb as [[r g] b].
        specialize (IH (S i) (r, g, b) (<[i := advance p]> ps) j).
        destruct (draw_particles_loop fuel (S i) (r, g, b) (<[i := advance p]> ps)) as [ps' cmds].
        cbn [fst] in *. rewrite IH.
        destruct (Nat.eq_dec j i) as [->|Hne].
        -- rewrite list_lookup_insert_eq by (eapply lookup_lt_Some; eauto).
           rewrite Hp. cbn. unfold advance_if_active. rewrite Hact.
           repeat case_decide; try lia; reflexivity.
        -- rewrite list_lookup_insert_ne by congruence.
           repeat case_decide; try lia; reflexivity.
      * rewrite IH. destruct (Nat.eq_dec j i) as [->|Hne].
        -- rewrite Hp. cbn. unfold advance_if_active. rewrite Hact.
           repeat case_decide; try lia; reflexivity.
        -- repeat case_decide; try lia; reflexivity.
    + cbn [fst]. case_decide; [|reflexivity].
      rewrite (lookup_ge_None_2 ps j); [reflexivity|].
      apply lookup_ge_None_1 in Hp. lia.
Qed.

Lemma draw_particles_lookup (st : VisualizerState) (j : nat) : (j < MAX_PARTICLES)%nat ->
  particles (fst (draw_particles st)) !! j = advance_if_active <$> particles st !! j.
Proof.
  intros Hj. unfold draw_particles.
  pose proof (draw_particles_loop_lookup MAX_PARTICLES 0
                (HSLtoRGB (hue st) (F32.lit 8 10) (F32.lit 7 10)) (particles st) j) as H.
  destruct (draw_particles_loop _ _ _ _) as [ps cmds]. cbn [fst particles] in *.
  rewrite H. case_decide; [reflexivity|lia].
Qed.

Lemma frames_lookup (k : nat) (st : VisualizerState) (j : nat) : (j < MAX_PARTICLES)%nat ->
  particles (frames k st) !! j = Nat.iter k advance_if_active <$> particles st !! j.
Proof.
  intros Hj. induction k as [|k IH]; cbn [frames Nat.iter].
  - destruct (particles st !! j); reflexivity.
  - rewrite draw_particles_lookup, IH by assumption.
    destruct (particles st !! j); reflexivity.
Qed.

Lemma fade_iter (k : nat) : forall p : Particle,
  0 <= lifetime p -> 0 <= alpha p <= 255 ->
  alpha (Nat.iter k advance_if_active p)
    = (alpha p - 8 * Z.min (Z.of_nat k) (lifetime p)) mod 256 /\
  lifetime (Nat.iter k advance_if_active p) = lifetime p - Z.min (Z.of_nat k) (lifetime p).
Proof.
  induction k as [|k IH]; intros p HL Ha.
  - change (Nat.iter 0 advance_if_active p) with p.
    replace (Z.min (Z.of_nat 0) (lifetime p)) with 0 by lia.
    rewrite Z.mul_0_r, Z.sub_0_r, Z.mod_small by lia. lia.
  - rewrite Nat.iter_succ. destruct (IH p HL Ha) as [IHa IHl].
    set (q := Nat.iter k advance_if_active p) in *. clearbody q.
    unfold advance_if_active.
    destruct (Z.ltb_spec 0 (lifetime q)) as [Hact|Hin].
    + cbn [advance alpha lifetime]. rewrite IHa, IHl.
      replace (Z.min (Z.of_nat (S k)) (lifetime p)) with (Z.min (Z.of_nat k) (lifetime p) + 1)
        by lia.
      split; [|lia]. rewrite Zminus_mod_idemp_l. f_equal. lia.
    + replace (Z.min (Z.of_nat (S k)) (lifetime p)) with (Z.min (Z.of_nat k) (lifetime p))
        by lia.
      split; assumption.
Qed.

(** C4 (as amended): a frame of [draw_particles] leaves an inactive slot as
    it is and takes 8 off the alpha of an active one, in the arithmetic of
    its [Uint8]: modulo 256, with no clamp.  So after [k] frames a particle
    of lifetime [L] has the lifetime [L - min (k, L)] and the alpha
    [(alpha - 8 * min (k, L)) mod 256].  From alpha 255 that is
    [255 - 8 * min (k, L)], which is positive, as long as
    [min (k, L) <= 31]; a particle that lives for 32 frames or more has
    alpha 7 after the 31st and 255 again after the 32nd. *)
Theorem particle_fade (st : VisualizerState) (i : nat) (p : Particle) (k : nat) :
  (i < MAX_PARTICLES)%nat ->
  particles st !! i = Some p ->
  0 <= lifetime p ->
  0 <= alpha p <= 255 ->
  exists p' : Particle,
    particles (frames k st) !! i = Some p' /\
    alpha p' = (alpha p - 8 * Z.min (Z.of_nat k) (lifetime p)) mod 256 /\
    lifetime p' = lifetime p - Z.min (Z.of_nat k) (lifetime p) /\
    (alpha p = 255 ->
     (Z.min (Z.of_nat k) (lifetime p) <= 31 ->
      alpha p' = 255 - 8 * Z.min (Z.of_nat k) (lifetime p) /\ 0 < alpha p') /\
     (Z.min (Z.of_nat k) (lifetime p) = 31 -> alpha p' = 7) /\
     (Z.min (Z.of_nat k) (lifetime p) = 32 -> alpha p' = 255)).
Proof.
  intros Hi Hp HL Ha. exists (Nat.iter k advance_if_active p).
  rewrite frames_lookup, Hp by assumption. split; [reflexivity|].
  destruct (fade_iter k p HL Ha) as [Halpha Hlife].
  split; [exact Halpha|]. split; [exact Hlife|].
  intros H255. rewrite Halpha, H255. split; [|split].
  - intros Hm. rewrite Z.mod_small by lia. lia.
  - intros ->. reflexivity.
  - intros ->. reflexivity.
Qed.

Section Ring.
Context {platform : Platform}.

Lemma draw_circle_loop_points (n : nat) : forall (k fuel : nat) r g b radius,
  (k + n = 180)%nat -> (n <= fuel)%nat ->
  draw_circle_loop fuel (2 * Z.of_nat k) (r, g, b) radius =
  flat_map (fun j : nat =>
              [SetRenderDrawColor r g b (Some 255); ring_point radius (2 * Z.of_nat j)])
           (seq k n).
Proof.
  induction n as [|n IH]; intros k fuel r g b radius Hk Hfuel.
  - destruct fuel as [|fuel]; [reflexivity|]. cbn [draw_circle_loop].
    destruct (Z.ltb_spec (2 * Z.of_nat k) 360); [lia|reflexivity].
  - destruct fuel as [|fuel]; [lia|]. cbn [draw_circle_loop seq flat_map app].
    destruct (Z.ltb_spec (2 * Z.of_nat k) 360); [|lia].
    replace (2 * Z.of_nat k + 2) with (2 * Z.of_nat (S k)) by lia.
    rewrite IH by lia. reflexivity.
Qed.

(** C6: a frame computes [beat_strength = (now - last_beat) / 1000] and
    [radius = 100 + amplitude * 150 - beat_strength * 50], clamps neither
    (the radius can be negative), and draws the ring as 180 points, one
    every 2 degrees, around (400, 400) at that radius. *)
Theorem ring_drawn_unclamped (st : VisualizerState) (ticks : Z) :
  let beat_strength :=
    F32.div (F32.of_Z ((ticks - last_beat st) mod 2 ^ 32)) (F32.of_Z 1000) in
  let radius :=
    F32.sub (F32.add (F32.of_Z 100) (F32.mul (amplitude st) (F32.of_Z 150)))
            (F32.mul beat_strength (F32.of_Z 50)) in
  let angle (k : nat) : float :=
    f32_of_f64 (F64.div (F64.mul (F64.of_Z (2 * Z.of_nat k)) M_PI) (F64.of_Z 180)) in
  let '(r, g, b) := HSLtoRGB (hue st) (F32.lit 8 10) (F32.lit 6 10) in
  snd (draw_visualization st ticks) =
    SetRenderDrawColor (Some 20) (Some 20) (Some 30) (Some 255) :: RenderClear ::
    flat_map (fun k : nat =>
      [SetRenderDrawColor r g b (Some 255);
       RenderDrawPoint
         (to_int (F64.add (F64.of_Z 400)
                    (F64.mul (cos (f64_of_f32 (angle k))) (f64_of_f32 radius))))
         (to_int (F64.add (F64.of_Z 400)
                    (F64.mul (sin (f64_of_f32 (angle k))) (f64_of_f32 radius))))])
      (seq 0 180)
    ++ snd (draw_particles st) /\
  F32.lt (ring_radius state0 10000) F32.zero = true.
Proof.
  cbv zeta. unfold draw_visualization, draw_circle.
  destruct (HSLtoRGB (hue st) (F32.lit 8 10) (F32.lit 6 10)) as [[r g] b].
  split; [|vm_compute; reflexivity].
  destruct (draw_particles st) as [st' points]. cbn [snd].
  change 0 with (2 * Z.of_nat 0) at 1.
  rewrite (draw_circle_loop_points 180 0 360) by lia. reflexivity.
Qed.

End Ring.

(** ** Colour *)

(** C5: [HSLtoRGB] has no case for the sector from 300 to 360 degrees: there
    it returns the channels of the sector from 240 to 300, red and blue
    swapped with respect to the six-sector formula.  The hue reaches that
    sector (after 1100 buffers, for one). *)
Theorem HSLtoRGB_sixth_sector :
  HSLtoRGB (F32.of_Z 330) (F32.lit 8 10) (F32.lit 6 10) = (Some 153, Some 71, Some 234) /\
  HSLtoRGB_six_sector (F32.of_Z 330) (F32.lit 8 10) (F32.lit 6 10)
    = (Some 234, Some 71, Some 153) /\
  F32.le (F32.of_Z 300) (Nat.iter 1100 hue_step F32.zero) = true /\
  F32.lt (Nat.iter 1100 hue_step F32.zero) (F32.of_Z 360) = true /\
  HSLtoRGB (Nat.iter 1100 hue_step F32.zero) (F32.lit 8 10) (F32.lit 6 10)
    = (Some 153, Some 71, Some 234) /\
  HSLtoRGB_six_sector (Nat.iter 1100 hue_step F32.zero) (F32.lit 8 10) (F32.lit 6 10)
    = (Some 234, Some 71, Some 153).
Proof. vm_compute. repeat split; reflexivity. Qed.

(** The values the specification lists for [HSLtoRGB]. *)
Lemma HSLtoRGB_primaries :
  HSLtoRGB (F32.of_Z 0) (F32.of_Z 1) (F32.lit 1 2) = (Some 255, Some 0, Some 0) /\
  HSLtoRGB (F32.of_Z 120) (F32.of_Z 1) (F32.lit 1 2) = (Some 0, Some 255, Some 0) /\
  HSLtoRGB (F32.of_Z 240) (F32.of_Z 1) (F32.lit 1 2) = (Some 0, Some 0, Some 255).
Proof. vm_compute. repeat split; reflexivity. Qed.

(** * The claims on concrete runs *)

(** ** Beat detection *)

(** The state after one half-scale buffer has the baseline 0.05.  A buffer of
    energy 0.072 exceeds 1.4 times that baseline (0.07), but not 1.4 times
    the baseline updated with it (0.0522 * 1.4 = 0.0731): the callback
    signals no onset and leaves [last_beat] as it was.  So the onset is not
    decided against the baseline the callback found. *)
Lemma onset_against_previous_baseline_fails :
  let st := fst (@audio_callback test_platform state0 half_scale_buffer 1000 42) in
  let st' := fst (@audio_callback test_platform st quiet_buffer 2000 (snd (lcg 42))) in
  (exceeds_threshold (buffer_energy quiet_buffer) (beat_energy st) = true /\
   beat_onset st quiet_buffer = false /\
   last_beat st = 1000 /\ last_beat st' = 1000) /\
  ~ (forall (s : VisualizerState) (samples : list Z),
       beat_onset s samples = exceeds_threshold (buffer_energy samples) (beat_energy s)).
Proof.
  cbv zeta.
  assert (H : exceeds_threshold (buffer_energy quiet_buffer)
                (beat_energy (fst (@audio_callback test_platform state0 half_scale_buffer 1000 42)))
              = true /\
              beat_onset (fst (@audio_callback test_platform state0 half_scale_buffer 1000 42))
                quiet_buffer = false).
  { vm_compute. split; reflexivity. }
  destruct H as [Hpre Hon]. split.
  - split; [exact Hpre|]. split; [exact Hon|]. vm_compute. split; reflexivity.
  - intros Hall. rewrite Hall, Hpre in Hon. discriminate.
Qed.



Lemma cold_start_onset_witness :
  beat_energy state0 = F32.zero /\
  forallb is_Sint16 half_scale_buffer = true /\
  F32.lt F32.zero (buffer_energy half_scale_buffer) = true /\
  (beat_onset state0 half_scale_buffer = true /\
   last_beat (fst (@audio_callback test_platform state0 half_scale_buffer 1000 42)) = 1000).
Proof.
  split; [reflexivity|]. split; [vm_compute; reflexivity|]. split; [vm_compute; reflexivity|].
  apply (@cold_start_onset test_platform state0 half_scale_buffer 1000 42);
    vm_compute; reflexivity.
Defined.

(** ** The particle pool *)

(** A fresh particle of lifetime 49: its alpha goes down to 7 in 31 frames
    and is 255 again after the 32nd; within 32 frames it is never 0 or
    less. *)
Lemma fade_wraps_around :
  let alpha_after := fun k : nat => alpha <$> particles (frames k fresh_state) !! 0%nat in
  (alpha_after 0%nat = Some 255 /\ alpha_after 31%nat = Some 7 /\
   alpha_after 32%nat = Some 255) /\
  ~ (exists (k : nat) (a : Z), (k <= 32)%nat /\ alpha_after k = Some a /\ a <= 0).
Proof.
  cbv zeta. split; [vm_compute; repeat split; reflexivity|].
  assert (Hall : forallb (fun k => match alpha <$> particles (frames k fresh_state) !! 0%nat with
                                   | Some a => 0 <? a
                                   | None => false
                                   end) (seq 0 33) = true) by (vm_compute; reflexivity).
  intros (k & a & Hk & Ha & Hle).
  rewrite List.forallb_forall in Hall. specialize (Hall k).
  rewrite Ha in Hall. apply Z.ltb_lt in Hall; [lia|]. apply List.in_seq. lia.
Qed.

Lemma particle_fade_witness :
  let p := mkParticle (F32.of_Z 400) (F32.of_Z 400) (F32.of_Z 1) (F32.of_Z 1) 49 255 in
  (0 < MAX_PARTICLES)%nat /\
  particles fresh_state !! 0%nat = Some p /\
  0 <= lifetime p /\
  0 <= alpha p <= 255 /\
  exists p' : Particle,
    particles (frames 32 fresh_state) !! 0%nat = Some p' /\
    alpha p' = (alpha p - 8 * Z.min (Z.of_nat 32) (lifetime p)) mod 256 /\
    lifetime p' = lifetime p - Z.min (Z.of_nat 32) (lifetime p) /\
    (alpha p = 255 ->
     (Z.min (Z.of_nat 32) (lifetime p) <= 31 ->
      alpha p' = 255 - 8 * Z.min (Z.of_nat 32) (lifetime p) /\ 0 < alpha p') /\
     (Z.min (Z.of_nat 32) (lifetime p) = 31 -> alpha p' = 7) /\
     (Z.min (Z.of_nat 32) (lifetime p) = 32 -> alpha p' = 255)).
Proof.
  cbv zeta.
  split; [unfold MAX_PARTICLES; lia|]. split; [reflexivity|].
  split; [simpl; lia|]. split; [simpl; lia|].
  apply (particle_fade fresh_state 0); [unfold MAX_PARTICLES; lia|reflexivity|simpl; lia|simpl; lia].
Defined.

(** With [rand () = RAND_MAX] the angle of a spawn is the [float] nearest to
    [2 pi], 13176795 / 2^21 = 6.2831854820..., which is above [M_PI * 2] and
    above [2 pi] = 6.2831853071...: the angle is not below [2 pi]. *)
Lemma spawn_angle_reaches_two_pi :
  let st := fst (@audio_callback max_platform state0 half_scale_buffer 1000 tt) in
  let two_pi := F64.mul M_PI (F64.of_Z 2) in
  let angle := rand_range_of (F32.of_Z 0) (f32_of_f64 two_pi) RAND_MAX in
  beat_onset state0 half_scale_buffer = true /\
  dx <$> particles st !! 0%nat
    = Some (f32_of_f64 (F64.mul (@cos max_platform (f64_of_f32 angle))
                                (f64_of_f32 (F32.of_Z 3)))) /\
  angle = f32_of_f64 two_pi /\
  F64.lt (f64_of_f32 angle) two_pi = false /\
  F64.lt two_pi (f64_of_f32 angle) = true /\
  (62831853072 / 10000000000 < SF2R angle)%R.
Proof.
  cbv zeta. split; [vm_compute; reflexivity|]. split; [vm_compute; reflexivity|].
  split; [vm_compute; reflexivity|]. split; [vm_compute; reflexivity|].
  split; [vm_compute; reflexivity|].
  assert (Ha : rand_range_of (F32.of_Z 0) (f32_of_f64 (F64.mul M_PI (F64.of_Z 2))) RAND_MAX
               = S754_finite false 13176795 (-21)) by (vm_compute; reflexivity).
  rewrite Ha. unfold SF2R. cbn [cond_Zopp]. bpow_const. lra.
Qed.

Lemma spawn_initialises_first_free_witness :
  let st' := fst (@audio_callback test_platform state0 half_scale_buffer 1000 42) in
  let two_pi := f32_of_f64 (F64.mul M_PI (F64.of_Z 2)) in
  let angle := rand_range_of (F32.of_Z 0) two_pi (fst (lcg 42)) in
  let speed := rand_range_of (F32.of_Z 1) (F32.of_Z 3) (fst (lcg (snd (lcg 42)))) in
  let life := Z.rem (fst (lcg (snd (lcg (snd (lcg 42)))))) 30 + 20 in
  beat_onset state0 half_scale_buffer = true /\
  (0 < MAX_PARTICLES)%nat /\
  particles state0 !! 0%nat = Some particle0 /\
  lifetime particle0 <= 0 /\
  (particles st' =
    <[0%nat := mkParticle (F32.of_Z 400) (F32.of_Z 400)
             (f32_of_f64 (F64.mul (@cos test_platform (f64_of_f32 angle)) (f64_of_f32 speed)))
             (f32_of_f64 (F64.mul (@sin test_platform (f64_of_f32 angle)) (f64_of_f32 speed)))
             life 255]> (particles state0) /\
   (forall j, j <> 0%nat -> particles st' !! j = particles state0 !! j) /\
   F32.le F32.zero angle = true /\ F32.le angle two_pi = true /\
   F32.le (F32.of_Z 1) speed = true /\ F32.le speed (F32.of_Z 3) = true /\
   20 <= life <= 49).
Proof.
  cbv zeta.
  split; [vm_compute; reflexivity|]. split; [unfold MAX_PARTICLES; lia|].
  split; [reflexivity|]. split; [simpl; lia|].
  apply (@spawn_initialises_first_free test_platform state0 half_scale_buffer 1000 42
           0%nat particle0);
    [vm_compute; reflexivity|unfold MAX_PARTICLES; lia|reflexivity|simpl; lia|intros j q Hj; lia].
Defined.

Lemma spawn_on_full_pool_witness :
  length (particles full_state) = MAX_PARTICLES /\
  (forall p, p ∈ particles full_state -> 0 < lifetime p) /\
  beat_onset full_state half_scale_buffer = true /\
  (particles (fst (@audio_callback test_platform full_state half_scale_buffer 1000 42))
     = particles full_state /\
   snd (@audio_callback test_platform full_state half_scale_buffer 1000 42) = 42 /\
   length (particles (fst (@audio_callback test_platform full_state half_scale_buffer 1000 42)))
     = MAX_PARTICLES /\
   (forall p,
      p ∈ particles (fst (@audio_callback test_platform full_state half_scale_buffer 1000 42)) ->
      0 < lifetime p)).
Proof.
  assert (Hact : forall p, p ∈ particles full_state -> 0 < lifetime p).
  { intros p Hp. apply elem_of_replicate in Hp as [-> _]. simpl. lia. }
  split; [reflexivity|]. split; [exact Hact|]. split; [vm_compute; reflexivity|].
  apply (@spawn_on_full_pool test_platform full_state half_scale_buffer 1000 42);
    [reflexivity|exact Hact|vm_compute; reflexivity].
Defined.

(** ** Silence *)

Lemma silent_buffer_callback_witness :
  @reachable test_platform state0 /\
  silent_buffer <> [] /\
  (forall s, s ∈ silent_buffer -> s = 0) /\
  (beat_onset state0 silent_buffer = false /\
   amplitude (fst (@audio_callback test_platform state0 silent_buffer 1000 42)) = F32.zero /\
   last_beat (fst (@audio_callback test_platform state0 silent_buffer 1000 42)) = last_beat state0 /\
   particles (fst (@audio_callback test_platform state0 silent_buffer 1000 42)) = particles state0 /\
   snd (@audio_callback test_platform state0 silent_buffer 1000 42) = 42 /\
   hue (fst (@audio_callback test_platform state0 silent_buffer 1000 42))
     = f32_of_f64 (fmod (f64_of_f32 (F32.add (hue state0) (F32.lit 3 10))) (F64.of_Z 360))).
Proof.
  assert (Hz : forall s, s ∈ silent_buffer -> s = 0).
  { intros s Hs. apply elem_of_replicate in Hs as [-> _]. reflexivity. }
  split; [apply reachable_init|]. split; [discriminate|]. split; [exact Hz|].
  apply (@silent_buffer_callback test_platform state0 silent_buffer 1000 42);
    [apply reachable_init|discriminate|exact Hz].
Defined.

(** * Further properties of the program *)

(** ** The particle pool along a run *)

Lemma draw_particles_loop_cmds (fuel : nat) : forall i rgb ps,
  (i + fuel)%nat = length ps ->
  snd (draw_particles_loop fuel i rgb ps) = List.flat_map (particle_cmds rgb) (drop i ps).
Proof.
  induction fuel as [|fuel IH]; intros i rgb ps Hlen; cbn [draw_particles_loop].
  - rewrite drop_ge by lia. reflexivity.
  - destruct (lookup_lt_is_Some_2 ps i ltac:(lia)) as [p Hp]. rewrite Hp.
    rewrite (drop_S ps p i Hp). cbn [List.flat_map].
    unfold particle_cmds at 1, active. destruct (0 <? lifetime p) eqn:Hact.
    + destruct rgb as [[r g] b].
      specialize (IH (S i) (r, g, b) (<[i := advance p]> ps)).
      rewrite length_insert in IH. specialize (IH ltac:(lia)).
      destruct (draw_particles_loop fuel (S i) (r, g, b) (<[i := advance p]> ps)) as [ps' cmds].
      cbn [snd] in *. rewrite IH, drop_insert_lt by lia. reflexivity.
    + rewrite IH by lia. reflexivity.
Qed.

Lemma draw_particles_loop_map (ps : list Particle) rgb :
  fst (draw_particles_loop (length ps) 0 rgb ps) = advance_if_active <$> ps.
Proof.
  apply list_eq. intros j. rewrite draw_particles_loop_lookup, list_lookup_fmap.
  case_decide; [reflexivity|].
  rewrite (lookup_ge_None_2 ps j) by lia. reflexivity.
Qed.

Lemma draw_particles_eq (st : VisualizerState) :
  length (particles st) = MAX_PARTICLES ->
  draw_particles st =
  (mkState (amplitude st) (beat_energy st) (last_beat st)
     (advance_if_active <$> particles st) (hue st),
   List.flat_map (particle_cmds (HSLtoRGB (hue st) (F32.lit 8 10) (F32.lit 7 10)))
     (particles st)).
Proof.
  intros Hlen. unfold draw_particles.
  pose proof (draw_particles_loop_map (particles st)
                (HSLtoRGB (hue st) (F32.lit 8 10) (F32.lit 7 10))) as Hm.
  pose proof (draw_particles_loop_cmds MAX_PARTICLES 0
                (HSLtoRGB (hue st) (F32.lit 8 10) (F32.lit 7 10)) (particles st)
                ltac:(lia)) as Hc.
  rewrite Hlen in Hm.
  destruct (draw_particles_loop _ _ _ _) as [ps cmds]. cbn [fst snd] in *.
  rewrite Hm, Hc. reflexivity.
Qed.

Lemma particle_cmds_length rgb (ps : list Particle) :
  length (List.flat_map (particle_cmds rgb) ps) = (2 * active_count ps)%nat.
Proof.
  unfold active_count. induction ps as [|p ps IH]; [reflexivity|].
  cbn [List.flat_map List.filter]. rewrite length_app, IH.
  unfold particle_cmds. destruct (active p); [|reflexivity].
  destruct rgb as [[r g] b]. cbn [length]. lia.
Qed.

(** X1: [draw_particles] is a map over the pool: each active slot is
    advanced, then drawn at its new position with its new alpha, in slot
    order; an inactive slot is neither changed nor drawn, and no other field
    of the state is written.  So a frame issues two renderer calls for each
    active particle. *)
Theorem draw_particles_map (st : VisualizerState) :
  length (particles st) = MAX_PARTICLES ->
  draw_particles st =
  (mkState (amplitude st) (beat_energy st) (last_beat st)
     (advance_if_active <$> particles st) (hue st),
   List.flat_map (particle_cmds (HSLtoRGB (hue st) (F32.lit 8 10) (F32.lit 7 10)))
     (particles st)) /\
  length (snd (draw_particles st)) = (2 * active_count (particles st))%nat.
Proof.
  intros Hlen. rewrite draw_particles_eq by exact Hlen. split; [reflexivity|].
  cbn [snd]. apply particle_cmds_length.
Qed.

Lemma particle_ok_advance (p : Particle) : particle_ok p -> particle_ok (advance_if_active p).
Proof.
  intros [Hl Ha]. unfold advance_if_active.
  destruct (Z.ltb_spec 0 (lifetime p)); [|split; assumption].
  split; cbn [advance lifetime alpha]; [lia|].
  pose proof (Z.mod_pos_bound (alpha p - 8) 256). lia.
Qed.

Lemma pool_ok_advance (ps : list Particle) : pool_ok ps -> pool_ok (advance_if_active <$> ps).
Proof.
  intros [Hlen Hall]. split; [rewrite length_fmap; exact Hlen|].
  apply Forall_fmap. eapply Forall_impl; [exact Hall|]. intros p. apply particle_ok_advance.
Qed.

Lemma forallb_lookup {A : Type} (f : A -> bool) (l : list A) :
  forallb f l = true <-> (forall i x, l !! i = Some x -> f x = true).
Proof.
  rewrite List.forallb_forall. split.
  - intros H i x Hx. apply H, list_elem_of_In. eapply list_elem_of_lookup_2, Hx.
  - intros H x Hx. apply list_elem_of_In, list_elem_of_lookup in Hx as [i Hi]. eapply H, Hi.
Qed.

Section Pool.
Context {platform : Platform}.

Lemma new_particle_ok (g : rng) :
  20 <= lifetime (fst (new_particle g)) <= 49 /\ alpha (fst (new_particle g)) = 255.
Proof.
  rewrite new_particle_eq. cbn [lifetime alpha]. split; [|reflexivity].
  apply lifetime_bounds. apply rand_bound.
Qed.

(** The spawn loop either finds every slot active and does nothing, or
    writes the new particle over the lowest inactive slot. *)
Lemma spawn_loop_cases (ps : list Particle) (g : rng) :
  (forallb active ps = true /\ spawn_loop MAX_PARTICLES 0 ps g = (ps, g)) \/
  (exists i p, ps !! i = Some p /\ active p = false /\ forallb active ps = false /\
               spawn_loop MAX_PARTICLES 0 ps g
               = (<[i := fst (new_particle g)]> ps, snd (new_particle g))) \/
  (MAX_PARTICLES < length ps)%nat.
Proof.
  destruct (Nat.lt_ge_cases MAX_PARTICLES (length ps)) as [Hlong|Hlen]; [right; right; exact Hlong|].
  destruct (first_free_cases ps MAX_PARTICLES) as [Hfull|(i & p & Hi & Hp & Hfree & Hlow)].
  - left. split.
    + apply forallb_lookup. intros j q Hq. unfold active.
      apply Z.ltb_lt. apply (Hfull j); [|exact Hq]. apply lookup_lt_Some in Hq. lia.
    + apply spawn_loop_full. intros j q Hj. apply Hfull. lia.
  - right. left. exists i, p. split; [exact Hp|].
    assert (Hin : active p = false) by (unfold active; apply Z.ltb_ge; exact Hfree).
    split; [exact Hin|]. split.
    + destruct (forallb active ps) eqn:Hall; [|reflexivity].
      rewrite forallb_lookup in Hall. specialize (Hall i p Hp). congruence.
    + apply (spawn_loop_free MAX_PARTICLES 0 i ps g p); [lia|assumption|assumption|].
      intros j q Hj. apply Hlow. lia.
Qed.

Lemma pool_ok_spawn (ps : list Particle) (g : rng) :
  pool_ok ps -> pool_ok (fst (spawn_loop MAX_PARTICLES 0 ps g)).
Proof.
  intros [Hlen Hall].
  destruct (spawn_loop_cases ps g) as [[_ ->]|[(i & p & Hp & _ & _ & ->)|Hlong]];
    [split; assumption| |lia].
  cbn [fst]. split; [rewrite length_insert; exact Hlen|].
  apply Forall_insert; [exact Hall|].
  destruct (new_particle_ok g) as [Hl Ha]. split; [lia|rewrite Ha; lia].
Qed.

Lemma draw_visualization_state (st : VisualizerState) (ticks : Z) :
  fst (draw_visualization st ticks) = fst (draw_particles st).
Proof. unfold draw_visualization. destruct (draw_particles st). reflexivity. Qed.

Lemma reachable_pool (st : VisualizerState) :
  reachable st -> pool_ok (particles st).
Proof.
  induction 1 as [|st samples ticks g _ IH|st ticks _ IH].
  - split; [apply length_replicate|].
    apply Forall_replicate. unfold particle_ok, particle0. cbn. lia.
  - destruct (beat_onset st samples) eqn:Hon.
    + rewrite audio_callback_onset by assumption. cbn [fst particles].
      apply pool_ok_spawn, IH.
    + rewrite audio_callback_no_onset by assumption. exact IH.
  - rewrite draw_visualization_state, draw_particles_eq by apply IH.
    cbn [fst particles]. apply pool_ok_advance, IH.
Qed.

(** X2: in every state of a run the pool has its 300 slots, every lifetime
    is between 0 and 49 and every alpha between 0 and 255: a lifetime is
    never negative. *)
Theorem reachable_pool_ok (st : VisualizerState) :
  reachable st ->
  length (particles st) = MAX_PARTICLES /\
  (forall p, p ∈ particles st -> 0 <= lifetime p <= 49 /\ 0 <= alpha p <= 255).
Proof.
  intros Hr. destruct (reachable_pool st Hr) as [Hlen Hall]. split; [exact Hlen|].
  intros p Hp. rewrite Forall_forall in Hall. apply Hall, Hp.
Qed.

End Pool.

(** ** Particles die out *)

Lemma lifetime_iter (k : nat) (p : Particle) : 0 <= lifetime p ->
  lifetime (Nat.iter k advance_if_active p) = lifetime p - Z.min (Z.of_nat k) (lifetime p).
Proof.
  intros HL. induction k as [|k IH].
  - change (Nat.iter 0 advance_if_active p) with p. lia.
  - rewrite Nat.iter_succ.
    set (q := Nat.iter k advance_if_active p) in *. clearbody q.
    unfold advance_if_active.
    destruct (Z.ltb_spec 0 (lifetime q)); [cbn [advance lifetime]|]; lia.
Qed.

Lemma frames_length (k : nat) (st : VisualizerState) :
  length (particles st) = MAX_PARTICLES -> length (particles (frames k st)) = MAX_PARTICLES.
Proof.
  intros Hlen. induction k as [|k IH]; [exact Hlen|].
  cbn [frames]. rewrite draw_particles_eq by exact IH. cbn [fst particles].
  rewrite length_fmap. exact IH.
Qed.

Lemma particle_cmds_idle rgb (ps : list Particle) :
  Forall (fun p => lifetime p = 0) ps -> List.flat_map (particle_cmds rgb) ps = [].
Proof.
  induction 1 as [|p ps Hp _ IH]; [reflexivity|].
  cbn [List.flat_map]. rewrite IH. unfold particle_cmds, active. rewrite Hp. reflexivity.
Qed.

Lemma active_count_idle (ps : list Particle) :
  Forall (fun p => lifetime p = 0) ps -> active_count ps = 0%nat.
Proof.
  unfold active_count. induction 1 as [|p ps Hp _ IH]; [reflexivity|].
  cbn [List.filter]. unfold active at 1. rewrite Hp. exact IH.
Qed.

Lemma draw_particles_idle (st : VisualizerState) :
  length (particles st) = MAX_PARTICLES ->
  Forall (fun p => lifetime p = 0) (particles st) ->
  draw_particles st = (st, []).
Proof.
  intros Hlen Hall. rewrite draw_particles_eq by exact Hlen.
  assert (Hmap : advance_if_active <$> particles st = particles st).
  { rewrite <- (list_fmap_id (particles st)) at 2. apply Forall_fmap_ext_1.
    eapply Forall_impl; [exact Hall|]. intros p Hp. unfold advance_if_active.
    rewrite Hp. reflexivity. }
  rewrite Hmap, particle_cmds_idle by exact Hall. destruct st; reflexivity.
Qed.

Section Expiry.
Context {platform : Platform}.

(** X3: a particle lives for at most 49 frames: from any state of a run, once
    49 frames have been drawn with no new spawn, every slot is inactive, and
    a further frame draws no particle and leaves the state as it is. *)
Theorem particles_expire (st : VisualizerState) (k : nat) :
  reachable st -> (49 <= k)%nat ->
  Forall (fun p => lifetime p = 0) (particles (frames k st)) /\
  active_count (particles (frames k st)) = 0%nat /\
  draw_particles (frames k st) = (frames k st, []).
Proof.
  intros Hr Hk. destruct (reachable_pool st Hr) as [Hlen Hok].
  assert (Hdead : Forall (fun p => lifetime p = 0) (particles (frames k st))).
  { apply Forall_lookup. intros j p Hp.
    assert (Hj : (j < MAX_PARTICLES)%nat).
    { apply lookup_lt_Some in Hp. rewrite frames_length in Hp; assumption. }
    rewrite frames_lookup in Hp by exact Hj.
    destruct (particles st !! j) as [q|] eqn:Hq; [|discriminate].
    injection Hp as <-.
    rewrite Forall_lookup in Hok. destruct (Hok j q Hq) as [Hl _].
    rewrite lifetime_iter by lia. lia. }
  split; [exact Hdead|]. split.
  - apply active_count_idle, Hdead.
  - apply draw_particles_idle; [apply frames_length; exact Hlen|exact Hdead].
Qed.

End Expiry.

(** ** Spawning, counted *)

Lemma active_count_app (l1 l2 : list Particle) :
  active_count (l1 ++ l2) = (active_count l1 + active_count l2)%nat.
Proof. unfold active_count. rewrite List.filter_app, length_app. reflexivity. Qed.

Lemma active_count_insert (ps : list Particle) (i : nat) (p q : Particle) :
  ps !! i = Some p -> active p = false -> active q = true ->
  active_count (<[i := q]> ps) = S (active_count ps).
Proof.
  intros Hp Hin Hact.
  rewrite insert_take_drop by (eapply lookup_lt_Some; eauto).
  rewrite <- (take_drop_middle ps i p Hp) at 3.
  rewrite !active_count_app.
  change (q :: drop (S i) ps) with ([q] ++ drop (S i) ps).
  change (p :: drop (S i) ps) with ([p] ++ drop (S i) ps).
  rewrite !active_count_app. unfold active_count at 2 5. cbn [List.filter].
  rewrite Hin, Hact. cbn [length]. lia.
Qed.

Section SpawnCount.
Context {platform : Platform}.

(** X4: an invocation of [audio_callback] adds one active particle, and calls
    [rand] exactly three times, when it signals an onset and some slot is
    inactive; otherwise it leaves the pool as it is and does not call
    [rand]. *)
Theorem spawn_adds_one
    (st : VisualizerState) (samples : list Z) (ticks : Z) (g : rng) :
  length (particles st) = MAX_PARTICLES ->
  let st' := fst (audio_callback st samples ticks g) in
  let g' := snd (audio_callback st samples ticks g) in
  if beat_onset st samples && negb (forallb active (particles st))
  then active_count (particles st') = S (active_count (particles st)) /\
       g' = snd (rand (snd (rand (snd (rand g)))))
  else particles st' = particles st /\ g' = g.
Proof.
  intros Hlen. cbv zeta. destruct (beat_onset st samples) eqn:Hon; cbn [andb].
  - rewrite audio_callback_onset by assumption. cbn [fst snd particles].
    destruct (spawn_loop_cases (particles st) g)
      as [[Hall ->]|[(i & p & Hp & Hin & Hall & ->)|Hlong]]; [| |lia]; rewrite Hall; cbn [negb fst snd].
    + split; reflexivity.
    + split; [|apply new_particle_rng].
      apply active_count_insert with (p := p); [assumption|assumption|].
      unfold active. apply Z.ltb_lt. pose proof (new_particle_ok g). lia.
  - rewrite audio_callback_no_onset by assumption. split; reflexivity.
Qed.

(** ** An empty buffer *)

(** X5: a buffer of no samples has the energy 0/0: the callback stores NaN as
    amplitude and as baseline and signals no onset.  A NaN baseline is there
    to stay: on any later buffer the baseline is NaN again and no onset is
    signalled, so [last_beat] and the pool are never written again. *)
Theorem nan_baseline_absorbing
    (st : VisualizerState) (samples : list Z) (ticks : Z) (g : rng) :
  (let st' := fst (audio_callback st [] ticks g) in
   amplitude st' = S754_nan /\ beat_energy st' = S754_nan /\
   beat_onset st [] = false /\
   last_beat st' = last_beat st /\ particles st' = particles st) /\
  (beat_energy st = S754_nan ->
   let st' := fst (audio_callback st samples ticks g) in
   beat_energy st' = S754_nan /\ beat_onset st samples = false /\
   last_beat st' = last_beat st /\ particles st' = particles st).
Proof.
  assert (Hadd_r : forall f, F32.add f S754_nan = S754_nan) by (intros [?|?| |? ? ?]; reflexivity).
  assert (Hlt_r : forall f, F64.lt f S754_nan = false) by (intros [?|?| |? ? ?]; reflexivity).
  assert (He : forall b, ema_update b S754_nan = S754_nan).
  { intros b. unfold ema_update. rewrite lit_1_10_eq. apply Hadd_r. }
  assert (Hb : forall e, ema_update S754_nan e = S754_nan).
  { intros e. unfold ema_update. rewrite lit_9_10_eq. reflexivity. }
  split.
  - cbv zeta.
    assert (Hon : beat_onset st [] = false).
    { unfold beat_onset, exceeds_threshold. cbv zeta.
      change (buffer_energy []) with S754_nan. apply Hlt_r. }
    rewrite audio_callback_no_onset by assumption. cbn [fst amplitude beat_energy last_beat particles].
    change (buffer_energy []) with S754_nan. rewrite He. auto.
  - intros Hnan. cbv zeta.
    assert (Hon : beat_onset st samples = false).
    { unfold beat_onset, exceeds_threshold. cbv zeta. rewrite Hnan, Hb. reflexivity. }
    rewrite audio_callback_no_onset by assumption. cbn [fst amplitude beat_energy last_beat particles].
    rewrite Hnan, Hb. auto.
Qed.

End SpawnCount.

(** ** Floating-point facts for the rest *)

(** A valid non-negative float is determined by its value. *)
Lemma posfin_value_eq prec emax f1 f2 : 0 < prec -> prec < emax ->
  posfin prec emax f1 -> posfin prec emax f2 -> SF2R f1 = SF2R f2 -> f1 = f2.
Proof.
  intros Hprec Hemax H1 H2 Hv.
  pose proof (SFcompare_posfin prec emax Hprec f1 f2 H1 H2) as Hc.
  destruct f1 as [[]|?| |[] m1 e1], f2 as [[]|?| |[] m2 e2]; simpl in H1, H2; try contradiction.
  - reflexivity.
  - cbn [SFcompare SF2R cond_Zopp] in Hc, Hv. lra.
  - cbn [SFcompare SF2R cond_Zopp] in Hc, Hv. lra.
  - cbn [SFcompare SF2R cond_Zopp] in Hc, Hv.
    destruct (Z.compare_spec e1 e2) as [->|Hlt|Hgt]; [|lra|lra].
    change (Pos.compare_cont Eq m1 m2) with (Pos.compare m1 m2) in Hc.
    destruct (Pos.compare_spec m1 m2) as [->|Hlt|Hgt]; [reflexivity|lra|lra].
Qed.

Lemma binary_normalize_RN_at prec emax z e : 0 < prec -> prec < emax -> 0 <= z ->
  RN prec emax (IZR z * bpow e) (binary_normalize prec emax z e false).
Proof.
  intros Hprec Hemax Hz. destruct z as [|p|p]; try lia; cbn [binary_normalize].
  - rewrite Rmult_0_l. apply RN_zero; assumption.
  - apply binary_round_RN; assumption.
Qed.

Lemma scaled_value (m d e : Z) : 0 <= d ->
  (IZR (m * 2 ^ d) * bpow e = IZR m * bpow (d + e))%R.
Proof.
  intros Hd. rewrite mult_IZR, <- bpow_IZR by assumption.
  rewrite Rmult_assoc, <- bpow_add. reflexivity.
Qed.

(** [fmod] is exact: the result is [a - n * b] for a whole [n], and lies in
    [0, b). *)
Lemma fmod_spec (a b : double) : posfin64 a -> posfin64 b -> (0 < SF2R b)%R ->
  posfin64 (fmod a b) /\ (0 <= SF2R (fmod a b) < SF2R b)%R /\
  exists n : Z, 0 <= n /\ SF2R (fmod a b) = (SF2R a - IZR n * SF2R b)%R.
Proof.
  intros Ha Hb Hbpos.
  destruct (posfin_pos_finite _ _ _ Hb Hbpos) as (mb & eb & -> & Hbb).
  destruct a as [[]|?| |[] ma ea]; try contradiction.
  - cbn [fmod]. split; [exact I|]. split; [split; [apply Rle_refl|exact Hbpos]|].
    exists 0. split; [lia|]. cbn [SF2R]. lra.
  - cbn [posfin] in Ha. cbn [fmod cond_Zopp].
    set (e := Z.min ea eb).
    set (A := Z.pos ma * 2 ^ (ea - e)). set (B := Z.pos mb * 2 ^ (eb - e)).
    assert (Hda : 0 <= ea - e) by (unfold e; lia).
    assert (Hdb : 0 <= eb - e) by (unfold e; lia).
    assert (HA : 0 < A) by (unfold A; pose proof (pow2_pos _ Hda); nia).
    assert (HB : 0 < B) by (unfold B; pose proof (pow2_pos _ Hdb); nia).
    pose proof (Z.mod_pos_bound A B HB) as Hr.
    assert (HrA : A mod B <= A) by (apply Z.mod_le; lia).
    apply bounded_good in Ha as ((Hea & _ & _) & Hma & Hea'); fmt.
    apply bounded_good in Hbb as ((Heb & _ & _) & Hmb & Heb'); fmt.
    assert (Hsmall : A mod B < 2 ^ F64.prec).
    { destruct (Z.le_ge_cases ea eb) as [Hle|Hge].
      - assert (A = Z.pos ma); [|lia].
        unfold A, e. rewrite Z.min_l, Z.sub_diag by lia. simpl. lia.
      - assert (B = Z.pos mb); [|lia].
        unfold B, e. rewrite Z.min_r, Z.sub_diag by lia. simpl. lia. }
    assert (Hrn : RN64 (IZR (A mod B) * bpow e) (binary_normalize F64.prec F64.emax (A mod B) e false))
      by (apply binary_normalize_RN_at; fmt; lia).
    assert (Hex : is_finite (binary_normalize F64.prec F64.emax (A mod B) e false) = true /\
                  SF2R (binary_normalize F64.prec F64.emax (A mod B) e false)
                  = (IZR (A mod B) * bpow e)%R).
    { eapply RN_exact_value with (m := A mod B) (e := e); try exact Hrn; try reflexivity; fmt.
      - lia.
      - unfold e. lia. }
    destruct Hex as [Hfin Hval].
    assert (HAv : (IZR A * bpow e = IZR (Z.pos ma) * bpow ea)%R).
    { unfold A. rewrite scaled_value by assumption. f_equal. f_equal. lia. }
    assert (HBv : (IZR B * bpow e = IZR (Z.pos mb) * bpow eb)%R).
    { unfold B. rewrite scaled_value by assumption. f_equal. f_equal. lia. }
    pose proof (bpow_pos e) as Hpe.
    split; [eapply RN_posfin; eauto; fmt|]. rewrite Hval. cbn [SF2R cond_Zopp].
    rewrite <- HAv, <- HBv. split.
    + split.
      * apply Rmult_le_pos; [apply IZR_le; lia|lra].
      * apply Rmult_lt_compat_r; [assumption|]. apply IZR_lt. lia.
    + exists (A / B). split; [apply Z.div_pos; lia|].
      rewrite (Z.mod_eq A B) by lia. rewrite minus_IZR, mult_IZR. ring.
Qed.

Lemma c360_eq : F64.of_Z 360 = S754_finite false 6333186975989760 (-44).
Proof. vm_compute. reflexivity. Qed.

(** Reduction modulo 360 of a [float], as [HSLtoRGB] and the hue update do
    it: the [double] remainder is a [float], so that the conversion back
    does not round. *)
Lemma wrap360_spec (s : float) : posfin32 s ->
  posfin32 (f32_of_f64 (fmod (f64_of_f32 s) (F64.of_Z 360))) /\
  (0 <= SF2R (f32_of_f64 (fmod (f64_of_f32 s) (F64.of_Z 360))) < 360)%R /\
  exists n : Z, 0 <= n /\
    SF2R (f32_of_f64 (fmod (f64_of_f32 s) (F64.of_Z 360))) = (SF2R s - IZR n * 360)%R.
Proof.
  intros Hs. rewrite c360_eq.
  set (c := S754_finite false 6333186975989760 (-44)).
  assert (Hc : posfin64 c) by reflexivity.
  assert (Hcv : SF2R c = 360%R) by (unfold c; cbn [SF2R cond_Zopp]; bpow_const; lra).
  destruct (f64_of_f32_posfin s Hs) as [Hs64 Hsv].
  destruct (fmod_spec (f64_of_f32 s) c Hs64 Hc ltac:(lra)) as (Hd & Hrange & n & Hn & Hdv).
  rewrite Hcv, Hsv in *.
  set (d := fmod (f64_of_f32 s) c) in *.
  assert (Hrn : RN32 (SF2R d) (f32_of_f64 d)) by (apply f32_of_f64_RN; exact Hd).
  assert (Hex : is_finite (f32_of_f64 d) = true /\ SF2R (f32_of_f64 d) = SF2R d).
  { destruct s as [[]|?| |[] M E]; try contradiction.
    - (* zero *)
      assert (Hz : SF2R d = (IZR 0 * bpow 0)%R).
      { cbn [SF2R] in Hdv. assert (0 <= IZR n)%R by (apply IZR_le; lia). lra. }
      assert (Hkr : 0 <= 0 < 2 ^ F32.prec) by (split; [lia|reflexivity]).
      assert (HEr : SpecFloat.emin F32.prec F32.emax <= 0 <= F32.emax - F32.prec)
        by (split; discriminate).
      eapply RN_exact_value with (prec := F32.prec) (emax := F32.emax) (m := 0) (e := 0); eauto with fmt.
    - cbn [posfin] in Hs. apply bounded_good in Hs as ((HE & _ & _) & HM & HE'); fmt.
      cbn [SF2R cond_Zopp] in Hdv.
      change (SpecFloat.emin F32.prec F32.emax) with (-149) in HE.
      change (F32.emax - F32.prec) with 104 in HE'.
      destruct (Z.le_gt_cases E 3) as [Hle|Hgt].
      + set (k := Z.pos M - n * 45 * 2 ^ (3 - E)).
        assert (Hk : SF2R d = (IZR k * bpow E)%R).
        { rewrite Hdv. unfold k. rewrite minus_IZR, Rmult_minus_distr_r.
          f_equal. rewrite scaled_value by lia. rewrite mult_IZR.
          replace (3 - E + E) with 3 by lia. bpow_const. lra. }
        assert (Hkr : 0 <= k < 2 ^ F32.prec).
        { pose proof (bpow_pos E) as HpE. split.
          - apply le_IZR. destruct Hrange as [H0 _]. rewrite Hk in H0. nra.
          - assert (0 <= n * 45 * 2 ^ (3 - E)); [|unfold k; lia].
            pose proof (pow2_pos (3 - E) ltac:(lia)). nia. }
        assert (HEr : SpecFloat.emin F32.prec F32.emax <= E <= F32.emax - F32.prec)
          by (split; [exact HE|exact HE']).
        eapply RN_exact_value with (prec := F32.prec) (emax := F32.emax) (m := k) (e := E); eauto with fmt.
      + set (k := Z.pos M * 2 ^ (E - 3) - n * 45).
        assert (Hk : SF2R d = (IZR k * bpow 3)%R).
        { rewrite Hdv. unfold k. rewrite minus_IZR, Rmult_minus_distr_r.
          rewrite scaled_value by lia. replace (E - 3 + 3) with E by lia.
          rewrite mult_IZR. bpow_const. lra. }
        assert (Hkr : 0 <= k < 2 ^ F32.prec).
        { rewrite Hk in Hrange. revert Hrange. bpow_const. intros [H0 H1]. split.
          - apply le_IZR. lra.
          - apply Z.lt_trans with 45; [|reflexivity]. apply lt_IZR. lra. }
        assert (HEr : SpecFloat.emin F32.prec F32.emax <= 3 <= F32.emax - F32.prec)
          by (split; discriminate).
        eapply RN_exact_value with (prec := F32.prec) (emax := F32.emax) (m := k) (e := 3); eauto with fmt. }
  destruct Hex as [Hfin Hval].
  split; [eapply RN_posfin; eauto; fmt|]. rewrite Hval. split; [exact Hrange|].
  exists n. split; [exact Hn|exact Hdv].
Qed.

Lemma wrap360_id (s : float) : posfin32 s -> (SF2R s < 360)%R ->
  f32_of_f64 (fmod (f64_of_f32 s) (F64.of_Z 360)) = s.
Proof.
  intros Hs Hlt. destruct (wrap360_spec s Hs) as (Hp & [H0 _] & n & Hn & Hv).
  apply (posfin_value_eq F32.prec F32.emax); fmt.
  rewrite Hv. assert (n = 0); [|subst n; simpl; lra].
  destruct (Z.eq_dec n 0) as [|Hne]; [assumption|].
  assert (1 <= IZR n)%R by (apply IZR_le; lia). lra.
Qed.

(** ** The hue *)

Lemma lit_3_10_eq : F32.lit 3 10 = S754_finite false 10066330 (-25).
Proof. vm_compute. reflexivity. Qed.

Lemma f360_eq : F32.of_Z 360 = S754_finite false 11796480 (-15).
Proof. vm_compute. reflexivity. Qed.

Lemma hue_step_spec (h : float) :
  posfin32 h -> (SF2R h < 360)%R ->
  let s := F32.add h (F32.lit 3 10) in
  posfin32 (hue_step h) /\ (0 <= SF2R (hue_step h) < 360)%R /\
  ((SF2R s < 360)%R -> hue_step h = s) /\
  ((360 <= SF2R s)%R -> SF2R (hue_step h) = (SF2R s - 360)%R).
Proof.
  intros Hh Hlt. cbv zeta. unfold hue_step. rewrite lit_3_10_eq.
  set (c := S754_finite false 10066330 (-25)).
  assert (Hc : posfin32 c) by reflexivity.
  assert (Hcv : SF2R c = (10066330 / 33554432)%R).
  { unfold c. cbn [SF2R cond_Zopp]. bpow_const. lra. }
  assert (Hrn : RN32 (SF2R h + SF2R c) (F32.add h c)) by (apply SFadd_posfin; fmt).
  set (top := S754_finite false 11829248 (-15)).
  assert (Htop : posfin32 top) by reflexivity.
  assert (Htopv : SF2R top = 361%R).
  { unfold top. cbn [SF2R cond_Zopp]. bpow_const. lra. }
  assert (Hs : posfin32 (F32.add h c) /\ (SF2R (F32.add h c) <= SF2R top)%R).
  { eapply RN_le_float; eauto; fmt. rewrite Hcv, Htopv. lra. }
  destruct Hs as [Hs Hsle]. rewrite Htopv in Hsle.
  set (s := F32.add h c) in *.
  destruct (wrap360_spec s Hs) as (Hp & Hrange & n & Hn & Hv).
  split; [exact Hp|]. split; [exact Hrange|]. split.
  - intros Hs360. apply wrap360_id; assumption.
  - intros Hs360. rewrite Hv. assert (n = 1); [|subst n; lra].
    destruct Hrange as [H0 H1]. rewrite Hv in H0, H1.
    destruct (Z.lt_trichotomy n 1) as [Hn0|[Hn1|Hn2]]; [|assumption|].
    + assert (n = 0) by lia. subst n. simpl in H1. lra.
    + assert (2 <= IZR n)%R by (apply IZR_le; lia). lra.
Qed.

(** X6: one update of the hue, from a hue in [0, 360): the sum
    [hue + 0.3f] is rounded to [float]; it is kept when it is below 360, and
    otherwise exactly 360 is taken off.  The new hue is again in [0, 360). *)
Theorem hue_step_wraps (h : float) :
  posfin32 h -> (SF2R h < 360)%R ->
  let s := F32.add h (F32.lit 3 10) in
  F32.lt (hue_step h) (F32.of_Z 360) = true /\ (0 <= SF2R (hue_step h) < 360)%R /\
  ((SF2R s < 360)%R -> hue_step h = s) /\
  ((360 <= SF2R s)%R -> SF2R (hue_step h) = (SF2R s - 360)%R).
Proof.
  intros Hh Hlt. cbv zeta. destruct (hue_step_spec h Hh Hlt) as (Hp & Hr & Hkeep & Hwrap).
  split; [|split; [exact Hr|split; assumption]].
  rewrite f360_eq. apply (lt_SFltb F32.prec F32.emax); fmt; [reflexivity|].
  cbn [SF2R cond_Zopp]. bpow_const. lra.
Qed.

Section Hue.
Context {platform : Platform}.

Lemma draw_visualization_hue st ticks : hue (fst (draw_visualization st ticks)) = hue st.
Proof.
  unfold draw_visualization, draw_particles.
  destruct (draw_particles_loop _ _ _ _). reflexivity.
Qed.

Lemma reachable_hue_posfin (st : VisualizerState) :
  reachable st -> posfin32 (hue st) /\ (SF2R (hue st) < 360)%R.
Proof.
  induction 1 as [|st samples ticks g _ [IH1 IH2]|st ticks _ IH].
  - split; [exact I|]. simpl. lra.
  - destruct (audio_callback_always st samples ticks g) as (_ & _ & ->).
    destruct (hue_step_spec (hue st) IH1 IH2) as (Hp & [_ Hlt] & _). split; assumption.
  - rewrite draw_visualization_hue. exact IH.
Qed.

(** X7: in every state of a run the hue is a finite [float] in [0, 360), so
    that the reduction modulo 360 at the head of [HSLtoRGB] leaves the hue
    the two draw functions pass as it is. *)
Theorem reachable_hue (st : VisualizerState) :
  reachable st ->
  F32.le F32.zero (hue st) = true /\ F32.lt (hue st) (F32.of_Z 360) = true /\
  (0 <= SF2R (hue st) < 360)%R /\
  f32_of_f64 (fmod (f64_of_f32 (hue st)) (F64.of_Z 360)) = hue st.
Proof.
  intros Hr. destruct (reachable_hue_posfin st Hr) as [Hp Hlt].
  split; [apply SFleb_zero_posfin with (prec := F32.prec) (emax := F32.emax); exact Hp|].
  split.
  - rewrite f360_eq. apply (lt_SFltb F32.prec F32.emax); fmt; [reflexivity|].
    cbn [SF2R cond_Zopp]. bpow_const. lra.
  - split; [split; [eapply posfin_nonneg; eauto|exact Hlt]|].
    apply wrap360_id; assumption.
Qed.

End Hue.

(** ** Levels: the energy of a buffer and the baseline *)

Lemma F32_of_Z_exact (z : Z) : 0 <= z < 2 ^ 24 ->
  posfin32 (F32.of_Z z) /\ SF2R (F32.of_Z z) = IZR z.
Proof.
  intros Hz. assert (Hrn : RN32 (IZR z) (F32.of_Z z)) by (apply F32_of_Z_RN; lia).
  assert (Hv : IZR z = (IZR z * bpow 0)%R) by (rewrite bpow_0; lra).
  assert (Hm : 0 <= z < 2 ^ F32.prec) by exact Hz.
  assert (He : SpecFloat.emin F32.prec F32.emax <= 0 <= F32.emax - F32.prec)
    by (split; discriminate).
  assert (Hex : is_finite (F32.of_Z z) = true /\ SF2R (F32.of_Z z) = IZR z)
    by (eapply RN_exact_value with (prec := F32.prec) (emax := F32.emax) (m := z) (e := 0);
        eauto with fmt).
  destruct Hex as [Hfin Hval]. split; [eapply RN_posfin; eauto; fmt|exact Hval].
Qed.

Lemma F64_of_Z_exact (z : Z) : 0 <= z < 2 ^ 53 ->
  posfin64 (F64.of_Z z) /\ SF2R (F64.of_Z z) = IZR z.
Proof.
  intros Hz. assert (Hrn : RN64 (IZR z) (F64.of_Z z)) by (apply F64_of_Z_RN; lia).
  assert (Hv : IZR z = (IZR z * bpow 0)%R) by (rewrite bpow_0; lra).
  assert (Hm : 0 <= z < 2 ^ F64.prec) by exact Hz.
  assert (He : SpecFloat.emin F64.prec F64.emax <= 0 <= F64.emax - F64.prec)
    by (split; discriminate).
  assert (Hex : is_finite (F64.of_Z z) = true /\ SF2R (F64.of_Z z) = IZR z)
    by (eapply RN_exact_value with (prec := F64.prec) (emax := F64.emax) (m := z) (e := 0);
        eauto with fmt).
  destruct Hex as [Hfin Hval]. split; [eapply RN_posfin; eauto; fmt|exact Hval].
Qed.

(** After [k] samples the running sum is at most [k]. *)
Lemma sum_step_count (sum : float) (s k : Z) :
  sum_ok sum -> (SF2R sum <= IZR k)%R -> 0 <= k -> is_Sint16 s = true ->
  (SF2R (sum_step sum s) <= IZR (k + 1))%R.
Proof.
  intros Hok Hk Hk0 Hs.
  destruct (sum_step_ok sum s Hok Hs) as [_ Hcap].
  destruct (Z.lt_ge_cases (k + 1) (2 ^ 24)) as [Hlt|Hge].
  - destruct Hok as [Hp _]. unfold sum_step.
    destruct (sample_term_bound s Hs) as [Hpt Hvt].
    set (t := F64.div (fabs (F64.of_Z s)) (f64_of_f32 (F32.of_Z 32768))) in *.
    destruct (f64_of_f32_posfin sum Hp) as [Hp64 Hv64].
    assert (Hadd : RN64 (SF2R (f64_of_f32 sum) + SF2R t) (F64.add (f64_of_f32 sum) t))
      by (apply SFadd_posfin; fmt).
    destruct (F64_of_Z_exact (k + 1)) as [Hc64 Hc64v].
    { split; [lia|]. apply Z.lt_trans with (2 ^ 24); [exact Hlt|reflexivity]. }
    destruct (F32_of_Z_exact (k + 1) ltac:(lia)) as [Hc32 Hc32v].
    assert (Ha : posfin64 (F64.add (f64_of_f32 sum) t) /\
                 (SF2R (F64.add (f64_of_f32 sum) t) <= SF2R (F64.of_Z (k + 1)))%R).
    { eapply RN_le_float; eauto; fmt. rewrite Hc64v, Hv64, plus_IZR. lra. }
    destruct Ha as [Hpa Hva].
    assert (Hr : RN32 (SF2R (F64.add (f64_of_f32 sum) t)) (f32_of_f64 (F64.add (f64_of_f32 sum) t)))
      by (apply f32_of_f64_RN; assumption).
    rewrite <- Hc32v. eapply RN_le_float; eauto; fmt. rewrite Hc32v, <- Hc64v. exact Hva.
  - eapply Rle_trans; [exact Hcap|]. apply IZR_le. change 16777216 with (2 ^ 24). lia.
Qed.

Lemma foldl_sum_step_count (samples : list Z) : forall (sum : float) (k : Z),
  sum_ok sum -> (SF2R sum <= IZR k)%R -> 0 <= k -> forallb is_Sint16 samples = true ->
  (SF2R (foldl sum_step sum samples) <= IZR (k + Z.of_nat (length samples)))%R.
Proof.
  induction samples as [|s rest IH]; intros sum k Hok Hk Hk0 Hall.
  - cbn [foldl length]. rewrite Z.add_0_r. exact Hk.
  - cbn [forallb] in Hall. apply andb_prop in Hall as [Hs Hrest]. cbn [foldl length].
    replace (k + Z.of_nat (S (length rest))) with (k + 1 + Z.of_nat (length rest)) by lia.
    apply IH; [apply sum_step_ok; assumption|apply sum_step_count; assumption|lia|assumption].
Qed.

Lemma one32_eq : F32.of_Z 1 = S754_finite false 8388608 (-23).
Proof. vm_compute. reflexivity. Qed.

Lemma buffer_energy_bound (samples : list Z) :
  samples <> [] -> forallb is_Sint16 samples = true ->
  posfin32 (buffer_energy samples) /\ (SF2R (buffer_energy samples) <= 1)%R.
Proof.
  intros Hne Hall.
  pose proof (buffer_energy_posfin samples Hne Hall) as Hpe.
  assert (H1 : posfin32 (F32.of_Z 1)) by reflexivity.
  assert (H1v : SF2R (F32.of_Z 1) = 1%R).
  { rewrite one32_eq. cbn [SF2R cond_Zopp]. bpow_const. lra. }
  assert (Hle : (SF2R (buffer_energy samples) <= 1)%R).
  { destruct (buffer_sum_ok samples Hall) as [Hp Hcap].
    assert (Hcnt : (SF2R (buffer_sum samples) <= IZR (Z.of_nat (length samples)))%R).
    { apply (foldl_sum_step_count samples F32.zero 0); [|simpl; lra|lia|assumption].
      split; [reflexivity|]. simpl. lra. }
    pose proof (posfin_nonneg _ _ _ Hp) as Hnn.
    unfold buffer_energy in *. set (N := Z.of_nat (length samples)) in *.
    assert (HN : 1 <= N) by (unfold N; destruct samples; [congruence|]; cbn [length]; lia).
    destruct (count_float N HN) as [Hinf|(m & e & Heq & Hb & Hge)].
    - rewrite Hinf.
      destruct (buffer_sum samples) as [[]|?| |[] ? ?]; try contradiction; simpl; lra.
    - rewrite Heq in *.
      assert (Hq : RN32 (SF2R (buffer_sum samples) / SF2R (S754_finite false m e))
                     (F32.div (buffer_sum samples) (S754_finite false m e)))
        by (apply SFdiv_posfin; fmt).
      assert (Hden : (SF2R (buffer_sum samples) <= SF2R (S754_finite false m e))%R).
      { destruct (Z.lt_ge_cases N (2 ^ 24)) as [Hlt|Hbig].
        - destruct (F32_of_Z_exact N ltac:(lia)) as [_ HNv]. rewrite Heq in HNv.
          rewrite HNv. exact Hcnt.
        - eapply Rle_trans; [exact Hcap|].
          assert (Hrn : RN32 (IZR N) (F32.of_Z N)) by (apply F32_of_Z_RN; lia).
          rewrite Heq in Hrn.
          set (c := S754_finite false 8388608 1).
          assert (Hc : posfin32 c) by reflexivity.
          assert (Hcv : SF2R c = 16777216%R).
          { unfold c. cbn [SF2R cond_Zopp]. bpow_const. lra. }
          rewrite <- Hcv. eapply RN_ge_float; eauto; fmt.
          rewrite Hcv. apply IZR_le. change 16777216 with (2 ^ 24). lia. }
      rewrite <- H1v. eapply RN_le_float; eauto; fmt. rewrite H1v.
      apply Rmult_le_reg_r with (SF2R (S754_finite false m e)); [lra|].
      unfold Rdiv. rewrite Rmult_assoc, Rinv_l by lra. lra. }
  split; assumption.
Qed.

(** X8: the energy of a buffer of [Sint16] samples is a finite [float]
    between 0 and 1: the amplitude the callback stores is normalised. *)
Theorem buffer_energy_unit (samples : list Z) :
  samples <> [] -> forallb is_Sint16 samples = true ->
  is_finite (buffer_energy samples) = true /\
  (0 <= SF2R (buffer_energy samples) <= 1)%R /\
  F32.le F32.zero (buffer_energy samples) = true /\
  F32.le (buffer_energy samples) (F32.of_Z 1) = true.
Proof.
  intros Hne Hall. destruct (buffer_energy_bound samples Hne Hall) as [Hpe Hle].
  assert (H1 : posfin32 (F32.of_Z 1)) by reflexivity.
  assert (H1v : SF2R (F32.of_Z 1) = 1%R).
  { rewrite one32_eq. cbn [SF2R cond_Zopp]. bpow_const. lra. }
  split; [apply (posfin_finite F32.prec F32.emax); exact Hpe|].
  split; [split; [eapply posfin_nonneg; eauto|exact Hle]|].
  split; [apply SFleb_zero_posfin with (prec := F32.prec) (emax := F32.emax); exact Hpe|].
  apply (le_SFleb F32.prec F32.emax); fmt. rewrite H1v. exact Hle.
Qed.

Lemma Rabs_le_lower u v d : (Rabs (u - v) <= d)%R -> (v - d <= u)%R.
Proof. unfold Rabs. destruct (Rcase_abs (u - v)); lra. Qed.

Lemma one64_eq : F64.of_Z 1 = S754_finite false 4503599627370496 (-52).
Proof. vm_compute. reflexivity. Qed.

(** The baseline update keeps the unit interval. *)
Lemma ema_update_unit (b e : float) :
  posfin32 b -> (SF2R b <= 1)%R -> posfin32 e -> (SF2R e <= 1)%R ->
  posfin32 (ema_update b e) /\ (SF2R (ema_update b e) <= 1)%R.
Proof.
  intros Hb Hb1 He He1. unfold ema_update. rewrite lit_9_10_eq, lit_1_10_eq.
  set (c9 := S754_finite false 15099494 (-24)). set (c1 := S754_finite false 13421773 (-27)).
  assert (Hc9 : posfin32 c9) by reflexivity. assert (Hc1 : posfin32 c1) by reflexivity.
  assert (Hc9v : SF2R c9 = (15099494 / 16777216)%R).
  { unfold c9. cbn [SF2R cond_Zopp]. bpow_const. lra. }
  assert (Hc1v : SF2R c1 = (13421773 / 134217728)%R).
  { unfold c1. cbn [SF2R cond_Zopp]. bpow_const. lra. }
  pose proof (posfin_nonneg _ _ _ Hb) as Hb0. pose proof (posfin_nonneg _ _ _ He) as He0.
  assert (Hp : RN32 (SF2R c9 * SF2R b) (F32.mul c9 b)) by (apply SFmul_posfin; fmt).
  assert (Hq : RN32 (SF2R c1 * SF2R e) (F32.mul c1 e)) by (apply SFmul_posfin; fmt).
  assert (Hpl : posfin32 (F32.mul c9 b) /\ (SF2R (F32.mul c9 b) <= SF2R c9)%R).
  { eapply RN_le_float; eauto; fmt. rewrite Hc9v. nra. }
  assert (Hql : posfin32 (F32.mul c1 e) /\ (SF2R (F32.mul c1 e) <= SF2R c1)%R).
  { eapply RN_le_float; eauto; fmt. rewrite Hc1v. nra. }
  destruct Hpl as [Hpp Hpv]. destruct Hql as [Hqp Hqv].
  assert (Hs : RN32 (SF2R (F32.mul c9 b) + SF2R (F32.mul c1 e))
                 (F32.add (F32.mul c9 b) (F32.mul c1 e))) by (apply SFadd_posfin; fmt).
  assert (H1 : posfin32 (F32.of_Z 1)) by reflexivity.
  assert (H1v : SF2R (F32.of_Z 1) = 1%R).
  { rewrite one32_eq. cbn [SF2R cond_Zopp]. bpow_const. lra. }
  rewrite <- H1v. eapply RN_le_float; eauto; fmt. rewrite H1v. lra.
Qed.

Section Levels.
Context {platform : Platform}.

Lemma run_reachable (st : VisualizerState) : run st -> reachable st.
Proof.
  induction 1; [apply reachable_init|apply reachable_callback|apply reachable_frame]; assumption.
Qed.

Lemma draw_visualization_amplitude st ticks :
  amplitude (fst (draw_visualization st ticks)) = amplitude st.
Proof.
  unfold draw_visualization, draw_particles.
  destruct (draw_particles_loop _ _ _ _). reflexivity.
Qed.

Lemma run_levels_posfin (st : VisualizerState) : run st ->
  (posfin32 (amplitude st) /\ (SF2R (amplitude st) <= 1)%R) /\
  (posfin32 (beat_energy st) /\ (SF2R (beat_energy st) <= 1)%R).
Proof.
  induction 1 as [|st samples ticks g _ [_ [IHb IHb1]] Hne Hall|st ticks _ IH].
  - split; (split; [exact I|simpl; lra]).
  - destruct (audio_callback_always st samples ticks g) as (-> & -> & _).
    destruct (buffer_energy_bound samples Hne Hall) as [Hp Hle].
    split; [split; assumption|]. apply ema_update_unit; assumption.
  - rewrite draw_visualization_amplitude, draw_visualization_beat_energy. exact IH.
Qed.

(** X9: along every run on [Sint16] buffers the amplitude and the baseline are
    finite and lie between 0 and 1. *)
Theorem run_levels (st : VisualizerState) :
  run st ->
  F32.le F32.zero (amplitude st) = true /\ F32.le (amplitude st) (F32.of_Z 1) = true /\
  F32.le F32.zero (beat_energy st) = true /\ F32.le (beat_energy st) (F32.of_Z 1) = true.
Proof.
  intros Hr. destruct (run_levels_posfin st Hr) as [[Ha Ha1] [Hb Hb1]].
  assert (H1 : posfin32 (F32.of_Z 1)) by reflexivity.
  assert (H1v : SF2R (F32.of_Z 1) = 1%R).
  { rewrite one32_eq. cbn [SF2R cond_Zopp]. bpow_const. lra. }
  split; [apply SFleb_zero_posfin with (prec := F32.prec) (emax := F32.emax); exact Ha|].
  split; [apply (le_SFleb F32.prec F32.emax); fmt; rewrite H1v; exact Ha1|].
  split; [apply SFleb_zero_posfin with (prec := F32.prec) (emax := F32.emax); exact Hb|].
  apply (le_SFleb F32.prec F32.emax); fmt; rewrite H1v; exact Hb1.
Qed.

End Levels.

(** ** The effective threshold *)

Lemma sum_step_mono (sum : float) (s : Z) :
  sum_ok sum -> is_Sint16 s = true -> (SF2R sum <= SF2R (sum_step sum s))%R.
Proof.
  intros Hok Hs. destruct (sum_step_ok sum s Hok Hs) as [Hp' _].
  destruct Hok as [Hp Hcap]. unfold sum_step in *.
  destruct (sample_term_bound s Hs) as [Hpt Hvt].
  set (t := F64.div (fabs (F64.of_Z s)) (f64_of_f32 (F32.of_Z 32768))) in *.
  destruct (f64_of_f32_posfin sum Hp) as [Hp64 Hv64].
  pose proof (posfin_nonneg _ _ _ Hpt) as Ht0.
  assert (Hadd : RN64 (SF2R (f64_of_f32 sum) + SF2R t) (F64.add (f64_of_f32 sum) t))
    by (apply SFadd_posfin; fmt).
  set (c := S754_finite false 4503599895805952 (-28)).
  assert (Hc : posfin64 c) by reflexivity.
  assert (Hcv : SF2R c = 16777217%R).
  { unfold c. cbn [SF2R cond_Zopp]. bpow_const. lra. }
  assert (Ha : posfin64 (F64.add (f64_of_f32 sum) t) /\
               (SF2R (F64.add (f64_of_f32 sum) t) <= SF2R c)%R).
  { eapply RN_le_float; eauto; fmt. rewrite Hcv, Hv64. lra. }
  destruct Ha as [Hpa _].
  assert (Hge64 : (SF2R (f64_of_f32 sum) <= SF2R (F64.add (f64_of_f32 sum) t))%R).
  { eapply RN_ge_float with (prec := F64.prec) (emax := F64.emax); eauto with fmt.
    - lra.
    - eapply posfin_finite; eauto. }
  assert (Hr : RN32 (SF2R (F64.add (f64_of_f32 sum) t)) (f32_of_f64 (F64.add (f64_of_f32 sum) t)))
    by (apply f32_of_f64_RN; assumption).
  eapply RN_ge_float with (prec := F32.prec) (emax := F32.emax); eauto with fmt.
  - rewrite <- Hv64. exact Hge64.
  - eapply posfin_finite; eauto.
Qed.

(** A sample that is not zero brings the sum to [2 ^ -15] at least. *)
Lemma sum_step_nonzero (sum : float) (s : Z) :
  sum_ok sum -> is_Sint16 s = true -> s <> 0 ->
  (/ 32768 <= SF2R (sum_step sum s))%R.
Proof.
  intros Hok Hs Hnz. destruct (sum_step_ok sum s Hok Hs) as [Hp' _].
  destruct Hok as [Hp Hcap]. unfold sum_step in *.
  destruct (sample_term_bound s Hs) as [Hpt Hvt].
  assert (Htlo : (/ 32768 <= SF2R (F64.div (fabs (F64.of_Z s)) (f64_of_f32 (F32.of_Z 32768))))%R).
  { revert Hpt. rewrite fabs_of_Z, c32768_eq. intros Hpt.
    set (c := S754_finite false 4503599627370496 (-37)) in *.
    assert (Hcv : SF2R c = 32768%R) by (unfold c; cbn [SF2R cond_Zopp]; bpow_const; lra).
    assert (Hrn : RN64 (IZR (Z.abs s)) (F64.of_Z (Z.abs s))) by (apply F64_of_Z_RN; lia).
    unfold is_Sint16 in Hs. apply andb_prop in Hs as [H1 H2].
    apply Z.leb_le in H1. apply Z.leb_le in H2.
    destruct (F64_of_Z_exact (Z.abs s)) as [Hpa Hva].
    { split; [lia|]. apply Z.le_lt_trans with 32768; [lia|reflexivity]. }
    assert (Hq : RN64 (SF2R (F64.of_Z (Z.abs s)) / SF2R c) (F64.div (F64.of_Z (Z.abs s)) c))
      by (apply SFdiv_posfin; fmt).
    set (lo := S754_finite false 4503599627370496 (-67)).
    assert (Hlo : posfin64 lo) by reflexivity.
    assert (Hlov : SF2R lo = (/ 32768)%R) by (unfold lo; cbn [SF2R cond_Zopp]; bpow_const; lra).
    rewrite <- Hlov.
    eapply RN_ge_float with (prec := F64.prec) (emax := F64.emax); eauto with fmt.
    - rewrite Hlov, Hva, Hcv. assert (1 <= IZR (Z.abs s))%R by (apply IZR_le; lia). lra.
    - eapply posfin_finite; eauto. }
  set (t := F64.div (fabs (F64.of_Z s)) (f64_of_f32 (F32.of_Z 32768))) in *.
  destruct (f64_of_f32_posfin sum Hp) as [Hp64 Hv64].
  pose proof (posfin_nonneg _ _ _ Hp) as Hs0.
  assert (Hadd : RN64 (SF2R (f64_of_f32 sum) + SF2R t) (F64.add (f64_of_f32 sum) t))
    by (apply SFadd_posfin; fmt).
  set (c := S754_finite false 4503599895805952 (-28)).
  assert (Hc : posfin64 c) by reflexivity.
  assert (Hcv : SF2R c = 16777217%R).
  { unfold c. cbn [SF2R cond_Zopp]. bpow_const. lra. }
  assert (Ha : posfin64 (F64.add (f64_of_f32 sum) t) /\
               (SF2R (F64.add (f64_of_f32 sum) t) <= SF2R c)%R).
  { eapply RN_le_float; eauto; fmt. rewrite Hcv, Hv64. lra. }
  destruct Ha as [Hpa _].
  assert (Hge64 : (SF2R t <= SF2R (F64.add (f64_of_f32 sum) t))%R).
  { eapply RN_ge_float with (prec := F64.prec) (emax := F64.emax); eauto with fmt.
    - rewrite Hv64. lra.
    - eapply posfin_finite; eauto. }
  assert (Hr : RN32 (SF2R (F64.add (f64_of_f32 sum) t)) (f32_of_f64 (F64.add (f64_of_f32 sum) t)))
    by (apply f32_of_f64_RN; assumption).
  set (lo := S754_finite false 8388608 (-38)).
  assert (Hlo : posfin32 lo) by reflexivity.
  assert (Hlov : SF2R lo = (/ 32768)%R) by (unfold lo; cbn [SF2R cond_Zopp]; bpow_const; lra).
  rewrite <- Hlov.
  eapply RN_ge_float with (prec := F32.prec) (emax := F32.emax); eauto with fmt.
  - rewrite Hlov. lra.
  - eapply posfin_finite; eauto.
Qed.

Lemma foldl_sum_step_mono (samples : list Z) : forall sum : float,
  sum_ok sum -> forallb is_Sint16 samples = true ->
  (SF2R sum <= SF2R (foldl sum_step sum samples))%R.
Proof.
  induction samples as [|s rest IH]; intros sum Hok Hall; [cbn [foldl]; lra|].
  cbn [forallb] in Hall. apply andb_prop in Hall as [Hs Hrest]. cbn [foldl].
  eapply Rle_trans; [apply (sum_step_mono sum s); assumption|].
  apply IH; [apply sum_step_ok; assumption|assumption].
Qed.

Lemma foldl_sum_step_lower (samples : list Z) : forall sum : float,
  sum_ok sum -> forallb is_Sint16 samples = true -> forallb (Z.eqb 0) samples = false ->
  (/ 32768 <= SF2R (foldl sum_step sum samples))%R.
Proof.
  induction samples as [|s rest IH]; intros sum Hok Hall Hnz; [discriminate|].
  cbn [forallb] in Hall, Hnz. apply andb_prop in Hall as [Hs Hrest]. cbn [foldl].
  destruct (Z.eqb_spec 0 s) as [<-|Hne].
  - apply IH; [apply sum_step_ok; assumption|assumption|exact Hnz].
  - eapply Rle_trans; [apply (sum_step_nonzero sum s); [assumption|assumption|congruence]|].
    apply foldl_sum_step_mono; [apply sum_step_ok; assumption|assumption].
Qed.

(** A buffer with positive energy has a sample that is not zero. *)
Lemma positive_energy_sample (samples : list Z) :
  F32.lt F32.zero (buffer_energy samples) = true ->
  samples <> [] /\ forallb (Z.eqb 0) samples = false.
Proof.
  intros Hpos.
  assert (Hne : samples <> []) by (intros ->; vm_compute in Hpos; discriminate).
  split; [exact Hne|].
  destruct (forallb (Z.eqb 0) samples) eqn:Hz; [|reflexivity].
  rewrite forallb_lookup in Hz.
  rewrite buffer_energy_silent in Hpos; [discriminate|exact Hne|].
  intros s Hs. apply list_elem_of_lookup in Hs as [i Hi].
  symmetry. apply Z.eqb_eq. eapply Hz, Hi.
Qed.

(** The positive energies of the buffers an [int] can count are at least
    [2 ^ -46]. *)
Lemma buffer_energy_lower (samples : list Z) :
  forallb is_Sint16 samples = true -> Z.of_nat (length samples) < 2 ^ 31 ->
  F32.lt F32.zero (buffer_energy samples) = true ->
  (bpow (-46) <= SF2R (buffer_energy samples))%R.
Proof.
  intros Hall Hlen Hpos. destruct (positive_energy_sample samples Hpos) as [Hne Hnz].
  pose proof (buffer_energy_posfin samples Hne Hall) as Hpe.
  destruct (buffer_sum_ok samples Hall) as [Hp Hcap].
  assert (Hsum : (/ 32768 <= SF2R (buffer_sum samples))%R).
  { apply foldl_sum_step_lower; [|assumption|assumption]. split; [reflexivity|]. simpl. lra. }
  unfold buffer_energy in *. set (N := Z.of_nat (length samples)) in *.
  assert (HN : 1 <= N) by (unfold N; destruct samples; [congruence|]; cbn [length]; lia).
  assert (Hrn : RN32 (IZR N) (F32.of_Z N)) by (apply F32_of_Z_RN; lia).
  set (top := S754_finite false 8388608 8).
  assert (Htop : posfin32 top) by reflexivity.
  assert (Htopv : SF2R top = 2147483648%R) by (unfold top; cbn [SF2R cond_Zopp]; bpow_const; lra).
  assert (HNf : posfin32 (F32.of_Z N) /\ (SF2R (F32.of_Z N) <= SF2R top)%R).
  { eapply RN_le_float; eauto; fmt. rewrite Htopv. apply IZR_le.
    change 2147483648 with (2 ^ 31). lia. }
  destruct HNf as [HNp HNle]. rewrite Htopv in HNle.
  destruct (count_float N HN) as [Hinf|(m & e & Heq & Hb & Hge)].
  { rewrite Hinf in HNp. contradiction. }
  rewrite Heq in *.
  assert (Hq : RN32 (SF2R (buffer_sum samples) / SF2R (S754_finite false m e))
                 (F32.div (buffer_sum samples) (S754_finite false m e)))
    by (apply SFdiv_posfin; fmt).
  set (lo := S754_finite false 8388608 (-69)).
  assert (Hlo : posfin32 lo) by reflexivity.
  assert (Hlov : SF2R lo = bpow (-46)).
  { unfold lo. cbn [SF2R cond_Zopp]. change (-46) with (23 + -69). rewrite bpow_add.
    f_equal. rewrite bpow_pos_pos. reflexivity. }
  rewrite <- Hlov.
  eapply RN_ge_float with (prec := F32.prec) (emax := F32.emax); eauto with fmt.
  - rewrite Hlov. set (d := SF2R (S754_finite false m e)) in *.
    apply Rle_trans with (/ 32768 / 2147483648)%R.
    + bpow_const. lra.
    + assert (Hinv : (/ 2147483648 <= / d)%R) by (apply Rinv_le_contravar; lra).
      unfold Rdiv. apply Rmult_le_compat; lra.
  - eapply posfin_finite; eauto.
Qed.

(** The onset test in terms of the baseline the callback found: with
    [b' = 0.9 b + 0.1 e] the test [e > 1.4 b'] amounts to
    [e > (1.26 / 0.86) b], about [1.465 b], up to rounding. *)
Lemma threshold_bounds (b e : float) :
  posfin32 b -> (SF2R b <= 1)%R -> posfin32 e -> (SF2R e <= 1)%R ->
  (bpow (-126) <= SF2R e)%R ->
  ((1466 / 1000 * SF2R b <= SF2R e)%R -> exceeds_threshold e (ema_update b e) = true) /\
  ((SF2R e <= 1465 / 1000 * SF2R b)%R -> exceeds_threshold e (ema_update b e) = false).
Proof.
  intros Hb Hb1 He He1 Hnorm.
  destruct (ema_update_unit b e Hb Hb1 He He1) as [Hsp Hs1].
  unfold exceeds_threshold. revert Hsp Hs1. unfold ema_update.
  rewrite lit_9_10_eq, lit_1_10_eq, BEAT_THRESHOLD_eq.
  set (c9 := S754_finite false 15099494 (-24)). set (c1 := S754_finite false 13421773 (-27)).
  set (c14 := S754_finite false 6305039478318694 (-52)).
  intros Hsp Hs1.
  assert (Hc9 : posfin32 c9) by reflexivity. assert (Hc1 : posfin32 c1) by reflexivity.
  assert (Hc14 : posfin64 c14) by reflexivity.
  assert (Hc9v : SF2R c9 = (15099494 / 16777216)%R).
  { unfold c9. cbn [SF2R cond_Zopp]. bpow_const. lra. }
  assert (Hc1v : SF2R c1 = (13421773 / 134217728)%R).
  { unfold c1. cbn [SF2R cond_Zopp]. bpow_const. lra. }
  assert (Hc14v : SF2R c14 = (6305039478318694 / 4503599627370496)%R).
  { unfold c14. cbn [SF2R cond_Zopp]. bpow_const. lra. }
  pose proof (posfin_nonneg _ _ _ Hb) as Hb0. pose proof (posfin_nonneg _ _ _ He) as He0.
  assert (Hp : RN32 (SF2R c9 * SF2R b) (F32.mul c9 b)) by (apply SFmul_posfin; fmt).
  assert (Hq : RN32 (SF2R c1 * SF2R e) (F32.mul c1 e)) by (apply SFmul_posfin; fmt).
  assert (Hpl : posfin32 (F32.mul c9 b) /\ (SF2R (F32.mul c9 b) <= SF2R c9)%R).
  { eapply RN_le_float; eauto; fmt. rewrite Hc9v. nra. }
  assert (Hql : posfin32 (F32.mul c1 e) /\ (SF2R (F32.mul c1 e) <= SF2R c1)%R).
  { eapply RN_le_float; eauto; fmt. rewrite Hc1v. nra. }
  destruct Hpl as [Hpp _]. destruct Hql as [Hqp _].
  set (p := F32.mul c9 b) in *. set (q := F32.mul c1 e) in *.
  assert (Hs : RN32 (SF2R p + SF2R q) (F32.add p q)) by (apply SFadd_posfin; fmt).
  set (s := F32.add p q) in *.
  assert (Hperr : (Rabs (SF2R p - SF2R c9 * SF2R b)
                   <= SF2R c9 * SF2R b * bpow (-24) + bpow (-149) / 2)%R).
  { apply (RN_err F32.prec F32.emax); fmt. eapply posfin_finite; eauto. }
  assert (Hqerr : (Rabs (SF2R q - SF2R c1 * SF2R e)
                   <= SF2R c1 * SF2R e * bpow (-24) + bpow (-149) / 2)%R).
  { apply (RN_err F32.prec F32.emax); fmt. eapply posfin_finite; eauto. }
  assert (Hserr : (Rabs (SF2R s - (SF2R p + SF2R q))
                   <= (SF2R p + SF2R q) * bpow (-24) + bpow (-149) / 2)%R).
  { apply (RN_err F32.prec F32.emax); fmt. eapply posfin_finite; eauto. }
  destruct (f64_of_f32_posfin s Hsp) as [Hs64 Hs64v].
  destruct (f64_of_f32_posfin e He) as [He64 He64v].
  assert (Ht : RN64 (SF2R (f64_of_f32 s) * SF2R c14) (F64.mul (f64_of_f32 s) c14))
    by (apply SFmul_posfin; fmt).
  set (two := S754_finite false 4503599627370496 (-51)).
  assert (Htwo : posfin64 two) by reflexivity.
  assert (Htwov : SF2R two = 2%R) by (unfold two; cbn [SF2R cond_Zopp]; bpow_const; lra).
  pose proof (posfin_nonneg _ _ _ Hsp) as Hs0.
  assert (Htl : posfin64 (F64.mul (f64_of_f32 s) c14) /\
                (SF2R (F64.mul (f64_of_f32 s) c14) <= SF2R two)%R).
  { eapply RN_le_float; eauto; fmt. rewrite Htwov, Hs64v, Hc14v. lra. }
  destruct Htl as [Htp _].
  assert (Hterr : (Rabs (SF2R (F64.mul (f64_of_f32 s) c14) - SF2R (f64_of_f32 s) * SF2R c14)
                   <= SF2R (f64_of_f32 s) * SF2R c14 * bpow (-53) + bpow (-1074) / 2)%R).
  { apply (RN_err F64.prec F64.emax); fmt. eapply posfin_finite; eauto. }
  set (t := F64.mul (f64_of_f32 s) c14) in *.
  rewrite Hs64v, Hc14v in Hterr. rewrite Hc9v in Hperr. rewrite Hc1v in Hqerr.
  assert (Hu : (bpow (-149) * 8388608 = bpow (-126))%R).
  { change (-126) with (-149 + 23). rewrite bpow_add. f_equal. rewrite bpow_pos_pos. reflexivity. }
  assert (Hw : (bpow (-1074) <= bpow (-149))%R) by (apply bpow_le; lia).
  pose proof (bpow_pos (-1074)) as Hw0.
  pose proof (Rabs_le_upper _ _ _ Hperr) as Hp_hi. pose proof (Rabs_le_lower _ _ _ Hperr) as Hp_lo.
  pose proof (Rabs_le_upper _ _ _ Hqerr) as Hq_hi. pose proof (Rabs_le_lower _ _ _ Hqerr) as Hq_lo.
  pose proof (Rabs_le_upper _ _ _ Hserr) as Hs_hi. pose proof (Rabs_le_lower _ _ _ Hserr) as Hs_lo.
  pose proof (Rabs_le_upper _ _ _ Hterr) as Ht_hi. pose proof (Rabs_le_lower _ _ _ Hterr) as Ht_lo.
  clear Hperr Hqerr Hserr Hterr.
  pose proof (posfin_nonneg _ _ _ Hpp) as Hp0. pose proof (posfin_nonneg _ _ _ Hqp) as Hq0.
  split.
  - intros Hhi. apply (lt_SFltb F64.prec F64.emax); fmt. rewrite He64v.
    generalize dependent (bpow (-149)). generalize dependent (bpow (-1074)).
    generalize dependent (bpow (-126)). intros. bpow_const. lra.
  - intros Hlo. destruct (F64.lt t (f64_of_f32 e)) eqn:Hcmp; [|reflexivity].
    apply (SFltb_lt F64.prec F64.emax) in Hcmp; fmt. rewrite He64v in Hcmp.
    generalize dependent (bpow (-149)). generalize dependent (bpow (-1074)).
    generalize dependent (bpow (-126)). intros. bpow_const. lra.
Qed.

Section Threshold.
Context {platform : Platform}.

(** X10: seen from the baseline [b] the callback finds, the onset test has the
    threshold [1.26 / 0.86] (about 1.465) rather than 1.4: along a run, a
    buffer of positive energy [e] signals an onset when [e >= 1.466 b] and
    none when [e <= 1.465 b]. *)
Theorem effective_threshold (st : VisualizerState) (samples : list Z) :
  run st ->
  forallb is_Sint16 samples = true -> Z.of_nat (length samples) < 2 ^ 31 ->
  F32.lt F32.zero (buffer_energy samples) = true ->
  ((1466 / 1000 * SF2R (beat_energy st) <= SF2R (buffer_energy samples))%R ->
   beat_onset st samples = true) /\
  ((SF2R (buffer_energy samples) <= 1465 / 1000 * SF2R (beat_energy st))%R ->
   beat_onset st samples = false).
Proof.
  intros Hr Hall Hlen Hpos.
  destruct (run_levels_posfin st Hr) as [_ [Hb Hb1]].
  destruct (positive_energy_sample samples Hpos) as [Hne _].
  destruct (buffer_energy_bound samples Hne Hall) as [He He1].
  pose proof (buffer_energy_lower samples Hall Hlen Hpos) as Hlo.
  assert (Hnorm : (bpow (-126) <= SF2R (buffer_energy samples))%R).
  { eapply Rle_trans; [|exact Hlo]. apply bpow_le. lia. }
  unfold beat_onset. cbv zeta. apply threshold_bounds; assumption.
Qed.

End Threshold.

(** ** The colours are defined *)

Lemma SFabs_binary_round prec emax sx m e :
  SFabs (binary_round prec emax sx m e) = binary_round prec emax false m e.
Proof.
  unfold binary_round. destruct (shl_align m e _) as [mz ez]. apply SFabs_binary_round_aux.
Qed.

Lemma SFabs_binary_normalize prec emax z e :
  SFabs (binary_normalize prec emax z e false) = binary_normalize prec emax (Z.abs z) e false.
Proof. destruct z; cbn [binary_normalize Z.abs]; [reflexivity|apply SFabs_binary_round..]. Qed.

Lemma SFabs_posfin prec emax f : posfin prec emax f -> SFabs f = f.
Proof. destruct f as [[]|?| |[] m e]; simpl; try contradiction; reflexivity. Qed.

(** Subtraction of a smaller from a larger non-negative float rounds the
    difference. *)
Lemma SFsub_RN_ge prec emax a b : 0 < prec -> prec < emax ->
  posfin prec emax a -> posfin prec emax b -> (SF2R b <= SF2R a)%R ->
  RN prec emax (SF2R a - SF2R b) (SFsub prec emax a b).
Proof.
  intros Hprec Hemax Ha Hb Hle.
  destruct a as [[]|?| |[] ma ea], b as [[]|?| |[] mb eb]; try contradiction.
  - cbn [SFsub SF2R]. rewrite Rminus_0_r. apply RN_zero; assumption.
  - exfalso. cbn [SF2R cond_Zopp] in Hle. pose proof (bpow_pos eb).
    assert (0 < IZR (Z.pos mb))%R by (apply IZR_lt; lia). nra.
  - cbn [SFsub]. change (SF2R (S754_zero false)) with 0%R. rewrite Rminus_0_r.
    apply RN_float; assumption.
  - cbn [SFsub SF2R cond_Zopp] in *.
    pose proof (shl_align_spec ma ea (Z.min ea eb)) as [_ Hfa].
    pose proof (shl_align_spec mb eb (Z.min ea eb)) as [_ Hfb].
    replace (Z.min ea (Z.min ea eb)) with (Z.min ea eb) in Hfa by lia.
    replace (Z.min eb (Z.min ea eb)) with (Z.min ea eb) in Hfb by lia.
    set (pa := fst (shl_align ma ea (Z.min ea eb))) in *.
    set (pb := fst (shl_align mb eb (Z.min ea eb))) in *.
    set (e := Z.min ea eb) in *.
    assert (Hva : (IZR (Z.pos ma) * bpow ea = IZR (Z.pos pa) * bpow e)%R).
    { rewrite Hfa, scaled_value by (unfold e; lia). f_equal. f_equal. lia. }
    assert (Hvb : (IZR (Z.pos mb) * bpow eb = IZR (Z.pos pb) * bpow e)%R).
    { rewrite Hfb, scaled_value by (unfold e; lia). f_equal. f_equal. lia. }
    rewrite Hva, Hvb in *. pose proof (bpow_pos e) as Hpe.
    assert (Hz : 0 <= Z.pos pa - Z.pos pb).
    { assert (Hab : (IZR (Z.pos pb) <= IZR (Z.pos pa))%R) by nra. apply le_IZR in Hab. lia. }
    replace (IZR (Z.pos pa) * bpow e - IZR (Z.pos pb) * bpow e)%R
      with (IZR (Z.pos pa - Z.pos pb) * bpow e)%R by (rewrite minus_IZR; ring).
    apply binary_normalize_RN_at; assumption.
Qed.

Lemma SFabs_SFsub_swap prec emax a b : posfin prec emax a -> posfin prec emax b ->
  SFabs (SFsub prec emax a b) = SFabs (SFsub prec emax b a).
Proof.
  intros Ha Hb.
  destruct a as [[]|?| |[] ma ea], b as [[]|?| |[] mb eb]; try contradiction; try reflexivity.
  cbn [SFsub cond_Zopp]. rewrite !SFabs_binary_normalize, (Z.min_comm eb ea).
  set (pa := Z.pos (fst (shl_align ma ea (Z.min ea eb)))).
  set (pb := Z.pos (fst (shl_align mb eb (Z.min ea eb)))).
  replace (pb - pa) with (- (pa - pb)) by lia. rewrite Z.abs_opp. reflexivity.
Qed.

(** A rounded non-negative value has its sign bit clear. *)
Lemma SFabs_RN prec emax v r : RN prec emax v r -> SFabs r = r.
Proof.
  intros (x & y & ex & _ & _ & ->). unfold round_pos, mkfloat.
  repeat match goal with |- context [if ?c then _ else _] => destruct c end; reflexivity.
Qed.

(** The absolute difference of two non-negative floats, rounded. *)
Lemma fabs_sub_RN prec emax a b : 0 < prec -> prec < emax ->
  posfin prec emax a -> posfin prec emax b ->
  RN prec emax (Rabs (SF2R a - SF2R b)) (SFabs (SFsub prec emax a b)).
Proof.
  intros Hprec Hemax Ha Hb. destruct (Rle_lt_dec (SF2R b) (SF2R a)) as [Hle|Hlt].
  - pose proof (SFsub_RN_ge prec emax a b Hprec Hemax Ha Hb Hle) as Hrn.
    rewrite Rabs_pos_eq by lra. rewrite (SFabs_RN _ _ _ _ Hrn). exact Hrn.
  - rewrite SFabs_SFsub_swap by assumption.
    pose proof (SFsub_RN_ge prec emax b a Hprec Hemax Hb Ha ltac:(lra)) as Hrn.
    rewrite Rabs_left1 by lra. replace (- (SF2R a - SF2R b))%R with (SF2R b - SF2R a)%R by ring.
    rewrite (SFabs_RN _ _ _ _ Hrn). exact Hrn.
Qed.

Lemma c60_eq : F64.of_Z 60 = S754_finite false 8444249301319680 (-47).
Proof. vm_compute. reflexivity. Qed.

Lemma two64_eq : F64.of_Z 2 = S754_finite false 4503599627370496 (-51).
Proof. vm_compute. reflexivity. Qed.

(** The secondary component [x] lies between 0 and the chroma. *)
Lemma secondary_le (h c : float) :
  posfin32 h -> (SF2R h < 360)%R -> posfin32 c ->
  posfin32 (secondary h c) /\ (SF2R (secondary h c) <= SF2R c)%R.
Proof.
  intros Hh Hlt Hc. unfold secondary. rewrite c60_eq, two64_eq, one64_eq.
  set (c60 := S754_finite false 8444249301319680 (-47)).
  set (two := S754_finite false 4503599627370496 (-51)).
  set (one := S754_finite false 4503599627370496 (-52)).
  assert (H60v : SF2R c60 = 60%R) by (unfold c60; cbn [SF2R cond_Zopp]; bpow_const; lra).
  assert (Htwo : posfin64 two) by reflexivity.
  assert (Htwov : SF2R two = 2%R) by (unfold two; cbn [SF2R cond_Zopp]; bpow_const; lra).
  assert (Hone : posfin64 one) by reflexivity.
  assert (Honev : SF2R one = 1%R) by (unfold one; cbn [SF2R cond_Zopp]; bpow_const; lra).
  destruct (f64_of_f32_posfin h Hh) as [Hh64 Hh64v].
  destruct (f64_of_f32_posfin c Hc) as [Hc64 Hc64v].
  pose proof (posfin_nonneg _ _ _ Hh) as Hh0. pose proof (posfin_nonneg _ _ _ Hc) as Hc0.
  (* h / 60 *)
  assert (Hq : RN64 (SF2R (f64_of_f32 h) / SF2R c60) (F64.div (f64_of_f32 h) c60))
    by (apply SFdiv_posfin; fmt).
  set (six := S754_finite false 6755399441055744 (-50)).
  assert (Hsix : posfin64 six) by reflexivity.
  assert (Hsixv : SF2R six = 6%R) by (unfold six; cbn [SF2R cond_Zopp]; bpow_const; lra).
  assert (Hql : posfin64 (F64.div (f64_of_f32 h) c60) /\
                (SF2R (F64.div (f64_of_f32 h) c60) <= SF2R six)%R).
  { eapply RN_le_float; eauto; fmt. rewrite Hsixv, Hh64v, H60v. lra. }
  destruct Hql as [Hqp _]. set (q := F64.div (f64_of_f32 h) c60) in *.
  (* fmod (h / 60, 2) *)
  destruct (fmod_spec q two Hqp Htwo ltac:(lra)) as (Hup & Hur & _).
  rewrite Htwov in Hur. set (u := fmod q two) in *.
  (* |u - 1| *)
  assert (Hw : RN64 (Rabs (SF2R u - SF2R one)) (fabs (F64.sub u one)))
    by (apply fabs_sub_RN; fmt).
  assert (Hwl : posfin64 (fabs (F64.sub u one)) /\ (SF2R (fabs (F64.sub u one)) <= SF2R one)%R).
  { eapply RN_le_float; eauto; fmt. rewrite Honev. unfold Rabs.
    destruct (Rcase_abs (SF2R u - 1)); lra. }
  destruct Hwl as [Hwp Hwv]. set (w := fabs (F64.sub u one)) in *.
  pose proof (posfin_nonneg _ _ _ Hwp) as Hw0.
  (* 1 - |u - 1| *)
  assert (Hv : RN64 (SF2R one - SF2R w) (F64.sub one w)) by (apply SFsub_RN_ge; fmt).
  assert (Hvl : posfin64 (F64.sub one w) /\ (SF2R (F64.sub one w) <= SF2R one)%R).
  { eapply RN_le_float; eauto; fmt. lra. }
  destruct Hvl as [Hvp Hvv]. set (v := F64.sub one w) in *.
  pose proof (posfin_nonneg _ _ _ Hvp) as Hv0. rewrite Honev in Hvv.
  (* c * (...) *)
  assert (Hx : RN64 (SF2R (f64_of_f32 c) * SF2R v) (F64.mul (f64_of_f32 c) v))
    by (apply SFmul_posfin; fmt).
  assert (Hxl : posfin64 (F64.mul (f64_of_f32 c) v) /\
                (SF2R (F64.mul (f64_of_f32 c) v) <= SF2R (f64_of_f32 c))%R).
  { eapply RN_le_float; eauto; fmt. rewrite Hc64v. nra. }
  destruct Hxl as [Hxp Hxv]. rewrite Hc64v in Hxv.
  assert (Hr : RN32 (SF2R (F64.mul (f64_of_f32 c) v)) (f32_of_f64 (F64.mul (f64_of_f32 c) v)))
    by (apply f32_of_f64_RN; assumption).
  eapply RN_le_float; eauto; fmt.
Qed.

(** Conversion to an integer type, on a non-negative float: the floor. *)
Lemma trunc_posfin (f : float) : posfin32 f ->
  exists z : Z, trunc f = Some z /\ 0 <= z /\ (IZR z <= SF2R f < IZR z + 1)%R.
Proof.
  destruct f as [[]|?| |[] m e]; try contradiction; intros _.
  - exists 0. split; [reflexivity|]. split; [lia|]. simpl. lra.
  - cbn [trunc cond_Zopp SF2R]. destruct (Z.leb_spec 0 e) as [He|He].
    + exists (Z.pos m * 2 ^ e). split; [reflexivity|].
      pose proof (pow2_pos e He). split; [nia|].
      rewrite mult_IZR, <- bpow_IZR by assumption. lra.
    + exists (Z.pos m / 2 ^ (- e)). split; [reflexivity|].
      assert (Hd : 0 < 2 ^ (- e)) by (apply pow2_pos; lia).
      split; [apply Z.div_pos; lia|].
      pose proof (bpow_neg (- e) ltac:(lia)) as Hb. rewrite Z.opp_involutive in Hb.
      rewrite Hb.
      set (d := 2 ^ (- e)) in *.
      pose proof (Z.div_mod (Z.pos m) d ltac:(lia)) as Hdm.
      pose proof (Z.mod_pos_bound (Z.pos m) d Hd) as Hr.
      assert (HdR : (0 < IZR d)%R) by (apply IZR_lt; lia).
      assert (Hm : IZR (Z.pos m) = (IZR d * IZR (Z.pos m / d) + IZR (Z.pos m mod d))%R).
      { rewrite <- mult_IZR, <- plus_IZR. f_equal. exact Hdm. }
      assert (Hr0 : (0 <= IZR (Z.pos m mod d))%R) by (apply IZR_le; lia).
      assert (Hr1 : (IZR (Z.pos m mod d) < IZR d)%R) by (apply IZR_lt; lia).
      assert (HX : (IZR d * / IZR d = 1)%R) by (apply Rinv_r; lra).
      assert (HX0 : (0 < / IZR d)%R) by (apply Rinv_0_lt_compat; assumption).
      rewrite Hm. set (X := (/ IZR d)%R) in *.
      set (Q := IZR (Z.pos m / d)) in *. set (r := IZR (Z.pos m mod d)) in *.
      assert (Heq : ((IZR d * Q + r) * X = Q + r * X)%R).
      { replace ((IZR d * Q + r) * X)%R with (Q * (IZR d * X) + r * X)%R by ring.
        rewrite HX. ring. }
      assert (Hlo : (0 <= r * X)%R) by (apply Rmult_le_pos; lra).
      assert (Hhi : (r * X < IZR d * X)%R) by (apply Rmult_lt_compat_r; assumption).
      rewrite Heq. lra.
Qed.

Lemma f255_eq : F32.of_Z 255 = S754_finite false 16711680 (-16).
Proof. vm_compute. reflexivity. Qed.

(** A channel no brighter than one that fits its [Uint8] fits as well. *)
Lemma channel_mono (v1 v2 : float) (z2 : Z) :
  posfin32 v1 -> posfin32 v2 -> (SF2R v1 <= SF2R v2)%R ->
  posfin32 (F32.mul v2 (F32.of_Z 255)) -> channel v2 = Some z2 ->
  exists z1 : Z, channel v1 = Some z1 /\ 0 <= z1 <= z2.
Proof.
  intros H1 H2 Hle Hfin2 Hch2. unfold channel, to_Uint8 in *.
  rewrite f255_eq in *. set (k := S754_finite false 16711680 (-16)) in *.
  assert (Hk : posfin32 k) by reflexivity.
  assert (Hkv : SF2R k = 255%R) by (unfold k; cbn [SF2R cond_Zopp]; bpow_const; lra).
  assert (Hm1 : RN32 (SF2R v1 * SF2R k) (F32.mul v1 k)) by (apply SFmul_posfin; fmt).
  assert (Hm2 : RN32 (SF2R v2 * SF2R k) (F32.mul v2 k)) by (apply SFmul_posfin; fmt).
  assert (Hcmp : SFleb (F32.mul v1 k) (F32.mul v2 k) = true).
  { eapply RN_mono with (prec := F32.prec) (emax := F32.emax); eauto with fmt.
    rewrite Hkv. pose proof (posfin_nonneg _ _ _ H1). nra. }
  assert (Hfin1 : is_finite (F32.mul v1 k) = true).
  { eapply SFleb_finite with (c := F32.mul v2 k);
      [eapply RN_nonneg; eauto|eapply posfin_finite; eauto|exact Hcmp]. }
  assert (Hp1 : posfin32 (F32.mul v1 k)) by (eapply RN_posfin; eauto; fmt).
  apply (SFleb_le F32.prec F32.emax) in Hcmp; fmt.
  destruct (trunc_posfin _ Hp1) as (z1 & Ht1 & Hz1 & Hv1).
  destruct (trunc_posfin _ Hfin2) as (z2' & Ht2 & Hz2 & Hv2).
  rewrite Ht2 in Hch2. rewrite Ht1.
  destruct (Z.leb_spec 0 z2'); [|discriminate].
  destruct (Z.leb_spec z2' 255); [|discriminate]. cbn [andb] in Hch2. injection Hch2 as <-.
  assert (Hz : z1 <= z2').
  { assert (Hlt : (IZR z1 < IZR (z2' + 1))%R) by (rewrite plus_IZR; lra).
    apply lt_IZR in Hlt. lia. }
  exists z1. destruct (Z.leb_spec 0 z1); [|lia]. destruct (Z.leb_spec z1 255); [|lia].
  split; [reflexivity|lia].
Qed.

Lemma HSLtoRGB_eq (h s l : float) :
  HSLtoRGB h s l =
  let h := f32_of_f64 (fmod (f64_of_f32 h) (F64.of_Z 360)) in
  let c := chroma s l in
  let x := secondary h c in
  let m := offset l c in
  if F32.lt h (F32.of_Z 60) then (channel (F32.add c m), channel (F32.add x m), channel m)
  else if F32.lt h (F32.of_Z 120) then (channel (F32.add x m), channel (F32.add c m), channel m)
  else if F32.lt h (F32.of_Z 180) then (channel m, channel (F32.add c m), channel (F32.add x m))
  else if F32.lt h (F32.of_Z 240) then (channel m, channel (F32.add x m), channel (F32.add c m))
  else (channel (F32.add x m), channel m, channel (F32.add c m)).
Proof. unfold HSLtoRGB, chroma, secondary, offset, channel. reflexivity. Qed.

(** For a hue in [0, 360) and a saturation and lightness whose chroma [c]
    and offset [m] are finite and not negative: if the darkest channel [m]
    and the brightest [c + m] fit their [Uint8], so do all three channels,
    and they lie between those two. *)
Lemma HSLtoRGB_between (h s l : float) (zlo zhi : Z) :
  posfin32 h -> (SF2R h < 360)%R ->
  posfin32 (chroma s l) -> posfin32 (offset l (chroma s l)) ->
  posfin32 (F32.add (chroma s l) (offset l (chroma s l))) ->
  posfin32 (F32.mul (F32.add (chroma s l) (offset l (chroma s l))) (F32.of_Z 255)) ->
  channel (offset l (chroma s l)) = Some zlo ->
  channel (F32.add (chroma s l) (offset l (chroma s l))) = Some zhi ->
  exists r g b : Z,
    HSLtoRGB h s l = (Some r, Some g, Some b) /\
    zlo <= r <= zhi /\ zlo <= g <= zhi /\ zlo <= b <= zhi.
Proof.
  intros Hh Hlt Hc Hm Hcm Hcm255 Hlo Hhi.
  rewrite HSLtoRGB_eq. cbv zeta. rewrite (wrap360_id h Hh Hlt).
  set (c := chroma s l) in *. set (m := offset l c) in *.
  destruct (secondary_le h c Hh Hlt Hc) as [Hx Hxc]. set (x := secondary h c) in *.
  clearbody x m c.
  pose proof (posfin_nonneg _ _ _ Hx) as Hx0. pose proof (posfin_nonneg _ _ _ Hm) as Hm0.
  (* x + m lies between m and c + m *)
  assert (Hxm : RN32 (SF2R x + SF2R m) (F32.add x m)) by (apply SFadd_posfin; fmt).
  assert (Hcmr : RN32 (SF2R c + SF2R m) (F32.add c m)) by (apply SFadd_posfin; fmt).
  assert (Hcmp : SFleb (F32.add x m) (F32.add c m) = true).
  { eapply RN_mono with (prec := F32.prec) (emax := F32.emax); eauto with fmt. lra. }
  assert (Hxmfin : is_finite (F32.add x m) = true).
  { eapply SFleb_finite with (c := F32.add c m);
      [eapply RN_nonneg; eauto|eapply posfin_finite; eauto|exact Hcmp]. }
  assert (Hxmp : posfin32 (F32.add x m)) by (eapply RN_posfin; eauto; fmt).
  apply (SFleb_le F32.prec F32.emax) in Hcmp; fmt.
  assert (Hge : (SF2R m <= SF2R (F32.add x m))%R).
  { eapply RN_ge_float with (prec := F32.prec) (emax := F32.emax); eauto with fmt. lra. }
  (* the three channels *)
  destruct (channel_mono (F32.add x m) (F32.add c m) zhi Hxmp Hcm Hcmp Hcm255 Hhi)
    as (zx & Hzx & _ & Hzxhi).
  assert (Hxm255 : posfin32 (F32.mul (F32.add x m) (F32.of_Z 255))).
  { assert (H255 : posfin32 (F32.of_Z 255)) by reflexivity.
    assert (Hr1 : RN32 (SF2R (F32.add x m) * SF2R (F32.of_Z 255))
                    (F32.mul (F32.add x m) (F32.of_Z 255))) by (apply SFmul_posfin; fmt).
    assert (Hr2 : RN32 (SF2R (F32.add c m) * SF2R (F32.of_Z 255))
                    (F32.mul (F32.add c m) (F32.of_Z 255))) by (apply SFmul_posfin; fmt).
    assert (Hle : SFleb (F32.mul (F32.add x m) (F32.of_Z 255))
                    (F32.mul (F32.add c m) (F32.of_Z 255)) = true).
    { eapply RN_mono with (prec := F32.prec) (emax := F32.emax); eauto with fmt.
      pose proof (posfin_nonneg _ _ _ H255). nra. }
    eapply RN_posfin with (prec := F32.prec) (emax := F32.emax); eauto with fmt.
    eapply SFleb_finite with (c := F32.mul (F32.add c m) (F32.of_Z 255));
      [eapply RN_nonneg; eauto|eapply posfin_finite; eauto|exact Hle]. }
  destruct (channel_mono m (F32.add x m) zx Hm Hxmp Hge Hxm255 Hzx) as (zm & Hzm & Hzm0 & Hzmx).
  rewrite Hlo in Hzm. injection Hzm as <-.
  assert (Hlohi : zlo <= zhi) by lia.
  rewrite Hlo, Hhi, Hzx.
  repeat match goal with |- context [if ?t then _ else _] => destruct t end;
    eexists _, _, _; (split; [reflexivity|lia]).
Qed.

Section Colours.
Context {platform : Platform}.

(** X11: in every state of a run the two colours the draw functions ask for are
    defined: no conversion to [Uint8] in [HSLtoRGB] is out of range.  The
    ring's channels lie between 71 and 234, the particles' between 117 and
    239. *)
Theorem reachable_colours (st : VisualizerState) :
  reachable st ->
  (exists r g b : Z,
     HSLtoRGB (hue st) (F32.lit 8 10) (F32.lit 6 10) = (Some r, Some g, Some b) /\
     71 <= r <= 234 /\ 71 <= g <= 234 /\ 71 <= b <= 234) /\
  (exists r g b : Z,
     HSLtoRGB (hue st) (F32.lit 8 10) (F32.lit 7 10) = (Some r, Some g, Some b) /\
     117 <= r <= 239 /\ 117 <= g <= 239 /\ 117 <= b <= 239).
Proof.
  intros Hr. destruct (reachable_hue_posfin st Hr) as [Hp Hlt].
  split; apply HSLtoRGB_between; try assumption; vm_compute; reflexivity.
Qed.

End Colours.

(** ** The radius of the ring *)

Lemma SFopp_binary_round_aux prec emax sx mx ex lx :
  SFopp (binary_round_aux prec emax sx mx ex lx) = binary_round_aux prec emax (negb sx) mx ex lx.
Proof.
  unfold binary_round_aux.
  destruct (shr_fexp prec emax mx ex lx) as [mrs' e'].
  destruct (shr_fexp prec emax _ e' loc_Exact) as [mrs'' e''].
  destruct (shr_m mrs''); [reflexivity| |reflexivity].
  destruct (e'' <=? emax - prec); reflexivity.
Qed.

Lemma SFopp_binary_round prec emax sx m e :
  SFopp (binary_round prec emax sx m e) = binary_round prec emax (negb sx) m e.
Proof.
  unfold binary_round. destruct (shl_align m e _) as [mz ez]. apply SFopp_binary_round_aux.
Qed.

(** Subtraction of a larger from a smaller non-negative float: the opposite
    of the subtraction the other way round. *)
Lemma SFsub_lt prec emax a b : 0 < prec -> prec < emax ->
  posfin prec emax a -> posfin prec emax b -> (SF2R a < SF2R b)%R ->
  SFsub prec emax a b = SFopp (SFsub prec emax b a).
Proof.
  intros Hprec Hemax Ha Hb Hlt.
  destruct a as [[]|?| |[] ma ea], b as [[]|?| |[] mb eb]; try contradiction.
  - cbn [SF2R] in Hlt. lra.
  - reflexivity.
  - exfalso. cbn [SF2R cond_Zopp] in Hlt. pose proof (bpow_pos ea).
    assert (0 < IZR (Z.pos ma))%R by (apply IZR_lt; lia). nra.
  - cbn [SFsub SF2R cond_Zopp] in *. rewrite (Z.min_comm eb ea).
    pose proof (shl_align_spec ma ea (Z.min ea eb)) as [_ Hfa].
    pose proof (shl_align_spec mb eb (Z.min ea eb)) as [_ Hfb].
    replace (Z.min ea (Z.min ea eb)) with (Z.min ea eb) in Hfa by lia.
    replace (Z.min eb (Z.min ea eb)) with (Z.min ea eb) in Hfb by lia.
    set (pa := fst (shl_align ma ea (Z.min ea eb))) in *.
    set (pb := fst (shl_align mb eb (Z.min ea eb))) in *.
    set (e := Z.min ea eb) in *.
    assert (Hva : (IZR (Z.pos ma) * bpow ea = IZR (Z.pos pa) * bpow e)%R).
    { rewrite Hfa, scaled_value by (unfold e; lia). f_equal. f_equal. lia. }
    assert (Hvb : (IZR (Z.pos mb) * bpow eb = IZR (Z.pos pb) * bpow e)%R).
    { rewrite Hfb, scaled_value by (unfold e; lia). f_equal. f_equal. lia. }
    rewrite Hva, Hvb in Hlt. pose proof (bpow_pos e) as Hpe.
    assert (Hz : Z.pos pa < Z.pos pb).
    { assert (Hab : (IZR (Z.pos pa) < IZR (Z.pos pb))%R) by nra. apply lt_IZR in Hab. lia. }
    clearbody pa pb e.
    destruct (Z.pos pa - Z.pos pb) as [|d|d] eqn:Hd; try lia.
    replace (Z.pos pb - Z.pos pa) with (Z.pos d) by lia.
    cbn [binary_normalize]. rewrite SFopp_binary_round. reflexivity.
Qed.

Lemma RN32_ge (v : R) (r c : float) :
  RN32 v r -> posfin32 c -> (SF2R c <= v)%R -> posfin32 r -> (SF2R c <= SF2R r)%R.
Proof.
  intros Hrn Hc Hle Hp. apply (RN_ge_float F32.prec F32.emax F32_prec_pos v); try assumption.
  apply (posfin_finite F32.prec F32.emax). exact Hp.
Qed.

Lemma c1000_eq : F32.of_Z 1000 = S754_finite false 16384000 (-14).
Proof. vm_compute. reflexivity. Qed.

Lemma f250_eq : F32.of_Z 250 = S754_finite false 16384000 (-16).
Proof. vm_compute. reflexivity. Qed.

(** A rounded non-negative value, negated, is below every positive float. *)
Lemma SFopp_RN_le prec emax v r m e :
  RN prec emax v r -> SFleb (SFopp r) (S754_finite false m e) = true.
Proof.
  intros (x & y & ex & _ & _ & ->). unfold round_pos, mkfloat.
  repeat match goal with |- context [if ?c then _ else _] => destruct c end; reflexivity.
Qed.

(** [BASE_RADIUS + amplitude * 150], for an amplitude in the unit interval. *)
Lemma radius_base (amp : float) : posfin32 amp -> (SF2R amp <= 1)%R ->
  posfin32 (F32.add (F32.of_Z 100) (F32.mul amp (F32.of_Z 150))) /\
  (100 <= SF2R (F32.add (F32.of_Z 100) (F32.mul amp (F32.of_Z 150))) <= 250)%R.
Proof.
  intros Ha Ha1. pose proof (posfin_nonneg _ _ _ Ha) as Ha0.
  destruct (F32_of_Z_exact 100 ltac:(split; [lia|reflexivity])) as [H100 H100v].
  destruct (F32_of_Z_exact 150 ltac:(split; [lia|reflexivity])) as [H150 H150v].
  destruct (F32_of_Z_exact 250 ltac:(split; [lia|reflexivity])) as [H250 H250v].
  assert (Hp : RN32 (SF2R amp * SF2R (F32.of_Z 150)) (F32.mul amp (F32.of_Z 150)))
    by (apply SFmul_posfin; fmt).
  assert (Hpl : posfin32 (F32.mul amp (F32.of_Z 150)) /\
                (SF2R (F32.mul amp (F32.of_Z 150)) <= SF2R (F32.of_Z 150))%R).
  { eapply RN_le_float; eauto; fmt. rewrite H150v. nra. }
  destruct Hpl as [Hpp Hpv]. rewrite H150v in Hpv.
  pose proof (posfin_nonneg _ _ _ Hpp) as Hp0.
  set (p := F32.mul amp (F32.of_Z 150)) in *. clearbody p.
  assert (Hs : RN32 (SF2R (F32.of_Z 100) + SF2R p) (F32.add (F32.of_Z 100) p))
    by (apply SFadd_posfin; fmt).
  assert (Hsl : posfin32 (F32.add (F32.of_Z 100) p) /\
                (SF2R (F32.add (F32.of_Z 100) p) <= SF2R (F32.of_Z 250))%R).
  { eapply RN_le_float; eauto; fmt. rewrite H100v, H250v. lra. }
  destruct Hsl as [Hsp Hsv]. rewrite H250v in Hsv.
  split; [exact Hsp|]. split; [|exact Hsv].
  rewrite <- H100v at 1.
  apply (RN32_ge _ _ _ Hs H100); [|assumption].
  lra.
Qed.

(** [beat_strength * 50], for [d] milliseconds since the last beat. *)
Lemma radius_drop (d : Z) : 0 <= d < 2 ^ 32 ->
  posfin32 (F32.mul (F32.div (F32.of_Z d) (F32.of_Z 1000)) (F32.of_Z 50)) /\
  (d <= 2000 ->
   (SF2R (F32.mul (F32.div (F32.of_Z d) (F32.of_Z 1000)) (F32.of_Z 50)) <= 100)%R) /\
  (5000 < d ->
   (8001 / 32 <= SF2R (F32.mul (F32.div (F32.of_Z d) (F32.of_Z 1000)) (F32.of_Z 50)))%R).
Proof.
  intros Hd. rewrite c1000_eq.
  set (k := S754_finite false 16384000 (-14)).
  assert (Hkv : SF2R k = 1000%R) by (unfold k; cbn [SF2R cond_Zopp]; bpow_const; lra).
  destruct (F32_of_Z_exact 50 ltac:(split; [lia|reflexivity])) as [H50 H50v].
  (* the elapsed time as a float *)
  assert (Hrn : RN32 (IZR d) (F32.of_Z d)) by (apply F32_of_Z_RN; lia).
  set (top := S754_finite false 8388608 9).
  assert (Htop : posfin32 top) by reflexivity.
  assert (Htopv : SF2R top = 4294967296%R) by (unfold top; cbn [SF2R cond_Zopp]; bpow_const; lra).
  assert (Hdl : posfin32 (F32.of_Z d) /\ (SF2R (F32.of_Z d) <= SF2R top)%R).
  { eapply RN_le_float; eauto; fmt. rewrite Htopv. apply IZR_le.
    change 4294967296 with (2 ^ 32). lia. }
  destruct Hdl as [Hdp Hdv]. rewrite Htopv in Hdv.
  pose proof (posfin_nonneg _ _ _ Hdp) as Hd0.
  assert (Hdlo : d <= 2000 -> (SF2R (F32.of_Z d) <= 2000)%R).
  { intros Hle. destruct (F32_of_Z_exact d) as [_ ->].
    - split; [lia|]. apply Z.le_lt_trans with 2000; [lia|reflexivity].
    - apply IZR_le. lia. }
  assert (Hdhi : 5000 < d -> (5001 <= SF2R (F32.of_Z d))%R).
  { intros Hgt. destruct (F32_of_Z_exact 5001 ltac:(split; [lia|reflexivity])) as [H5 H5v].
    rewrite <- H5v.
    apply (RN32_ge _ _ _ Hrn H5); [|assumption].
    rewrite H5v. apply IZR_le. lia. }
  set (dv := F32.of_Z d) in *. clearbody dv.
  (* beat_strength *)
  assert (Hq : RN32 (SF2R dv / SF2R k) (F32.div dv k)) by (apply SFdiv_posfin; fmt).
  assert (Hql : posfin32 (F32.div dv k) /\ (SF2R (F32.div dv k) <= SF2R top)%R).
  { eapply RN_le_float; eauto; fmt. rewrite Htopv, Hkv. lra. }
  destruct Hql as [Hqp Hqv]. rewrite Htopv in Hqv.
  pose proof (posfin_nonneg _ _ _ Hqp) as Hq0.
  assert (Hqlo : d <= 2000 -> (SF2R (F32.div dv k) <= 2)%R).
  { intros Hle. destruct (F32_of_Z_exact 2 ltac:(split; [lia|reflexivity])) as [H2 H2v].
    rewrite <- H2v. eapply RN_le_float; eauto; fmt. rewrite H2v, Hkv.
    specialize (Hdlo Hle). lra. }
  set (c5 := S754_finite false 10487808 (-21)).
  assert (Hc5 : posfin32 c5) by reflexivity.
  assert (Hc5v : SF2R c5 = (5121 / 1024)%R) by (unfold c5; cbn [SF2R cond_Zopp]; bpow_const; lra).
  assert (Hqhi : 5000 < d -> (5121 / 1024 <= SF2R (F32.div dv k))%R).
  { intros Hgt. rewrite <- Hc5v.
    apply (RN32_ge _ _ _ Hq Hc5); [|assumption].
    rewrite Hc5v, Hkv. specialize (Hdhi Hgt). lra. }
  set (bs := F32.div dv k) in *. clearbody bs.
  (* times 50 *)
  assert (Hm : RN32 (SF2R bs * SF2R (F32.of_Z 50)) (F32.mul bs (F32.of_Z 50)))
    by (apply SFmul_posfin; fmt).
  set (top' := S754_finite false 8388608 15).
  assert (Htop' : posfin32 top') by reflexivity.
  assert (Htopv' : SF2R top' = 274877906944%R)
    by (unfold top'; cbn [SF2R cond_Zopp]; bpow_const; lra).
  assert (Hml : posfin32 (F32.mul bs (F32.of_Z 50)) /\
                (SF2R (F32.mul bs (F32.of_Z 50)) <= SF2R top')%R).
  { eapply RN_le_float; eauto; fmt. rewrite Htopv', H50v. lra. }
  destruct Hml as [Hmp _]. split; [exact Hmp|]. split.
  - intros Hle. destruct (F32_of_Z_exact 100 ltac:(split; [lia|reflexivity])) as [H100 H100v].
    rewrite <- H100v. eapply RN_le_float; eauto; fmt. rewrite H100v, H50v.
    specialize (Hqlo Hle). lra.
  - intros Hgt. set (c := S754_finite false 16386048 (-16)).
    assert (Hc : posfin32 c) by reflexivity.
    assert (Hcv : SF2R c = (8001 / 32)%R) by (unfold c; cbn [SF2R cond_Zopp]; bpow_const; lra).
    rewrite <- Hcv.
    apply (RN32_ge _ _ _ Hm Hc); [|assumption].
    rewrite Hcv, H50v. specialize (Hqhi Hgt). lra.
Qed.

Section Radius.
Context {platform : Platform}.

(** X12: the ring after a beat.  Along a run the radius is never above 250; at
    the tick of the last beat it is [100 + amplitude * 150], at least 100;
    it is not negative for the first 2 seconds after the beat, and negative
    once more than 5 seconds have passed without one. *)
Theorem ring_radius_span (st : VisualizerState) (ticks : Z) :
  run st ->
  let elapsed := (ticks - last_beat st) mod 2 ^ 32 in
  F32.le (ring_radius st ticks) (F32.of_Z 250) = true /\
  (elapsed = 0 ->
   ring_radius st ticks = F32.add (F32.of_Z 100) (F32.mul (amplitude st) (F32.of_Z 150)) /\
   F32.le (F32.of_Z 100) (ring_radius st ticks) = true) /\
  (elapsed <= 2000 -> F32.le F32.zero (ring_radius st ticks) = true) /\
  (5000 < elapsed -> F32.lt (ring_radius st ticks) F32.zero = true).
Proof.
  intros Hr. cbv zeta.
  destruct (run_levels_posfin st Hr) as [[Ha Ha1] _].
  unfold ring_radius, beat_strength. change (F32.of_Z BASE_RADIUS) with (F32.of_Z 100).
  destruct (radius_base (amplitude st) Ha Ha1) as [HA [HAlo HAhi]].
  pose proof (Z.mod_pos_bound (ticks - last_beat st) (2 ^ 32) ltac:(reflexivity)) as Hd.
  destruct (radius_drop _ Hd) as (HB & HBlo & HBhi).
  set (d := (ticks - last_beat st) mod 2 ^ 32) in *.
  set (A := F32.add (F32.of_Z 100) (F32.mul (amplitude st) (F32.of_Z 150))) in *.
  assert (Hzero : d = 0 ->
            F32.mul (F32.div (F32.of_Z d) (F32.of_Z 1000)) (F32.of_Z 50) = S754_zero false)
    by (intros ->; vm_compute; reflexivity).
  set (B := F32.mul (F32.div (F32.of_Z d) (F32.of_Z 1000)) (F32.of_Z 50)) in *.
  clearbody A B.
  destruct (F32_of_Z_exact 250 ltac:(split; [lia|reflexivity])) as [H250 H250v].
  pose proof (posfin_nonneg _ _ _ HB) as HB0.
  assert (Hge : (SF2R B <= SF2R A)%R ->
                posfin32 (F32.sub A B) /\ (SF2R (F32.sub A B) <= SF2R A)%R).
  { intros Hle.
    assert (Hrn : RN32 (SF2R A - SF2R B) (F32.sub A B)) by (apply SFsub_RN_ge; fmt).
    eapply RN_le_float; eauto; fmt. lra. }
  split; [|split; [|split]].
  - destruct (Rle_lt_dec (SF2R B) (SF2R A)) as [Hle|Hlt].
    + destruct (Hge Hle) as [Hp Hv].
      apply (le_SFleb F32.prec F32.emax); fmt. rewrite H250v. lra.
    + unfold F32.sub. rewrite SFsub_lt by (fmt; assumption).
      assert (Hrn : RN32 (SF2R B - SF2R A) (SFsub F32.prec F32.emax B A))
        by (apply SFsub_RN_ge; fmt; lra).
      rewrite f250_eq. unfold F32.le. eapply SFopp_RN_le, Hrn.
  - intros Hel. rewrite (Hzero Hel).
    destruct (F32_of_Z_exact 100 ltac:(split; [lia|reflexivity])) as [H100 H100v].
    assert (HAfin : exists m e, A = S754_finite false m e).
    { destruct (posfin_pos_finite _ _ _ HA ltac:(lra)) as (m & e & -> & _). eauto. }
    destruct HAfin as (m & e & ->). split; [reflexivity|].
    apply (le_SFleb F32.prec F32.emax); fmt. rewrite H100v. exact HAlo.
  - intros Hel. specialize (HBlo Hel). destruct (Hge ltac:(lra)) as [Hp _].
    apply SFleb_zero_posfin with (prec := F32.prec) (emax := F32.emax). exact Hp.
  - intros Hel. specialize (HBhi Hel).
    unfold F32.sub. rewrite SFsub_lt by (fmt; try assumption; lra).
    assert (Hrn : RN32 (SF2R B - SF2R A) (SFsub F32.prec F32.emax B A))
      by (apply SFsub_RN_ge; fmt; lra).
    assert (Hrl : posfin32 (SFsub F32.prec F32.emax B A) /\
                  (SF2R (SFsub F32.prec F32.emax B A) <= SF2R B)%R).
    { eapply RN_le_float; eauto; fmt. lra. }
    destruct Hrl as [Hp _].
    assert (Hpos : (0 < SF2R (SFsub F32.prec F32.emax B A))%R).
    { set (c := S754_finite false 8388608 (-29)).
      assert (Hc : posfin32 c) by reflexivity.
      assert (Hcv : SF2R c = (/ 64)%R) by (unfold c; cbn [SF2R cond_Zopp]; bpow_const; lra).
      assert (Hlo : (SF2R c <= SF2R (SFsub F32.prec F32.emax B A))%R).
      { apply (RN32_ge _ _ _ Hrn Hc); [|assumption].
        rewrite Hcv. lra. }
      rewrite Hcv in Hlo. lra. }
    destruct (posfin_pos_finite _ _ _ Hp Hpos) as (m & e & -> & _). reflexivity.
Qed.

End Radius.

(** ** [HSLtoRGB] and the six-sector formula *)

Lemma HSLtoRGB_six_sector_eq (h s l : float) :
  HSLtoRGB_six_sector h s l =
  let h := f32_of_f64 (fmod (f64_of_f32 h) (F64.of_Z 360)) in
  let c := chroma s l in
  let x := secondary h c in
  let m := offset l c in
  if F32.lt h (F32.of_Z 60) then (channel (F32.add c m), channel (F32.add x m), channel m)
  else if F32.lt h (F32.of_Z 120) then (channel (F32.add x m), channel (F32.add c m), channel m)
  else if F32.lt h (F32.of_Z 180) then (channel m, channel (F32.add c m), channel (F32.add x m))
  else if F32.lt h (F32.of_Z 240) then (channel m, channel (F32.add x m), channel (F32.add c m))
  else if F32.lt h (F32.of_Z 300) then (channel (F32.add x m), channel m, channel (F32.add c m))
  else (channel (F32.add c m), channel m, channel (F32.add x m)).
Proof. unfold HSLtoRGB_six_sector, chroma, secondary, offset, channel. reflexivity. Qed.

Lemma hue_below (h : float) (k : Z) : posfin32 h -> 0 <= k <= 300 ->
  F32.lt h (F32.of_Z k) = true -> F32.lt h (F32.of_Z 300) = true.
Proof.
  intros Hh Hk Hlt.
  destruct (F32_of_Z_exact k) as [Hkp Hkv].
  { split; [lia|]. apply Z.le_lt_trans with 300; [lia|reflexivity]. }
  destruct (F32_of_Z_exact 300 ltac:(split; [lia|reflexivity])) as [H3p H3v].
  apply (SFltb_lt F32.prec F32.emax) in Hlt; fmt.
  apply (lt_SFltb F32.prec F32.emax); fmt. rewrite H3v. rewrite Hkv in Hlt.
  assert (IZR k <= 300)%R by (apply IZR_le; lia). lra.
Qed.

(** X13: [HSLtoRGB] against the standard formula, for a hue in [0, 360): the two
    agree below 300 degrees; from 300 degrees on [HSLtoRGB] returns the
    formula's channels with red and blue exchanged. *)
Theorem HSLtoRGB_vs_six_sector (h s l : float) :
  posfin32 h -> (SF2R h < 360)%R ->
  HSLtoRGB h s l =
  if F32.lt h (F32.of_Z 300) then HSLtoRGB_six_sector h s l
  else let '(r, g, b) := HSLtoRGB_six_sector h s l in (b, g, r).
Proof.
  intros Hh Hlt. rewrite HSLtoRGB_eq, HSLtoRGB_six_sector_eq. cbv zeta.
  rewrite (wrap360_id h Hh Hlt).
  set (c := chroma s l). set (m := offset l c). set (x := secondary h c). clearbody x m c.
  pose proof (hue_below h 60 Hh ltac:(lia)) as H60.
  pose proof (hue_below h 120 Hh ltac:(lia)) as H120.
  pose proof (hue_below h 180 Hh ltac:(lia)) as H180.
  pose proof (hue_below h 240 Hh ltac:(lia)) as H240.
  destruct (F32.lt h (F32.of_Z 60)); [rewrite H60 by reflexivity; reflexivity|].
  destruct (F32.lt h (F32.of_Z 120)); [rewrite H120 by reflexivity; reflexivity|].
  destruct (F32.lt h (F32.of_Z 180)); [rewrite H180 by reflexivity; reflexivity|].
  destruct (F32.lt h (F32.of_Z 240)); [rewrite H240 by reflexivity; reflexivity|].
  destruct (F32.lt h (F32.of_Z 300)); reflexivity.
Qed.

(** ** A constant stream *)

Lemma RN32_le (v1 v2 : R) (r1 r2 : float) :
  RN32 v1 r1 -> RN32 v2 r2 -> (v1 <= v2)%R -> posfin32 r2 ->
  posfin32 r1 /\ (SF2R r1 <= SF2R r2)%R.
Proof.
  intros H1 H2 Hle Hp2.
  pose proof (RN_mono F32.prec F32.emax F32_prec_pos _ _ _ _ H1 H2 Hle) as Hcmp.
  assert (Hfin : is_finite r1 = true).
  { apply (SFleb_finite r1 r2); [apply (RN_nonneg _ _ _ _ H1)| |exact Hcmp].
    apply (posfin_finite F32.prec F32.emax). exact Hp2. }
  assert (Hp1 : posfin32 r1) by (apply (RN_posfin F32.prec F32.emax F32_prec_pos _ _ H1 Hfin)).
  split; [exact Hp1|]. apply (SFleb_le F32.prec F32.emax); fmt.
Qed.

Lemma RN64_le (v1 v2 : R) (r1 r2 : double) :
  RN64 v1 r1 -> RN64 v2 r2 -> (v1 <= v2)%R -> posfin64 r2 ->
  posfin64 r1 /\ (SF2R r1 <= SF2R r2)%R.
Proof.
  intros H1 H2 Hle Hp2.
  pose proof (RN_mono F64.prec F64.emax F64_prec_pos _ _ _ _ H1 H2 Hle) as Hcmp.
  assert (Hfin : is_finite r1 = true).
  { apply (SFleb_finite r1 r2); [apply (RN_nonneg _ _ _ _ H1)| |exact Hcmp].
    apply (posfin_finite F64.prec F64.emax). exact Hp2. }
  assert (Hp1 : posfin64 r1) by (apply (RN_posfin F64.prec F64.emax F64_prec_pos _ _ H1 Hfin)).
  split; [exact Hp1|]. apply (SFleb_le F64.prec F64.emax); fmt.
Qed.

(** The baseline update is monotone in the old baseline. *)
Lemma ema_update_mono (b1 b2 e : float) :
  posfin32 b1 -> posfin32 b2 -> (SF2R b1 <= SF2R b2)%R -> (SF2R b2 <= 1)%R ->
  posfin32 e -> (SF2R e <= 1)%R ->
  (SF2R (ema_update b1 e) <= SF2R (ema_update b2 e))%R.
Proof.
  intros Hb1 Hb2 Hle Hb21 He He1.
  destruct (ema_update_unit b2 e Hb2 Hb21 He He1) as [Hs2 _].
  revert Hs2. unfold ema_update. rewrite lit_9_10_eq, lit_1_10_eq.
  set (c9 := S754_finite false 15099494 (-24)). set (c1 := S754_finite false 13421773 (-27)).
  intros Hs2.
  assert (Hc9 : posfin32 c9) by reflexivity. assert (Hc1 : posfin32 c1) by reflexivity.
  assert (Hc9v : SF2R c9 = (15099494 / 16777216)%R).
  { unfold c9. cbn [SF2R cond_Zopp]. bpow_const. lra. }
  assert (Hc1v : SF2R c1 = (13421773 / 134217728)%R).
  { unfold c1. cbn [SF2R cond_Zopp]. bpow_const. lra. }
  pose proof (posfin_nonneg _ _ _ Hb1) as Hb10. pose proof (posfin_nonneg _ _ _ He) as He0.
  assert (Hp1 : RN32 (SF2R c9 * SF2R b1) (F32.mul c9 b1)) by (apply SFmul_posfin; fmt).
  assert (Hp2 : RN32 (SF2R c9 * SF2R b2) (F32.mul c9 b2)) by (apply SFmul_posfin; fmt).
  assert (Hq : RN32 (SF2R c1 * SF2R e) (F32.mul c1 e)) by (apply SFmul_posfin; fmt).
  assert (Hp2l : posfin32 (F32.mul c9 b2) /\ (SF2R (F32.mul c9 b2) <= SF2R c9)%R).
  { apply (RN_le_float F32.prec F32.emax F32_prec_pos _ _ _ Hp2 Hc9). rewrite Hc9v. nra. }
  assert (Hql : posfin32 (F32.mul c1 e) /\ (SF2R (F32.mul c1 e) <= SF2R c1)%R).
  { apply (RN_le_float F32.prec F32.emax F32_prec_pos _ _ _ Hq Hc1). rewrite Hc1v. nra. }
  destruct Hp2l as [Hp2p _]. destruct Hql as [Hqp _].
  destruct (RN32_le _ _ _ _ Hp1 Hp2 ltac:(rewrite Hc9v; nra) Hp2p) as [Hp1p Hp12].
  set (p1 := F32.mul c9 b1) in *. set (p2 := F32.mul c9 b2) in *. set (q := F32.mul c1 e) in *.
  clearbody p1 p2 q.
  assert (Hs1r : RN32 (SF2R p1 + SF2R q) (F32.add p1 q)) by (apply SFadd_posfin; fmt).
  assert (Hs2r : RN32 (SF2R p2 + SF2R q) (F32.add p2 q)) by (apply SFadd_posfin; fmt).
  apply (RN32_le _ _ _ _ Hs1r Hs2r); [lra|exact Hs2].
Qed.

(** The onset test is antitone in the baseline it is made on. *)
Lemma exceeds_threshold_antitone (e b1 b2 : float) :
  posfin32 b1 -> posfin32 b2 -> (SF2R b1 <= SF2R b2)%R -> (SF2R b2 <= 1)%R -> posfin32 e ->
  exceeds_threshold e b2 = true -> exceeds_threshold e b1 = true.
Proof.
  intros Hb1 Hb2 Hle Hb21 He. unfold exceeds_threshold. rewrite BEAT_THRESHOLD_eq.
  set (c14 := S754_finite false 6305039478318694 (-52)).
  assert (Hc14 : posfin64 c14) by reflexivity.
  assert (Hc14v : SF2R c14 = (6305039478318694 / 4503599627370496)%R).
  { unfold c14. cbn [SF2R cond_Zopp]. bpow_const. lra. }
  destruct (f64_of_f32_posfin b1 Hb1) as [Hb1p Hb1v].
  destruct (f64_of_f32_posfin b2 Hb2) as [Hb2p Hb2v].
  destruct (f64_of_f32_posfin e He) as [Hep Hev].
  pose proof (posfin_nonneg _ _ _ Hb1) as Hb10.
  set (d1 := f64_of_f32 b1) in *. set (d2 := f64_of_f32 b2) in *. set (de := f64_of_f32 e) in *.
  clearbody d1 d2 de.
  assert (Ht1 : RN64 (SF2R d1 * SF2R c14) (F64.mul d1 c14)) by (apply SFmul_posfin; fmt).
  assert (Ht2 : RN64 (SF2R d2 * SF2R c14) (F64.mul d2 c14)) by (apply SFmul_posfin; fmt).
  set (two := S754_finite false 4503599627370496 (-51)).
  assert (Htwo : posfin64 two) by reflexivity.
  assert (Htwov : SF2R two = 2%R) by (unfold two; cbn [SF2R cond_Zopp]; bpow_const; lra).
  assert (Ht2l : posfin64 (F64.mul d2 c14) /\ (SF2R (F64.mul d2 c14) <= SF2R two)%R).
  { apply (RN_le_float F64.prec F64.emax F64_prec_pos _ _ _ Ht2 Htwo).
    rewrite Htwov, Hb2v, Hc14v. lra. }
  destruct Ht2l as [Ht2p _].
  destruct (RN64_le _ _ _ _ Ht1 Ht2 ltac:(rewrite Hb1v, Hb2v, Hc14v; nra) Ht2p) as [Ht1p Ht12].
  intros Hon. apply (SFltb_lt F64.prec F64.emax) in Hon; fmt.
  apply (lt_SFltb F64.prec F64.emax); fmt. lra.
Qed.

Lemma baseline_step (e : float) (n : nat) : posfin32 e -> (SF2R e <= 1)%R ->
  posfin32 (baseline e n) /\ (SF2R (baseline e n) <= 1)%R /\
  (SF2R (baseline e n) <= SF2R (baseline e (S n)))%R.
Proof.
  intros He He1. induction n as [|n (IHp & IH1 & IHle)].
  - destruct (ema_update_unit F32.zero e I ltac:(simpl; lra) He He1) as [Hp _].
    split; [exact I|]. split; [simpl; lra|].
    rewrite baseline_S. change (baseline e 0) with F32.zero.
    change (SF2R F32.zero) with 0%R. apply (posfin_nonneg F32.prec F32.emax). exact Hp.
  - destruct (ema_update_unit (baseline e n) e IHp IH1 He He1) as [Hp Hle1].
    rewrite <- baseline_S in Hp, Hle1.
    split; [exact Hp|]. split; [exact Hle1|].
    rewrite (baseline_S e (S n)), (baseline_S e n) at 1.
    apply ema_update_mono; assumption.
Qed.

Lemma baseline_mono (e : float) (n k : nat) : posfin32 e -> (SF2R e <= 1)%R ->
  (n <= k)%nat -> (SF2R (baseline e n) <= SF2R (baseline e k))%R.
Proof.
  intros He He1 Hnk. induction Hnk as [|k _ IH]; [lra|].
  destruct (baseline_step e k He He1) as (_ & _ & Hle). lra.
Qed.

Section Stream.
Context {platform : Platform}.

(** X14: on a stream that repeats one buffer, from the initial state, the
    baseline never goes down, so the onsets come first: when the invocation
    after [k] others signals an onset, each earlier invocation did. *)
Theorem constant_stream_prefix
    (samples : list Z) (ticks : nat -> Z) (g : rng) (n k : nat) :
  samples <> [] -> forallb is_Sint16 samples = true -> (n <= k)%nat ->
  F32.le (beat_energy (fst (callbacks n state0 samples ticks g)))
         (beat_energy (fst (callbacks k state0 samples ticks g))) = true /\
  (beat_onset (fst (callbacks k state0 samples ticks g)) samples = true ->
   beat_onset (fst (callbacks n state0 samples ticks g)) samples = true).
Proof.
  intros Hne Hall Hnk.
  destruct (buffer_energy_bound samples Hne Hall) as [He He1].
  rewrite !callbacks_beat_energy. set (e := buffer_energy samples) in *.
  destruct (baseline_step e n He He1) as (Hnp & _ & _).
  destruct (baseline_step e k He He1) as (Hkp & _ & _).
  split.
  - apply (le_SFleb F32.prec F32.emax); fmt. apply baseline_mono; assumption.
  - unfold beat_onset. cbv zeta. rewrite !callbacks_beat_energy. fold e.
    rewrite <- !baseline_S.
    destruct (baseline_step e (S n) He He1) as (Hn1 & _ & _).
    destruct (baseline_step e (S k) He He1) as (Hk1 & Hk11 & _).
    apply exceeds_threshold_antitone; try assumption.
    apply baseline_mono; [assumption|assumption|lia].
Qed.

End Stream.

(** ** The further properties on concrete runs *)

Lemma first_beat_reachable : @reachable test_platform first_beat_state.
Proof. apply reachable_callback, reachable_init. Qed.

Lemma first_beat_run : @run test_platform first_beat_state.
Proof.
  apply run_callback; [apply run_init|discriminate|vm_compute; reflexivity].
Qed.

Lemma draw_particles_map_witness :
  length (particles fresh_state) = MAX_PARTICLES /\
  (draw_particles fresh_state =
   (mkState (amplitude fresh_state) (beat_energy fresh_state) (last_beat fresh_state)
      (advance_if_active <$> particles fresh_state) (hue fresh_state),
    List.flat_map
      (particle_cmds (HSLtoRGB (hue fresh_state) (F32.lit 8 10) (F32.lit 7 10)))
      (particles fresh_state)) /\
   length (snd (draw_particles fresh_state)) = (2 * active_count (particles fresh_state))%nat).
Proof.
  split; [reflexivity|]. apply (draw_particles_map fresh_state). reflexivity.
Defined.

Lemma reachable_pool_ok_witness :
  @reachable test_platform first_beat_state /\
  (length (particles first_beat_state) = MAX_PARTICLES /\
   (forall p, p ∈ particles first_beat_state ->
              0 <= lifetime p <= 49 /\ 0 <= alpha p <= 255)).
Proof.
  split; [exact first_beat_reachable|].
  apply (@reachable_pool_ok test_platform first_beat_state). exact first_beat_reachable.
Defined.

Lemma particles_expire_witness :
  @reachable test_platform first_beat_state /\ (49 <= 49)%nat /\
  (Forall (fun p => lifetime p = 0) (particles (frames 49 first_beat_state)) /\
   active_count (particles (frames 49 first_beat_state)) = 0%nat /\
   draw_particles (frames 49 first_beat_state) = (frames 49 first_beat_state, [])).
Proof.
  split; [exact first_beat_reachable|]. split; [lia|].
  apply (@particles_expire test_platform first_beat_state 49); [exact first_beat_reachable|lia].
Defined.

Lemma spawn_adds_one_witness :
  length (particles state0) = MAX_PARTICLES /\
  (let st' := fst (@audio_callback test_platform state0 half_scale_buffer 1000 42) in
   let g' := snd (@audio_callback test_platform state0 half_scale_buffer 1000 42) in
   if beat_onset state0 half_scale_buffer && negb (forallb active (particles state0))
   then active_count (particles st') = S (active_count (particles state0)) /\
        g' = snd (lcg (snd (lcg (snd (lcg 42)))))
   else particles st' = particles state0 /\ g' = 42).
Proof.
  split; [reflexivity|].
  apply (@spawn_adds_one test_platform state0 half_scale_buffer 1000 42). reflexivity.
Defined.

Lemma hue_step_wraps_witness :
  let h := S754_finite false 11796479 (-15) in
  let s := F32.add h (F32.lit 3 10) in
  posfin32 h /\ (SF2R h < 360)%R /\
  (F32.lt (hue_step h) (F32.of_Z 360) = true /\ (0 <= SF2R (hue_step h) < 360)%R /\
   ((SF2R s < 360)%R -> hue_step h = s) /\
   ((360 <= SF2R s)%R -> SF2R (hue_step h) = (SF2R s - 360)%R)).
Proof.
  cbv zeta.
  assert (Hlt : (SF2R (S754_finite false 11796479 (-15)) < 360)%R).
  { cbn [SF2R cond_Zopp]. bpow_const. lra. }
  split; [reflexivity|]. split; [exact Hlt|].
  apply (hue_step_wraps (S754_finite false 11796479 (-15))); [reflexivity|exact Hlt].
Defined.

Lemma reachable_hue_witness :
  @reachable test_platform first_beat_state /\
  (F32.le F32.zero (hue first_beat_state) = true /\
   F32.lt (hue first_beat_state) (F32.of_Z 360) = true /\
   (0 <= SF2R (hue first_beat_state) < 360)%R /\
   f32_of_f64 (fmod (f64_of_f32 (hue first_beat_state)) (F64.of_Z 360)) = hue first_beat_state).
Proof.
  split; [exact first_beat_reachable|].
  apply (@reachable_hue test_platform first_beat_state). exact first_beat_reachable.
Defined.

Lemma buffer_energy_unit_witness :
  half_scale_buffer <> [] /\ forallb is_Sint16 half_scale_buffer = true /\
  (is_finite (buffer_energy half_scale_buffer) = true /\
   (0 <= SF2R (buffer_energy half_scale_buffer) <= 1)%R /\
   F32.le F32.zero (buffer_energy half_scale_buffer) = true /\
   F32.le (buffer_energy half_scale_buffer) (F32.of_Z 1) = true).
Proof.
  split; [discriminate|]. split; [vm_compute; reflexivity|].
  apply (buffer_energy_unit half_scale_buffer); [discriminate|vm_compute; reflexivity].
Defined.

Lemma run_levels_witness :
  @run test_platform first_beat_state /\
  (F32.le F32.zero (amplitude first_beat_state) = true /\
   F32.le (amplitude first_beat_state) (F32.of_Z 1) = true /\
   F32.le F32.zero (beat_energy first_beat_state) = true /\
   F32.le (beat_energy first_beat_state) (F32.of_Z 1) = true).
Proof.
  split; [exact first_beat_run|].
  apply (@run_levels test_platform first_beat_state). exact first_beat_run.
Defined.

Lemma effective_threshold_witness :
  @run test_platform first_beat_state /\
  (forallb is_Sint16 above_threshold_buffer = true /\
   Z.of_nat (length above_threshold_buffer) < 2 ^ 31 /\
   F32.lt F32.zero (buffer_energy above_threshold_buffer) = true /\
   (1466 / 1000 * SF2R (beat_energy first_beat_state)
    <= SF2R (buffer_energy above_threshold_buffer))%R /\
   beat_onset first_beat_state above_threshold_buffer = true) /\
  (forallb is_Sint16 below_threshold_buffer = true /\
   Z.of_nat (length below_threshold_buffer) < 2 ^ 31 /\
   F32.lt F32.zero (buffer_energy below_threshold_buffer) = true /\
   (SF2R (buffer_energy below_threshold_buffer)
    <= 1465 / 1000 * SF2R (beat_energy first_beat_state))%R /\
   beat_onset first_beat_state below_threshold_buffer = false).
Proof.
  assert (Hb : beat_energy first_beat_state = S754_finite false 13421773 (-28))
    by (vm_compute; reflexivity).
  assert (Hhi : (1466 / 1000 * SF2R (beat_energy first_beat_state)
                 <= SF2R (buffer_energy above_threshold_buffer))%R).
  { eval_float (buffer_energy above_threshold_buffer) He. rewrite He, Hb.
    cbn [SF2R cond_Zopp]. bpow_const. lra. }
  assert (Hlo : (SF2R (buffer_energy below_threshold_buffer)
                 <= 1465 / 1000 * SF2R (beat_energy first_beat_state))%R).
  { eval_float (buffer_energy below_threshold_buffer) He. rewrite He, Hb.
    cbn [SF2R cond_Zopp]. bpow_const. lra. }
  split; [exact first_beat_run|]. split.
  - split; [vm_compute; reflexivity|]. split; [vm_compute; reflexivity|].
    split; [vm_compute; reflexivity|]. split; [exact Hhi|].
    apply (@effective_threshold test_platform first_beat_state above_threshold_buffer);
      [exact first_beat_run|vm_compute; reflexivity|vm_compute; reflexivity
      |vm_compute; reflexivity|exact Hhi].
  - split; [vm_compute; reflexivity|]. split; [vm_compute; reflexivity|].
    split; [vm_compute; reflexivity|]. split; [exact Hlo|].
    apply (@effective_threshold test_platform first_beat_state below_threshold_buffer);
      [exact first_beat_run|vm_compute; reflexivity|vm_compute; reflexivity
      |vm_compute; reflexivity|exact Hlo].
Defined.

Lemma reachable_colours_witness :
  @reachable test_platform first_beat_state /\
  ((exists r g b : Z,
      HSLtoRGB (hue first_beat_state) (F32.lit 8 10) (F32.lit 6 10) = (Some r, Some g, Some b) /\
      71 <= r <= 234 /\ 71 <= g <= 234 /\ 71 <= b <= 234) /\
   (exists r g b : Z,
      HSLtoRGB (hue first_beat_state) (F32.lit 8 10) (F32.lit 7 10) = (Some r, Some g, Some b) /\
      117 <= r <= 239 /\ 117 <= g <= 239 /\ 117 <= b <= 239)).
Proof.
  split; [exact first_beat_reachable|].
  apply (@reachable_colours test_platform first_beat_state). exact first_beat_reachable.
Defined.

Lemma ring_radius_span_witness :
  @run test_platform first_beat_state /\
  (let elapsed := (1500 - last_beat first_beat_state) mod 2 ^ 32 in
   F32.le (ring_radius first_beat_state 1500) (F32.of_Z 250) = true /\
   (elapsed = 0 ->
    ring_radius first_beat_state 1500
    = F32.add (F32.of_Z 100) (F32.mul (amplitude first_beat_state) (F32.of_Z 150)) /\
    F32.le (F32.of_Z 100) (ring_radius first_beat_state 1500) = true) /\
   (elapsed <= 2000 -> F32.le F32.zero (ring_radius first_beat_state 1500) = true) /\
   (5000 < elapsed -> F32.lt (ring_radius first_beat_state 1500) F32.zero = true)).
Proof.
  split; [exact first_beat_run|].
  apply (@ring_radius_span test_platform first_beat_state 1500). exact first_beat_run.
Defined.

Lemma HSLtoRGB_vs_six_sector_witness :
  let h := F32.of_Z 330 in
  posfin32 h /\ (SF2R h < 360)%R /\
  HSLtoRGB h (F32.lit 8 10) (F32.lit 6 10) =
  (if F32.lt h (F32.of_Z 300) then HSLtoRGB_six_sector h (F32.lit 8 10) (F32.lit 6 10)
   else let '(r, g, b) := HSLtoRGB_six_sector h (F32.lit 8 10) (F32.lit 6 10) in (b, g, r)).
Proof.
  cbv zeta.
  assert (Hp : posfin32 (F32.of_Z 330)) by reflexivity.
  assert (Hlt : (SF2R (F32.of_Z 330) < 360)%R).
  { destruct (F32_of_Z_exact 330 ltac:(split; [lia|reflexivity])) as [_ ->]. lra. }
  split; [exact Hp|]. split; [exact Hlt|].
  apply (HSLtoRGB_vs_six_sector (F32.of_Z 330)); [exact Hp|exact Hlt].
Defined.

Lemma constant_stream_prefix_witness :
  half_scale_buffer <> [] /\ forallb is_Sint16 half_scale_buffer = true /\ (3 <= 10)%nat /\
  (F32.le (beat_energy (fst (@callbacks test_platform 3 state0 half_scale_buffer (fun _ => 0) 42)))
          (beat_energy (fst (@callbacks test_platform 10 state0 half_scale_buffer (fun _ => 0) 42)))
   = true /\
   (beat_onset (fst (@callbacks test_platform 10 state0 half_scale_buffer (fun _ => 0) 42))
      half_scale_buffer = true ->
    beat_onset (fst (@callbacks test_platform 3 state0 half_scale_buffer (fun _ => 0) 42))
      half_scale_buffer = true)).
Proof.
  split; [discriminate|]. split; [vm_compute; reflexivity|]. split; [lia|].
  apply (@constant_stream_prefix test_platform half_scale_buffer (fun _ => 0) 42 3 10);
    [discriminate|vm_compute; reflexivity|lia].
Defined.
